(** * scqubits: the spectrum and parameter-sweep engine of [QubitBaseClass]

    A shallow embedding of [scqubits/core/qubit_base.py]: the single-point
    solves ([_evals_calc], [_esys_calc], [eigenvals], [eigensys]), the sweep
    [get_spectrum_vs_paramvals], the dispersion computation
    ([_compute_dispersion], [get_dispersion_vs_paramvals]) and the matrix
    elements ([matrixelement_table], [get_matelements_vs_paramvals]).

    Python methods mutate [self] and may raise; they are embedded in a state
    and exception monad over a [World] that holds the instance dictionary of
    the qubit object and the numpy arrays the caller shares with the engine.
    A raised exception keeps the world reached so far, as in Python. *)

From Stdlib Require Import ZArith Ring Ring_theory QArith Qcanon.
From stdpp Require Import gmap strings list sorting pretty.

(** ** Numbers

    numpy's float64 energies are idealised as the elements of a totally
    ordered commutative ring with a division; rounding is not modelled. The
    integers are the executable instance used for the concrete runs; the
    rationals are an instance with an exact division. *)

Class RealNum (R : Type) := {
  rzero : R;
  rone : R;
  radd : R → R → R;
  rmul : R → R → R;
  rsub : R → R → R;
  ropp : R → R;
  rdiv : R → R → R;
  rleb : R → R → bool;
  real_ring : ring_theory rzero rone radd rmul rsub ropp eq;
  rleb_total : ∀ x y, rleb x y = true ∨ rleb y x = true;
  rleb_trans : ∀ x y z, rleb x y = true → rleb y z = true → rleb x z = true;
  rleb_sub_mono : ∀ x y c, rleb x y = true → rleb (rsub x c) (rsub y c) = true
}.

#[global] Instance Z_RealNum : RealNum Z.
Proof.
  refine {| rzero := 0%Z; rone := 1%Z; radd := Z.add; rmul := Z.mul;
            rsub := Z.sub; ropp := Z.opp; rdiv := Z.div; rleb := Z.leb |}.
  - constructor; intros; lia.
  - intros x y. rewrite !Z.leb_le. lia.
  - intros x y z. rewrite !Z.leb_le. lia.
  - intros x y c. rewrite !Z.leb_le. lia.
Defined.

#[global] Instance Qc_RealNum : RealNum Qc.
Proof.
  refine {| rzero := Q2Qc 0; rone := Q2Qc 1; radd := Qcplus; rmul := Qcmult;
            rsub := Qcminus; ropp := Qcopp; rdiv := Qcdiv;
            rleb := λ x y, Qle_bool (this x) (this y) |}.
  - exact Qcrt.
  - intros x y. rewrite !Qle_bool_iff.
    destruct (Qclt_le_dec x y) as [Hlt|Hle]; [left; by apply Qclt_le_weak|right; exact Hle].
  - intros x y z. rewrite !Qle_bool_iff. apply Qcle_trans.
  - intros x y c. rewrite !Qle_bool_iff. intros Hxy.
    apply (Qcplus_le_compat x y (- c)%Qc (- c)%Qc Hxy (Qcle_refl _)).
Defined.

Section Numbers.
Context {R : Type} `{RealNum R}.

Definition rle (x y : R) : Prop := rleb x y = true.

#[global] Instance rle_dec : RelDecision rle := λ x y, decide (rleb x y = true).

Fixpoint of_nat (n : nat) : R :=
  match n with O => rzero | S k => radd (of_nat k) rone end.

(** Complex amplitudes, as numpy's complex128: a real and an imaginary part. *)
Record Cplx := mkC { re : R; im : R }.

Definition czero : Cplx := mkC rzero rzero.
Definition cadd (x y : Cplx) : Cplx := mkC (radd (re x) (re y)) (radd (im x) (im y)).
Definition cmul (x y : Cplx) : Cplx :=
  mkC (rsub (rmul (re x) (re y)) (rmul (im x) (im y)))
      (radd (rmul (re x) (im y)) (rmul (im x) (re y))).
Definition cconj (x : Cplx) : Cplx := mkC (re x) (ropp (im x)).

Definition csum (l : list Cplx) : Cplx := foldr cadd czero l.

(** A vector is a 1-D complex array, a matrix a 2-D one (list of rows). *)
Definition Vector : Type := list Cplx.
Definition Matrix : Type := list (list Cplx).

Definition vnth (v : Vector) (a : nat) : Cplx := nth a v czero.
Definition mnth (m : Matrix) (a b : nat) : Cplx := nth b (nth a m []) czero.
End Numbers.

Arguments Cplx R : clear implicits.
Arguments Vector R : clear implicits.
Arguments Matrix R : clear implicits.

(** ** Exceptions

    [qubit_base.py] has no [raise] of its own: every failure is an exception
    of Python, numpy or scipy that propagates. The constructors name the
    exception class and the place that raises it. *)

Inductive PyExn : Type :=
  | ValueError_eigvals            (* scipy.linalg.eigh: requested eigenvalue indices are not valid *)
  | LinAlgError                   (* scipy.linalg.eigh: the LAPACK driver did not converge *)
  | AttributeError (name : string) (* getattr on a name the object does not have *)
  | TypeError_not_callable (name : string) (* calling a float attribute *)
  | TypeError_unpack              (* for index, (i, j) in enumerate((0, 1)) *)
  | TypeError_len                 (* len() of an int *)
  | TypeError_subscript           (* None[index] *)
  | IndexError                    (* index 0 of an empty tuple or array *)
  | ValueError_empty_reduction    (* np.max / np.min of a zero-size array *)
  | ValueError_broadcast          (* numpy: could not broadcast input array *)
  | TypeError_missing_argument (name : string). (* calling a method without a required argument *)

#[global] Instance PyExn_eq_dec : EqDecision PyExn.
Proof. solve_decision. Defined.

Inductive Outcome (A : Type) : Type :=
  | Return (a : A)
  | Raise (e : PyExn).
Arguments Return {A} a.
Arguments Raise {A} e.

Definition out_bind {A B} (o : Outcome A) (k : A → Outcome B) : Outcome B :=
  match o with
  | Return a => k a
  | Raise e => Raise e
  end.

(** ** The world and the monad of Python methods *)

Section Engine.
Context {R : Type} `{RealNum R}.

(** [self_dict] is the instance dictionary of the qubit object: its named
    numeric attributes. [ndarrays] is the store of float arrays that the
    caller passes by reference ([param_vals]). *)
Record World := mkWorld {
  self_dict : gmap string R;
  ndarrays : gmap nat (list R)
}.

Definition Py (A : Type) : Type := World → World * Outcome A.

Definition ret {A} (a : A) : Py A := λ w, (w, Return a).
Definition bind {A B} (m : Py A) (k : A → Py B) : Py B :=
  λ w, match m w with
       | (w', Return a) => k a w'
       | (w', Raise e) => (w', Raise e)
       end.

Notation "x <~ m ;; k" := (bind m (λ x, k))
  (at level 100, m at next level, right associativity).
Notation "m ;;; k" := (bind m (λ _, k))
  (at level 100, right associativity).

Definition lift {A} (o : Outcome A) : Py A := λ w, (w, o).

(** [getattr(self, name)] and [setattr(self, name, value)] on numeric
    attributes. *)
Definition getattr (name : string) : Py R :=
  λ w, match self_dict w !! name with
       | Some v => (w, Return v)
       | None => (w, Raise (AttributeError name))
       end.

Definition with_param (name : string) (v : R) (w : World) : World :=
  mkWorld (<[name:=v]> (self_dict w)) (ndarrays w).

Definition setattr (name : string) (v : R) : Py unit :=
  λ w, (with_param name v w, Return tt).

(** Reading and writing a float array through its reference. *)
Definition read_array (l : nat) : Py (list R) :=
  λ w, (w, Return (default [] (ndarrays w !! l))).

Definition write_array (l : nat) (vs : list R) : Py unit :=
  λ w, (mkWorld (self_dict w) (<[l:=vs]> (ndarrays w)), Return tt).

(** The builtin [map] consumed by [list(...)]: the calls run one after the
    other on the same object; the first exception stops the iteration. *)
Fixpoint py_map {A B} (f : A → Py B) (xs : list A) : Py (list B) :=
  match xs with
  | [] => ret []
  | x :: xs' => y <~ f x ;; ys <~ py_map f xs' ;; ret (y :: ys)
  end.

(** ** numpy *)

(** [np.sort] on a 1-D float array. *)
Definition np_sort (l : list R) : list R := merge_sort rle l.

(** [np.max] and [np.min] of a 1-D float array; a zero-size array raises. *)
Definition rmax (x y : R) : R := if rleb x y then y else x.
Definition rmin (x y : R) : R := if rleb x y then x else y.

Definition np_max (l : list R) : Outcome R :=
  match l with
  | [] => Raise ValueError_empty_reduction
  | x :: l' => Return (foldl rmax x l')
  end.

Definition np_min (l : list R) : Outcome R :=
  match l with
  | [] => Raise ValueError_empty_reduction
  | x :: l' => Return (foldl rmin x l')
  end.

(** [np.max] of a tuple of level indices, or of a tuple of index pairs. *)
Definition np_max_nat (l : list nat) : Outcome nat :=
  match l with
  | [] => Raise ValueError_empty_reduction
  | x :: l' => Return (foldl Nat.max x l')
  end.

(** [np.linspace(0.0, 1.0, num)]: [num] evenly spaced samples, both ends
    included; a single sample is the start. *)
Definition linspace01 (num : nat) : list R :=
  match num with
  | 1 => [rzero]
  | _ => (λ k, rdiv (of_nat k) (of_nat (num - 1))) <$> seq 0 num
  end.

(** [a.T] of a 2-D array of shape [(rows, cols)]. *)
Definition transpose2 (rows cols : nat) (a : list (list R)) : list (list R) :=
  (λ c, (λ r, nth c (nth r a []) rzero) <$> seq 0 rows) <$> seq 0 cols.

(** ** scipy

    [sp.linalg.eigh(a, eigvals_only=..., eigvals=(lo, hi))]. The LAPACK driver
    is a parameter: for a matrix it yields all eigenpairs in ascending index
    order, or nothing when it does not converge. scipy checks the requested
    index range against the dimension of [a] before it calls the driver and
    returns the pairs of indices [lo..hi]. *)
Variable lapack : Matrix R → option (list (R * Vector R)).

Definition eigh (a : Matrix R) (lo hi : Z) : Outcome (list (R * Vector R)) :=
  if bool_decide (0 ≤ lo ∧ lo ≤ hi ∧ hi < Z.of_nat (length a))%Z then
    match lapack a with
    | Some pairs => Return (take (Z.to_nat (hi - lo + 1)) (drop (Z.to_nat lo) pairs))
    | None => Raise LinAlgError
    end
  else Raise ValueError_eigvals.

(** ** Collaborators of the engine that live outside [qubit_base.py] *)

(** [settings.NUM_CPUS], and the order in which the tasks of a worker pool
    of [n] tasks complete (chosen by the operating system). *)
Variable NUM_CPUS : nat.
Variable completion_order : nat → list nat.

(** The first exception in a list of outcomes, if any. *)
Fixpoint first_raise {A} (l : list (Outcome A)) : option PyExn :=
  match l with
  | [] => None
  | Raise e :: _ => Some e
  | Return _ :: l' => first_raise l'
  end.

(** The results of a list of outcomes, or its first exception. *)
Fixpoint collect {A} (l : list (Outcome A)) : Outcome (list A) :=
  match l with
  | [] => Return []
  | Raise e :: _ => Raise e
  | Return a :: l' =>
      match collect l' with Return r => Return (a :: r) | Raise e => Raise e end
  end.

(** Modelled from the spec: the map of a worker pool, which
    [utils/cpu_switch.py] provides. Each task operates on an independent copy
    of the system; results are recorded at the input index, not in completion
    order; the first failure to arrive aborts the map. *)
Definition pool_map {A B} (f : A → Py B) (xs : list A) : Py (list B) :=
  λ w,
    let outcomes := (λ x, snd (f x w)) <$> xs in
    let arrived := omap (λ i, outcomes !! i) (completion_order (length xs)) in
    match first_raise arrived with
    | Some e => (w, Raise e)
    | None => (w, collect outcomes)
    end.

(** Modelled from the spec: [get_map_method] of [utils/cpu_switch.py]; a
    worker count of 1 is the plain sequential [map]. *)
Definition get_map_method (num_cpus : nat) {A B} : (A → Py B) → list A → Py (list B) :=
  if Nat.eqb num_cpus 1 then py_map else pool_map.

(** [num_cpus or settings.NUM_CPUS] *)
Definition num_cpus_or_default (num_cpus : option nat) : nat :=
  match num_cpus with
  | Some (S n) => S n
  | _ => NUM_CPUS
  end.

(** Eigenpairs compared by eigenvalue. *)
Definition eval_le (p q : R * Vector R) : Prop := rle p.1 q.1.

#[global] Instance eval_le_dec : RelDecision eval_le := λ p q, decide (rleb p.1 q.1 = true).

(** Modelled from the spec: [order_eigensystem] of [utils/spectrum_utils.py];
    eigenvalues ascending, eigenvectors reordered to match. The eigenvectors
    (the columns of scipy's [evecs]) are kept as a list, one per eigenvalue. *)
Definition order_eigensystem (pairs : list (R * Vector R)) : list R * list (Vector R) :=
  let ordered := merge_sort eval_le pairs in
  (ordered.*1, ordered.*2).

(** Modelled from the spec: [recast_esys_mapdata] of
    [utils/spectrum_utils.py]; the eigenvalues as a 2-D table, the
    eigenvectors as a list indexed by parameter position. *)
Definition recast_esys_mapdata (mapdata : list (list R * list (Vector R)))
  : list (list R) * list (list (Vector R)) :=
  (mapdata.*1, mapdata.*2).

(** Modelled from the spec: the matrix element <u|operator|v> that
    [get_matrixelement_table] of [utils/spectrum_utils.py] forms: the sum
    over the basis indices [a], [b] of conj(u[a]) operator[a][b] v[b]. *)
Definition braket (operator : Matrix R) (u v : Vector R) : Cplx R :=
  csum ((λ a, csum ((λ b, cmul (cmul (cconj (vnth u a)) (mnth operator a b)) (vnth v b))
                      <$> seq 0 (length operator)))
          <$> seq 0 (length operator)).

(** Modelled from the spec: [get_matrixelement_table] of
    [utils/spectrum_utils.py]; entry [i][j] is the matrix element
    <i|operator|j> between the eigenvectors [i] and [j]. *)
Definition get_matrixelement_table (operator : Matrix R) (evecs : list (Vector R)) : Matrix R :=
  (λ u, (λ v, braket operator u v) <$> evecs) <$> evecs.

(** ** Result containers ([core/storage.py], fields as the engine fills them) *)

Inductive EnergyTable : Type :=
  | Energies1 (e : list R)
  | Energies2 (e : list (list R))
  | Energies3 (e : list (list (list R))).

Inductive StateTable : Type :=
  | States1 (evecs : list (Vector R))
  | StatesN (evecs : list (list (Vector R))).

(** The [transitions] argument is a single pair of level indices or a tuple
    of pairs; the [levels] argument is [None], a bare integer or a tuple. *)
Inductive Transitions : Type :=
  | SingleTransition (i j : nat)
  | TransitionSeq (l : list (nat * nat)).

Inductive Levels : Type :=
  | SingleLevel (n : nat)
  | LevelSeq (l : list nat).

Record SpectrumData := mkSpectrumData {
  energy_table : EnergyTable;
  system_params : gmap string R;
  param_name : option string;
  param_vals : option nat;
  state_table : option StateTable;
  matrixelem_table : option (list (Matrix R));
  labels : option (Levels + Transitions);
  dispersion : option (list (list R))
}.

Record DataStore := mkDataStore {
  ds_system_params : gmap string R;
  ds_matrixelem_table : Matrix R
}.

(** ** QuantumSystem and QubitBaseClass *)

(** What [getattr(self, name)()] meets when [name] is an attribute of the
    class that yields no operator matrix: a class-level value that cannot be
    called, a method with a required parameter, or something that can be called
    with no argument. *)
Inductive ClassAttribute : Type :=
  | ClassData
  | MethodWithParameters
  | MethodWithoutParameters.

(** The attributes [qubit_base.py] gives every qubit through [QuantumSystem]
    and [QubitBaseClass], [hamiltonian] apart: the class-level values, the
    methods that need an argument besides [self], and the methods that can be
    called with none. *)
Definition qubit_base_attributes : list (string * ClassAttribute) :=
  [ ("truncated_dim", ClassData); ("_quantumsystem_counter", ClassData);
    ("subclasses", ClassData); ("_init_params", ClassData);
    ("__new__", MethodWithParameters); ("__eq__", MethodWithParameters);
    ("_evals_calc", MethodWithParameters); ("_esys_calc", MethodWithParameters);
    ("matrixelement_table", MethodWithParameters);
    ("_esys_for_paramval", MethodWithParameters);
    ("_evals_for_paramval", MethodWithParameters);
    ("get_spectrum_vs_paramvals", MethodWithParameters);
    ("_compute_dispersion", MethodWithParameters);
    ("get_dispersion_vs_paramvals", MethodWithParameters);
    ("get_matelements_vs_paramvals", MethodWithParameters);
    ("plot_evals_vs_paramvals", MethodWithParameters);
    ("plot_dispersion_vs_paramvals", MethodWithParameters);
    ("plot_matrixelements", MethodWithParameters);
    ("plot_matelem_vs_paramvals", MethodWithParameters);
    ("set_and_return", MethodWithParameters);
    ("__del__", MethodWithoutParameters); ("__init_subclass__", MethodWithoutParameters);
    ("__repr__", MethodWithoutParameters); ("__str__", MethodWithoutParameters);
    ("__hash__", MethodWithoutParameters); ("get_initdata", MethodWithoutParameters);
    ("hilbertdim", MethodWithoutParameters); ("create", MethodWithoutParameters);
    ("widget", MethodWithoutParameters); ("default_params", MethodWithoutParameters);
    ("set_params", MethodWithoutParameters);
    ("supported_noise_channels", MethodWithoutParameters);
    ("eigenvals", MethodWithoutParameters); ("eigensys", MethodWithoutParameters) ].

(** A concrete qubit class supplies the abstract methods [hamiltonian] and
    [hilbertdim], its zero-argument operator methods and [_init_params]; all
    of them read the attributes of [self]. [other_attributes] are the
    attributes the object has from outside [qubit_base.py]: those inherited
    from [DispatchClient] and [object], those of a mix-in and further members
    of the concrete class. [outside_call] is what a call with no argument
    comes to where the body called is not in this file: the methods among
    [other_attributes], and [create], [widget], [__str__] and [default_params],
    which hand over to the widget library or to the concrete class.
    [nonoperator_table] is what [get_matrixelement_table] of
    [utils/spectrum_utils.py] makes, at line 304, of the eigenvectors and a
    value that is no operator matrix ([hilbertdim] yields an int,
    [get_initdata] a dict, [eigenvals] an array). Neither this file nor the
    spec says what these are, so they are left to the class description. *)
Record QubitClass := mkQubitClass {
  hamiltonian : gmap string R → Matrix R;
  hilbertdim : gmap string R → nat;
  operator_methods : gmap string (gmap string R → Matrix R);
  _init_params : list string;
  other_attributes : gmap string ClassAttribute;
  outside_call : string → gmap string R → Outcome unit;
  nonoperator_table : string → gmap string R → list (Vector R) → Outcome (Matrix R)
}.

Variable cls : QubitClass.

(** [{name: getattr(self, name) for name in self._init_params}] *)
Definition get_initdata : Py (gmap string R) :=
  vals <~ py_map getattr (_init_params cls) ;;
  ret (list_to_map (zip (_init_params cls) vals)).

Definition call_hamiltonian : Py (Matrix R) :=
  λ w, (w, Return (hamiltonian cls (self_dict w))).

Definition _evals_calc (evals_count : nat) : Py (list R) :=
  hamiltonian_mat <~ call_hamiltonian ;;
  evals <~ lift (eigh hamiltonian_mat 0 (Z.of_nat evals_count - 1)) ;;
  ret (np_sort (evals.*1)).

Definition _esys_calc (evals_count : nat) : Py (list R * list (Vector R)) :=
  hamiltonian_mat <~ call_hamiltonian ;;
  esys <~ lift (eigh hamiltonian_mat 0 (Z.of_nat evals_count - 1)) ;;
  ret (order_eigensystem esys).

(** [eigenvals] and [eigensys]; the [filename] argument (the serialization
    sink) is left at its default [None]. *)
Definition eigenvals (evals_count : nat) (return_spectrumdata : bool)
  : Py (if return_spectrumdata then SpectrumData else list R) :=
  evals <~ _evals_calc evals_count ;;
  match return_spectrumdata
        return Py (if return_spectrumdata then SpectrumData else list R) with
  | true =>
      params <~ get_initdata ;;
      ret (mkSpectrumData (Energies1 evals) params None None None None None None)
  | false => ret evals
  end.

Definition eigensys (evals_count : nat) (return_spectrumdata : bool)
  : Py (if return_spectrumdata then SpectrumData else (list R * list (Vector R))%type) :=
  esys <~ _esys_calc evals_count ;;
  match return_spectrumdata
        return Py (if return_spectrumdata then SpectrumData
                   else (list R * list (Vector R))%type) with
  | true =>
      params <~ get_initdata ;;
      ret (mkSpectrumData (Energies1 esys.1) params None None
             (Some (States1 esys.2)) None None None)
  | false => ret esys
  end.

(** What [getattr(self, operator)()] yields when it returns: an operator
    matrix, or the value of some other attribute that was called with no
    argument. *)
Inductive Called : Type :=
  | OperatorMatrix (operator_matrix : Matrix R)
  | OtherObject (name : string).

(** The attribute of the class that [getattr] finds for a name that is
    neither an operator method nor [hamiltonian]. *)
Definition class_attribute (name : string) : option ClassAttribute :=
  match (list_to_map qubit_base_attributes : gmap string ClassAttribute) !! name with
  | Some attribute => Some attribute
  | None => other_attributes cls !! name
  end.

(** What the call with no argument does, up to the value it yields, for a
    method that yields no operator matrix. [eigenvals] and [eigensys] solve
    for their default of six levels (lines 205 and 238); [get_initdata] and
    [__repr__] read the attributes that [_init_params] names (lines 127 and
    96-99); [widget] reads them too (line 143) before it hands over to the
    widget library; [hilbertdim], [__hash__], [__del__], [__init_subclass__],
    [set_params] and [supported_noise_channels] read no attribute of the
    instance and return. Every other body is outside this file. *)
Definition call_without_arguments (name : string) : Py unit :=
  if decide (name = "eigenvals") then eigenvals 6 false ;;; ret tt
  else if decide (name = "eigensys") then eigensys 6 false ;;; ret tt
  else if decide (name ∈ ["get_initdata"; "__repr__"]) then get_initdata ;;; ret tt
  else if decide (name = "widget") then
    get_initdata ;;; λ w, (w, outside_call cls name (self_dict w))
  else if decide (name ∈ ["hilbertdim"; "__hash__"; "__del__"; "__init_subclass__";
                          "set_params"; "supported_noise_channels"]) then ret tt
  else λ w, (w, outside_call cls name (self_dict w)).

(** [getattr(self, operator)()]: the instance dictionary shadows the methods
    of the class, and a float found there is not callable; then come the
    operator methods of the class and [hamiltonian], then its other
    attributes; a name found nowhere raises AttributeError. *)
Definition call_operator (operator : string) : Py Called :=
  λ w, match self_dict w !! operator with
       | Some _ => (w, Raise (TypeError_not_callable operator))
       | None =>
           match operator_methods cls !! operator with
           | Some method => (w, Return (OperatorMatrix (method (self_dict w))))
           | None =>
               if decide (operator = "hamiltonian") then
                 (w, Return (OperatorMatrix (hamiltonian cls (self_dict w))))
               else
                 match class_attribute operator with
                 | Some ClassData => (w, Raise (TypeError_not_callable operator))
                 | Some MethodWithParameters =>
                     (w, Raise (TypeError_missing_argument operator))
                 | Some MethodWithoutParameters =>
                     (call_without_arguments operator ;;; ret (OtherObject operator)) w
                 | None => (w, Raise (AttributeError operator))
                 end
           end
       end.

(** [get_matrixelement_table(operator_matrix, evecs)] on what the call
    yielded. *)
Definition table_of_called (called : Called) (evecs : list (Vector R)) : Py (Matrix R) :=
  λ w, match called with
       | OperatorMatrix operator_matrix =>
           (w, Return (get_matrixelement_table operator_matrix evecs))
       | OtherObject name => (w, nonoperator_table cls name (self_dict w) evecs)
       end.

Definition matrixelement_table (operator : string) (evecs : option (list (Vector R)))
    (evals_count : nat) (return_datastore : bool)
  : Py (if return_datastore then DataStore else Matrix R) :=
  evecs <~ match evecs with
           | None => esys <~ eigensys evals_count false ;; ret esys.2
           | Some evecs => ret evecs
           end ;;
  operator_matrix <~ call_operator operator ;;
  table <~ table_of_called operator_matrix evecs ;;
  match return_datastore
        return Py (if return_datastore then DataStore else Matrix R) with
  | true => params <~ get_initdata ;; ret (mkDataStore params table)
  | false => ret table
  end.

Definition _esys_for_paramval (param_name : string) (evals_count : nat) (paramval : R)
  : Py (list R * list (Vector R)) :=
  setattr param_name paramval ;;;
  eigensys evals_count false.

Definition _evals_for_paramval (param_name : string) (evals_count : nat) (paramval : R)
  : Py (list R) :=
  setattr param_name paramval ;;;
  eigenvals evals_count false.

(** [eigenvalue_table[param_index] -= eigenvalue_table[param_index][0]] *)
Definition subtract_ground_row (row : list R) : Outcome (list R) :=
  match row with
  | [] => Raise IndexError
  | ground :: _ => Return ((λ e, rsub e ground) <$> row)
  end.

Fixpoint subtract_ground_loop (indices : list nat) (eigenvalue_table : list (list R))
  : Outcome (list (list R)) :=
  match indices with
  | [] => Return eigenvalue_table
  | param_index :: rest =>
      match eigenvalue_table !! param_index with
      | None => Raise IndexError
      | Some row =>
          out_bind (subtract_ground_row row) (λ row',
            subtract_ground_loop rest (<[param_index:=row']> eigenvalue_table))
      end
  end.

(** [get_spectrum_vs_paramvals]; [param_vals] is the reference of the
    caller's array. The progress bar and the info bar only report. *)
Definition get_spectrum_vs_paramvals (param_name : string) (param_vals : nat)
    (evals_count : nat) (subtract_ground get_eigenstates : bool) (num_cpus : option nat)
  : Py SpectrumData :=
  let num_cpus := num_cpus_or_default num_cpus in
  previous_paramval <~ getattr param_name ;;
  vals <~ read_array param_vals ;;
  tables <~ (if negb get_eigenstates then
               eigenvalue_table <~ get_map_method num_cpus
                   (_evals_for_paramval param_name evals_count) vals ;;
               ret (eigenvalue_table, None)
             else
               eigensystem_mapdata <~ get_map_method num_cpus
                   (_esys_for_paramval param_name evals_count) vals ;;
               let recast := recast_esys_mapdata eigensystem_mapdata in
               ret (recast.1, Some recast.2)) ;;
  eigenvalue_table <~ (if subtract_ground then
                         lift (subtract_ground_loop (seq 0 (length vals)) tables.1)
                       else ret tables.1) ;;
  setattr param_name previous_paramval ;;;
  _ <~ get_initdata ;;
  params <~ get_initdata ;;
  ret (mkSpectrumData (Energies2 eigenvalue_table) params (Some param_name)
         (Some param_vals) (StatesN <$> tables.2) None None None).

(** ** Dispersion *)

(** [np.max(transitions)]: the largest index anywhere in the tuple. *)
Definition np_max_transitions (transitions : Transitions) : Outcome nat :=
  match transitions with
  | SingleTransition i j => Return (Nat.max i j)
  | TransitionSeq l => np_max_nat (flat_map (λ p, [p.1; p.2]) l)
  end.

Definition np_max_levels (levels : Levels) : Outcome nat :=
  match levels with
  | SingleLevel n => Return n
  | LevelSeq l => np_max_nat l
  end.

(** Python's truth value of [levels]: [None], [0] and [()] are false. *)
Definition truthy_levels (levels : option Levels) : bool :=
  match levels with
  | None => false
  | Some (SingleLevel 0) => false
  | Some (SingleLevel (S _)) => true
  | Some (LevelSeq []) => false
  | Some (LevelSeq (_ :: _)) => true
  end.

(** Modelled from the spec: [ParameterSweep] over the single subsystem
    [self] with [bare_only=True], read through
    [sweep["bare_evals"]["subsys":0].toarray()]. Over the 2-D grid (outer
    dimension the induced samples, inner dimension the swept values) every
    cell sets both attributes through [update_func] and solves for the lowest
    [evals_count] eigenvalues; the result is the energy cube indexed
    [induced_sample][swept_index][level]. *)
Definition ParameterSweep_bare_evals (update_func : R → R → Py unit)
    (disp_vals sweep_vals : list R) (evals_count : nat) (num_cpus : option nat)
  : Py (list (list (list R))) :=
  get_map_method (num_cpus_or_default num_cpus)
    (λ disp_val,
       py_map (λ sweep_val,
                 update_func disp_val sweep_val ;;;
                 eigenvals evals_count false)
              sweep_vals)
    disp_vals.

(** [eigenenergies[d, s, i]] *)
Definition energy_at (eigenenergies : list (list (list R))) (d s i : nat) : Outcome R :=
  match eigenenergies !! d with
  | Some plane =>
      match plane !! s with
      | Some row =>
          match row !! i with
          | Some e => Return e
          | None => Raise IndexError
          end
      | None => Raise IndexError
      end
  | None => Raise IndexError
  end.

(** The column [eigenenergies[:, s, i] - eigenenergies[:, s, j]] and the
    column [eigenenergies[:, s, j]] over the induced samples. *)
Definition transition_samples (eigenenergies : list (list (list R))) (i j s : nat)
  : Outcome (list R) :=
  collect ((λ d, out_bind (energy_at eigenenergies d s i) (λ e_i,
                 out_bind (energy_at eigenenergies d s j) (λ e_j,
                 Return (rsub e_i e_j))))
             <$> seq 0 (length eigenenergies)).

Definition level_samples (eigenenergies : list (list (list R))) (j s : nat)
  : Outcome (list R) :=
  collect ((λ d, energy_at eigenenergies d s j) <$> seq 0 (length eigenenergies)).

(** [np.max(samples, axis=0) - np.min(samples, axis=0)] at one swept index. *)
Definition spread (samples : list R) : Outcome R :=
  out_bind (np_max samples) (λ hi,
  out_bind (np_min samples) (λ lo,
  Return (rsub hi lo))).

Definition dispersion_row (samples_at : nat → Outcome (list R)) (paramvals_count : nat)
  : Outcome (list R) :=
  collect ((λ s, out_bind (samples_at s) spread) <$> seq 0 paramvals_count).

Definition _compute_dispersion (dispersion_name param_name : string) (param_vals : nat)
    (transitions : Transitions) (levels : option Levels) (point_count : nat)
    (num_cpus : option nat)
  : Py (list (list (list R)) * list (list R)) :=
  vals <~ read_array param_vals ;;
  let disp_vals := linspace01 point_count in
  let update_func := λ disp_val sweep_val,
        (setattr dispersion_name disp_val ;;; setattr param_name sweep_val) in
  previous_dispval <~ getattr dispersion_name ;;
  previous_paramval <~ getattr param_name ;;
  max_level <~ lift (match levels with
                     | Some l => if truthy_levels levels then np_max_levels l
                                 else np_max_transitions transitions
                     | None => np_max_transitions transitions
                     end) ;;
  eigenenergies <~ ParameterSweep_bare_evals update_func disp_vals vals
                     (max_level + 1) num_cpus ;;
  dispersions <~ lift (match levels with
                       | None =>
                           match transitions with
                           | SingleTransition _ _ => Raise TypeError_unpack
                           | TransitionSeq l =>
                               collect ((λ t, dispersion_row
                                           (transition_samples eigenenergies t.1 t.2)
                                           (length vals)) <$> l)
                           end
                       | Some (SingleLevel _) => Raise TypeError_len
                       | Some (LevelSeq l) =>
                           collect ((λ j, dispersion_row
                                       (level_samples eigenenergies j)
                                       (length vals)) <$> l)
                       end) ;;
  setattr param_name previous_paramval ;;;
  setattr dispersion_name previous_dispval ;;;
  ret (eigenenergies, dispersions).

(** The normalisation at the head of [get_dispersion_vs_paramvals]:
    [isinstance(levels, int)], else [isinstance(transitions[0], int)]. *)
Definition normalize_labels (transitions : Transitions) (levels : option Levels)
  : Outcome (Transitions * option Levels) :=
  match levels with
  | Some (SingleLevel n) => Return (transitions, Some (LevelSeq [n]))
  | _ =>
      match transitions with
      | SingleTransition i j => Return (TransitionSeq [(i, j)], levels)
      | TransitionSeq [] => Raise IndexError
      | TransitionSeq (_ :: _) => Return (transitions, levels)
      end
  end.

(** [labels=levels or transitions] *)
Definition labels_of (transitions : Transitions) (levels : option Levels)
  : Levels + Transitions :=
  match levels with
  | Some l => if truthy_levels levels then inl l else inr transitions
  | None => inr transitions
  end.

Definition get_dispersion_vs_paramvals (dispersion_name param_name : string)
    (param_vals : nat) (ref_param : option string) (transitions : Transitions)
    (levels : option Levels) (point_count : nat) (num_cpus : option nat)
  : Py SpectrumData :=
  normalized <~ lift (normalize_labels transitions levels) ;;
  let transitions := normalized.1 in
  let levels := normalized.2 in
  result <~ _compute_dispersion dispersion_name param_name param_vals
              transitions levels point_count num_cpus ;;
  param_name <~ match ref_param with
                | Some ref_param =>
                    ref_val <~ getattr ref_param ;;
                    vals <~ read_array param_vals ;;
                    write_array param_vals ((λ v, rdiv v ref_val) <$> vals) ;;;
                    ret (param_name +:+ "/" +:+ ref_param)
                | None => ret param_name
                end ;;
  params <~ get_initdata ;;
  vals <~ read_array param_vals ;;
  ret (mkSpectrumData (Energies3 result.1) params (Some param_name) (Some param_vals)
         None None (Some (labels_of transitions levels))
         (Some (transpose2 (length result.2) (length vals) result.2))).

(** ** Matrix elements along a sweep *)

(** [matelem_table[index] = table] into an array of shape
    [(paramvals_count, evals_count, evals_count)]: a square table of the same
    size is stored, a 1 x 1 table is broadcast, any other shape raises. *)
Definition assign_broadcast (evals_count : nat) (table : Matrix R) : Outcome (Matrix R) :=
  if decide (length table = evals_count) then Return table
  else match table with
       | [[x]] => Return (replicate evals_count (replicate evals_count x))
       | _ => Raise ValueError_broadcast
       end.

Definition state_table_at (spectrumdata : SpectrumData) (index : nat)
  : Outcome (list (Vector R)) :=
  match state_table spectrumdata with
  | Some (StatesN table) =>
      match table !! index with
      | Some evecs => Return evecs
      | None => Raise IndexError
      end
  | Some (States1 _) => Raise IndexError
  | None => Raise TypeError_subscript
  end.

(** [spectrumdata.matrixelem_table = matelem_table] *)
Definition set_matrixelem_table (spectrumdata : SpectrumData)
    (matelem_table : list (Matrix R)) : SpectrumData :=
  mkSpectrumData (energy_table spectrumdata) (system_params spectrumdata)
    (param_name spectrumdata) (param_vals spectrumdata) (state_table spectrumdata)
    (Some matelem_table) (labels spectrumdata) (dispersion spectrumdata).

Definition get_matelements_vs_paramvals (operator param_name : string) (param_vals : nat)
    (evals_count : nat) (num_cpus : option nat)
  : Py SpectrumData :=
  let num_cpus := num_cpus_or_default num_cpus in
  spectrumdata <~ get_spectrum_vs_paramvals param_name param_vals evals_count
                    false true (Some num_cpus) ;;
  vals <~ read_array param_vals ;;
  matelem_table <~ py_map (λ index,
                      evecs <~ lift (state_table_at spectrumdata index) ;;
                      table <~ matrixelement_table operator (Some evecs) evals_count false ;;
                      lift (assign_broadcast evals_count table))
                     (seq 0 (length vals)) ;;
  ret (set_matrixelem_table spectrumdata matelem_table).

(** ** Vocabulary of the properties *)

(** Non-decreasing by level index. *)
Definition ascending (row : list R) : Prop :=
  ∀ i j x y, i ≤ j → row !! i = Some x → row !! j = Some y → rle x y.

(** The energies of the single-point solve on [w] with the attribute
    [param_name] set to [v]: [eigenvals] on the values-only path, the first
    component of [eigensys] on the eigenvector path. *)
Definition energies_at (get_eigenstates : bool) (param_name : string)
    (evals_count : nat) (v : R) (w : World) : Outcome (list R) :=
  if get_eigenstates then
    out_bind (eigensys evals_count false (with_param param_name v w)).2
             (λ esys, Return esys.1)
  else (eigenvals evals_count false (with_param param_name v w)).2.

(** The eigenvectors of the single-point solve at [v]. *)
Definition eigenvectors_at (param_name : string) (evals_count : nat) (v : R) (w : World)
  : Outcome (list (Vector R)) :=
  out_bind (eigensys evals_count false (with_param param_name v w)).2
           (λ esys, Return esys.2).

(** The point solves of a sweep taken independently: every value of
    [vals] is solved on the initial world with the attribute set to it, and
    the results are gathered in input order. *)
Definition point_solves (get_eigenstates : bool) (param_name : string)
    (evals_count : nat) (vals : list R) (w : World)
  : Outcome (list (list R) * option (list (list (Vector R)))) :=
  if get_eigenstates then
    out_bind (collect ((λ v, (eigensys evals_count false (with_param param_name v w)).2)
                         <$> vals))
             (λ mapdata, Return ((recast_esys_mapdata mapdata).1,
                                 Some (recast_esys_mapdata mapdata).2))
  else
    out_bind (collect ((λ v, (eigenvals evals_count false (with_param param_name v w)).2)
                         <$> vals))
             (λ table, Return (table, None)).

(** The transition energy [E_i - E_j] at induced sample [d] and swept
    index [s] of an energy cube. *)
Definition transition_energy (eigenenergies : list (list (list R))) (i j s d : nat)
  : Outcome R :=
  out_bind (energy_at eigenenergies d s i) (λ e_i,
  out_bind (energy_at eigenenergies d s j) (λ e_j,
  Return (rsub e_i e_j))).

(** [hi] is the largest, [lo] the smallest, of the values [sample d] over the
    induced samples [d < count]: every sample has a value, the bound is one
    of them and bounds them all. *)
Definition is_max_over (count : nat) (sample : nat → Outcome R) (hi : R) : Prop :=
  (∃ d, d < count ∧ sample d = Return hi)
  ∧ ∀ d, d < count → ∃ x, sample d = Return x ∧ rle x hi.

Definition is_min_over (count : nat) (sample : nat → Outcome R) (lo : R) : Prop :=
  (∃ d, d < count ∧ sample d = Return lo)
  ∧ ∀ d, d < count → ∃ x, sample d = Return x ∧ rle lo x.

(** The dispersion table has one row per label and one entry per swept
    value, each entry the maximum minus the minimum of the samples, and zero
    when the samples do not vary. *)
Definition max_minus_min_rows {L} (labels : list L) (paramvals_count point_count : nat)
    (sample : L → nat → nat → Outcome R) (dispersions : list (list R)) : Prop :=
  length dispersions = length labels
  ∧ ∀ index label, labels !! index = Some label →
      ∃ row, dispersions !! index = Some row
        ∧ length row = paramvals_count
        ∧ ∀ s, s < paramvals_count →
            ∃ hi lo,
              is_max_over point_count (sample label s) hi
              ∧ is_min_over point_count (sample label s) lo
              ∧ row !! s = Some (rsub hi lo)
              ∧ ((∀ d d', d < point_count → d' < point_count →
                    sample label s d = sample label s d') →
                 row !! s = Some rzero).

(** [name] is no attribute of the object: it is not in the instance
    dictionary, it is no operator method of the class and not [hamiltonian],
    [qubit_base.py] defines nothing of that name, and neither does anything
    else the class is built from. *)
Definition no_attribute (name : string) (w : World) : Prop :=
  self_dict w !! name = None
  ∧ operator_methods cls !! name = None
  ∧ name ≠ "hamiltonian"
  ∧ (name ∉ qubit_base_attributes.*1)
  ∧ other_attributes cls !! name = None.

(** The exception of [getattr(self, name)()] for a name that is no attribute
    of the object or a float of the instance (the spec's
    UnknownOperatorError): the attribute is missing, or it is a float and
    cannot be called. *)
Definition unknown_operator_error (name : string) (w : World) : PyExn :=
  match self_dict w !! name with
  | Some _ => TypeError_not_callable name
  | None => AttributeError name
  end.


End Engine.

Arguments World R : clear implicits.
Arguments SpectrumData R : clear implicits.
Arguments QubitClass R : clear implicits.
Arguments Called R : clear implicits.

(** ** A concrete system over the integers

    A two-level system with attributes [EJ] and [ng] and the diagonal
    Hamiltonian [diag(0, EJ + ng)], a truncation attribute [ncut] that sets
    the dimension of a second class, and an exact LAPACK stand-in for diagonal
    matrices. They are the inputs of the concrete runs below. *)

Definition ZC (x : Z) : Cplx Z := mkC x 0%Z.

Definition unit_vector (n k : nat) : Vector Z :=
  (λ a, if Nat.eqb a k then ZC 1 else ZC 0) <$> seq 0 n.

Definition diag_lapack (a : Matrix Z) : option (list (Z * Vector Z)) :=
  Some (merge_sort eval_le
          ((λ k, (re (mnth a k k), unit_vector (length a) k)) <$> seq 0 (length a))).

Definition attr (name : string) (attrs : gmap string Z) : Z := default 0%Z (attrs !! name).

(** Attributes every object of such a class inherits from [object] and
    [DispatchClient]; a stand-in for the calls whose body is outside
    [qubit_base.py]: they return; and a stand-in for
    [get_matrixelement_table] on a value that is no operator matrix: numpy
    refuses it. *)
Definition inherited_attributes : gmap string ClassAttribute :=
  {[ "__class__" := MethodWithParameters; "__init__" := MethodWithParameters;
     "__dict__" := ClassData; "__doc__" := ClassData;
     "broadcast" := MethodWithParameters; "receive" := MethodWithParameters ]}.

Definition headless (name : string) (attrs : gmap string Z) : Outcome unit :=
  Return tt.

Definition numpy_refuses (name : string) (attrs : gmap string Z)
    (evecs : list (Vector Z)) : Outcome (Matrix Z) :=
  Raise ValueError_broadcast.

Definition two_level : QubitClass Z :=
  mkQubitClass
    (λ attrs, [[ZC 0; ZC 0]; [ZC 0; ZC (attr "EJ" attrs + attr "ng" attrs)]])
    (λ _, 2)
    {[ "n_operator" := λ _, [[ZC 0; ZC 1]; [ZC 1; ZC 0]];
       "sigma_y" := λ _, [[ZC 0; mkC 0%Z (-1)%Z]; [mkC 0%Z 1%Z; ZC 0]] ]}
    ["EJ"; "ng"]
    inherited_attributes
    headless
    numpy_refuses.


(** A two-level system whose lowest level is not zero: the Hamiltonian is
    [diag(EJ, EJ + 1)]. *)
Definition offset_levels : QubitClass Z :=
  mkQubitClass
    (λ attrs, [[ZC (attr "EJ" attrs); ZC 0]; [ZC 0; ZC (attr "EJ" attrs + 1)]])
    (λ _, 2)
    ∅
    ["EJ"]
    inherited_attributes
    headless
    numpy_refuses.

Definition truncated : QubitClass Z :=
  mkQubitClass
    (λ attrs, (λ a, (λ b, if Nat.eqb a b then ZC (Z.of_nat a * attr "EJ" attrs) else ZC 0)
                      <$> seq 0 (Z.to_nat (attr "ncut" attrs)))
                <$> seq 0 (Z.to_nat (attr "ncut" attrs)))
    (λ attrs, Z.to_nat (attr "ncut" attrs))
    ∅
    ["EJ"; "ncut"]
    inherited_attributes
    headless
    numpy_refuses.

Definition world0 : World Z :=
  mkWorld {[ "EJ" := 5%Z; "ng" := 0%Z; "ncut" := 3%Z ]}
          {[ 0 := [10%Z; 20%Z; 30%Z]; 1 := [3%Z; 1%Z; 2%Z] ]}.

Definition in_order (n : nat) : list nat := seq 0 n.
Definition reversed (n : nat) : list nat := reverse (seq 0 n).

(** * The rest of the interface

    The parameter methods of [QuantumSystem] and the plotting callers of
    [QubitBaseClass]. The functions of [utils/plotting.py] are opaque
    collaborators: each maps the arguments it is handed to a figure. *)

Section Interface.
Context {R : Type} `{RealNum R}.
Variable lapack : Matrix R → option (list (R * Vector R)).
Variable NUM_CPUS : nat.
Variable completion_order : nat → list nat.
Variable cls : QubitClass R.

Local Abbreviation Py := (@Py R).

(** [set_params] with its keyword arguments [kwargs], in the order of the
    dict, each set with [setattr]. *)
Fixpoint set_params (kwargs : list (string * R)) : Py unit :=
  match kwargs with
  | [] => ret tt
  | (param_name, param_val) :: rest =>
      bind (setattr param_name param_val) (λ _, set_params rest)
  end.

(** [set_and_return]: the attribute is set and [self], the object the world
    holds, is returned. *)
Definition set_and_return (attr_name : string) (value : R) : Py unit :=
  setattr attr_name value.

Definition supported_noise_channels : Py (list string) := ret [].

(** [select_elems]: the maximum index of the desired matrix elements, or a
    list of index pairs. *)
Inductive SelectElems : Type :=
  | MaxIndex (n : nat)
  | ElemList (l : list (nat * nat)).

(** The arguments [plot_dispersion_vs_paramvals] hands to
    [plot.data_vs_paramvals]. *)
Record DataVsParamvals := mkDataVsParamvals {
  xdata : option nat;
  ydata : option (list (list R));
  label_list : list string;
  xlabel : option string;
  ylabel : string;
  yscale : string
}.

Record Plotting := mkPlotting {
  Figure : Type;
  evals_vs_paramvals : SpectrumData R → list nat → Figure;
  data_vs_paramvals : DataVsParamvals → Figure;
  matrix2d : Matrix R → string → bool → Figure;
  matrix : Matrix R → string → bool → Figure;
  matelem_vs_paramvals : SpectrumData R → SelectElems → string → Figure
}.

Variable plot : Plotting.

(** [units.get_units()] *)
Variable get_units : string.

Definition plot_evals_vs_paramvals (param_name : string) (param_vals : nat)
    (evals_count : nat) (subtract_ground : bool) (num_cpus : option nat)
  : Py (Figure plot) :=
  let num_cpus := num_cpus_or_default NUM_CPUS num_cpus in
  bind (get_spectrum_vs_paramvals lapack NUM_CPUS completion_order cls param_name
          param_vals evals_count subtract_ground false (Some num_cpus))
       (λ specdata, ret (evals_vs_paramvals plot specdata (seq 0 evals_count))).

(** [str(j)] of a level index and ["{}{}".format(i, j)] of a transition. *)
Definition level_label (j : nat) : string := pretty j.
Definition transition_label (t : nat * nat) : string := pretty t.1 +:+ pretty t.2.

(** The labels of the curves: [levels] decides when it is not [None]. *)
Definition dispersion_label_list (transitions : Transitions) (levels : option Levels)
  : Outcome (list string) :=
  match levels with
  | Some (SingleLevel n) => Return [level_label n]
  | Some (LevelSeq l) => Return (level_label <$> l)
  | None =>
      match transitions with
      | SingleTransition i j => Return [transition_label (i, j)]
      | TransitionSeq [] => Raise IndexError
      | TransitionSeq l => Return (transition_label <$> l)
      end
  end.

(** The keyword arguments of the call of [plot.data_vs_paramvals]. *)
Definition dispersion_plot_data (specdata : SpectrumData R) (labels : list string)
  : DataVsParamvals :=
  mkDataVsParamvals (param_vals specdata) (dispersion specdata) labels
    (param_name specdata) ("energy dispersion [" +:+ get_units +:+ "]") "log".

Definition plot_dispersion_vs_paramvals (dispersion_name param_name : string)
    (param_vals : nat) (ref_param : option string) (transitions : Transitions)
    (levels : option Levels) (point_count : nat) (num_cpus : option nat)
  : Py (Figure plot) :=
  bind (get_dispersion_vs_paramvals lapack NUM_CPUS completion_order cls dispersion_name
          param_name param_vals ref_param transitions levels point_count num_cpus)
       (λ specdata,
          bind (lift (dispersion_label_list transitions levels))
               (λ labels,
                  ret (data_vs_paramvals plot (dispersion_plot_data specdata labels)))).


(** [select_elems] if it is an int, else [max(flattened_list) + 1]; the
    builtin [max] of an empty list raises ValueError. *)
Definition select_evals_count (select_elems : SelectElems) : Outcome nat :=
  match select_elems with
  | MaxIndex n => Return n
  | ElemList l =>
      out_bind (np_max_nat (flat_map (λ tupl, [tupl.1; tupl.2]) l))
               (λ m, Return (m + 1))
  end.

Definition plot_matelem_vs_paramvals (operator param_name : string) (param_vals : nat)
    (select_elems : SelectElems) (mode : string) (num_cpus : option nat)
  : Py (Figure plot) :=
  let num_cpus := num_cpus_or_default NUM_CPUS num_cpus in
  bind (lift (select_evals_count select_elems))
       (λ evals_count,
          bind (get_matelements_vs_paramvals lapack NUM_CPUS completion_order cls
                  operator param_name param_vals evals_count (Some num_cpus))
               (λ specdata,
                  ret (matelem_vs_paramvals plot specdata select_elems mode))).

End Interface.

Arguments Plotting R : clear implicits.
Arguments DataVsParamvals R : clear implicits.

(** A plotting collaborator for the concrete runs: the figure is the record
    of the call. *)
Inductive PlotCall : Type :=
  | EvalsPlot (specdata : SpectrumData Z) (which : list nat)
  | DataPlot (args : DataVsParamvals Z)
  | Matrix2dPlot (table : Matrix Z) (mode : string) (show_numbers : bool)
  | MatrixPlot (table : Matrix Z) (mode : string) (show_numbers : bool)
  | MatelemPlot (specdata : SpectrumData Z) (select_elems : SelectElems) (mode : string).

Definition recording_plot : Plotting Z :=
  mkPlotting PlotCall EvalsPlot DataPlot Matrix2dPlot MatrixPlot MatelemPlot.

(** The world of the concrete system with an empty [param_vals] array. *)
Definition world_no_points : World Z :=
  mkWorld (self_dict world0) {[ 0 := [] ]}.

(** * Properties *)

Section Properties.
Context {R : Type} `{RealNum R}.
Variable lapack : Matrix R → option (list (R * Vector R)).
Variable NUM_CPUS : nat.
Variable completion_order : nat → list nat.
Variable cls : QubitClass R.

Local Abbreviation Py := (@Py R).
Local Abbreviation World := (World R).

(** ** The order on energies *)

#[local] Instance rle_total : Total (@rle R _).
Proof. intros x y. apply rleb_total. Qed.

#[local] Instance rle_trans : Transitive (@rle R _).
Proof. intros x y z. apply rleb_trans. Qed.

#[local] Instance eval_le_total : Total (@eval_le R _).
Proof. intros x y. apply rleb_total. Qed.

#[local] Instance eval_le_trans : Transitive (@eval_le R _).
Proof. intros x y z. apply rleb_trans. Qed.

Lemma rle_refl (x : R) : rle x x.
Proof. destruct (rleb_total x x); assumption. Qed.

Lemma StronglySorted_ascending (row : list R) :
  StronglySorted rle row → ascending row.
Proof.
  induction 1 as [|x row Hs IH Hall]; intros i j a b Hij Hi Hj.
  - rewrite lookup_nil in Hi. discriminate.
  - destruct i as [|i], j as [|j]; simpl in *.
    + simplify_eq. apply rle_refl.
    + simplify_eq. rewrite Forall_forall in Hall.
      apply Hall. eapply list_elem_of_lookup_2; eassumption.
    + lia.
    + eapply IH; [|eassumption..]. lia.
Qed.

Lemma np_sort_ascending (l : list R) : ascending (np_sort l).
Proof. apply StronglySorted_ascending, StronglySorted_merge_sort; apply _. Qed.

Lemma order_eigensystem_ascending (pairs : list (R * Vector R)) :
  ascending (order_eigensystem pairs).1.
Proof.
  unfold order_eigensystem. simpl.
  apply StronglySorted_ascending.
  apply (StronglySorted_fmap fst eval_le rle).
  - intros p q Hpq. exact Hpq.
  - apply StronglySorted_merge_sort; apply _.
Qed.

Lemma ascending_shift (row : list R) (c : R) :
  ascending row → ascending ((λ e, rsub e c) <$> row).
Proof.
  intros Hrow i j x y Hij Hi Hj.
  rewrite list_lookup_fmap in Hi, Hj.
  destruct (row !! i) as [a|] eqn:Ea; [|discriminate].
  destruct (row !! j) as [b|] eqn:Eb; [|discriminate].
  simpl in *. simplify_eq.
  apply rleb_sub_mono. eapply Hrow; eassumption.
Qed.

(** ** The monad *)

Lemma bind_Return {A B} (m : Py A) (k : A → Py B) (w w1 : World) (a : A) :
  m w = (w1, Return a) → bind m k w = k a w1.
Proof. intros E. unfold bind. rewrite E. reflexivity. Qed.

Lemma bind_Raise {A B} (m : Py A) (k : A → Py B) (w w1 : World) (e : PyExn) :
  m w = (w1, Raise e) → bind m k w = (w1, Raise e).
Proof. intros E. unfold bind. rewrite E. reflexivity. Qed.

Lemma bind_inv_Return {A B} (m : Py A) (k : A → Py B) (w w' : World) (b : B) :
  bind m k w = (w', Return b) →
  ∃ w1 a, m w = (w1, Return a) ∧ k a w1 = (w', Return b).
Proof.
  unfold bind. destruct (m w) as [w1 [a|e]]; intros E; [eauto|discriminate].
Qed.

Lemma lift_inv_Return {A} (o : Outcome A) (w w' : World) (a : A) :
  lift o w = (w', Return a) → w' = w ∧ o = Return a.
Proof. unfold lift. intros E. by simplify_eq. Qed.

Lemma out_bind_inv_Return {A B} (o : Outcome A) (k : A → Outcome B) (b : B) :
  out_bind o k = Return b → ∃ a, o = Return a ∧ k a = Return b.
Proof. destruct o; simpl; intros E; [eauto|discriminate]. Qed.

Lemma collect_Return {A} (l : list (Outcome A)) (r : list A) :
  collect l = Return r ↔ l = Return <$> r.
Proof.
  revert r. induction l as [|[a|e] l IH]; intros r; simpl.
  - split; intros E.
    + by simplify_eq.
    + by destruct r.
  - destruct (collect l) as [r'|e] eqn:E.
    + split; intros E'.
      * simplify_eq. simpl. f_equal. by apply IH.
      * destruct r as [|a' r]; simplify_eq/=. f_equal.
        assert (Return r' = Return r :> Outcome (list A)) by by apply IH.
        by simplify_eq.
    + split; intros E'; [discriminate|].
      destruct r as [|a' r]; simplify_eq/=.
      assert (Raise e = Return r :> Outcome (list A)) by by apply IH.
      discriminate.
  - split; intros E; [discriminate|]. destruct r; simplify_eq/=.
Qed.

(** ** Calls that leave the world alone *)

Lemma py_map_getattr_world (names : list string) (w : World) :
  (py_map getattr names w).1 = w.
Proof.
  induction names as [|n names IH]; simpl; [reflexivity|].
  unfold bind, getattr at 1.
  destruct (self_dict w !! n); simpl; [|reflexivity].
  destruct (py_map getattr names w) as [w1 [vs|e]]; simpl in *; assumption.
Qed.

Lemma get_initdata_world (w : World) : (get_initdata cls w).1 = w.
Proof.
  unfold get_initdata, bind.
  pose proof (py_map_getattr_world (_init_params cls) w) as E.
  destruct (py_map getattr (_init_params cls) w) as [w1 [vs|e]]; simpl in *; assumption.
Qed.

Lemma _evals_calc_world (n : nat) (w : World) : (_evals_calc lapack cls n w).1 = w.
Proof.
  unfold _evals_calc, bind, call_hamiltonian, lift.
  destruct (eigh _ _ _ _); reflexivity.
Qed.

Lemma _esys_calc_world (n : nat) (w : World) : (_esys_calc lapack cls n w).1 = w.
Proof.
  unfold _esys_calc, bind, call_hamiltonian, lift.
  destruct (eigh _ _ _ _); reflexivity.
Qed.

Lemma eigenvals_false (n : nat) (w : World) :
  eigenvals lapack cls n false w = _evals_calc lapack cls n w.
Proof.
  unfold eigenvals, bind. destruct (_evals_calc lapack cls n w) as [w1 [a|e]]; reflexivity.
Qed.

Lemma eigensys_false (n : nat) (w : World) :
  eigensys lapack cls n false w = _esys_calc lapack cls n w.
Proof.
  unfold eigensys, bind. destruct (_esys_calc lapack cls n w) as [w1 [a|e]]; reflexivity.
Qed.

Lemma eigenvals_world (n : nat) (b : bool) (w : World) :
  (eigenvals lapack cls n b w).1 = w.
Proof.
  destruct b; [|rewrite eigenvals_false; apply _evals_calc_world].
  unfold eigenvals, bind.
  pose proof (_evals_calc_world n w) as E.
  destruct (_evals_calc lapack cls n w) as [w1 [a|e]]; simpl in *; [|assumption].
  subst w1. pose proof (get_initdata_world w) as E.
  destruct (get_initdata cls w) as [w1 [a'|e]]; simpl in *; assumption.
Qed.

Lemma eigensys_world (n : nat) (b : bool) (w : World) :
  (eigensys lapack cls n b w).1 = w.
Proof.
  destruct b; [|rewrite eigensys_false; apply _esys_calc_world].
  unfold eigensys, bind.
  pose proof (_esys_calc_world n w) as E.
  destruct (_esys_calc lapack cls n w) as [w1 [a|e]]; simpl in *; [|assumption].
  subst w1. pose proof (get_initdata_world w) as E.
  destruct (get_initdata cls w) as [w1 [a'|e]]; simpl in *; assumption.
Qed.

(** ** Single-point solves *)

Lemma eigh_out_of_range (a : Matrix R) (evals_count : nat) :
  length a < evals_count →
  eigh lapack a 0 (Z.of_nat evals_count - 1) = Raise ValueError_eigvals.
Proof.
  intros Hlt. unfold eigh. rewrite bool_decide_eq_false_2; [reflexivity|lia].
Qed.

(** C3: when the Hamiltonian has the dimension [hilbertdim()] announces, a
    request for more eigenvalues than that dimension makes [eigenvals] and
    [eigensys] raise the range error of the solver (the spec's
    DimensionError), whatever [return_spectrumdata] is, and the failed call
    leaves every attribute of the system and every array as it was. *)
Theorem eigen_count_exceeds_dimension (evals_count : nat) (w : World) :
  length (hamiltonian cls (self_dict w)) = hilbertdim cls (self_dict w) →
  hilbertdim cls (self_dict w) < evals_count →
  ∀ return_spectrumdata,
    eigenvals lapack cls evals_count return_spectrumdata w = (w, Raise ValueError_eigvals)
    ∧ eigensys lapack cls evals_count return_spectrumdata w = (w, Raise ValueError_eigvals).
Proof.
  intros Hdim Hlt b.
  unfold eigenvals, eigensys, _evals_calc, _esys_calc, bind, call_hamiltonian, lift.
  rewrite eigh_out_of_range by lia. split; reflexivity.
Qed.

(** ** The two maps over a parameter sweep *)

Lemma with_param_twice (p : string) (u v : R) (w : World) :
  with_param p v (with_param p u w) = with_param p v w.
Proof. unfold with_param. simpl. f_equal. apply insert_insert_eq. Qed.

Lemma with_param_id (p : string) (v : R) (w : World) :
  self_dict w !! p = Some v → with_param p v w = w.
Proof.
  intros E. destruct w as [d a]. unfold with_param. simpl in *.
  f_equal. by apply insert_id.
Qed.

Lemma getattr_inv (p : string) (w w' : World) (v : R) :
  getattr p w = (w', Return v) → w' = w ∧ self_dict w !! p = Some v.
Proof.
  unfold getattr. destruct (self_dict w !! p); intros E; by simplify_eq.
Qed.

Lemma py_map_cons {A B} (f : A → Py B) (x : A) (xs : list A) (w : World) :
  py_map f (x :: xs) w =
  match f x w with
  | (w1, Return y) =>
      match py_map f xs w1 with
      | (w2, Return ys) => (w2, Return (y :: ys))
      | (w2, Raise e) => (w2, Raise e)
      end
  | (w1, Raise e) => (w1, Raise e)
  end.
Proof. reflexivity. Qed.

(** Sequential map of "set the attribute, then call [g]": the outcome is the
    one of the independent point solves, and the world reached differs from
    the initial one at the swept attribute only. *)
Lemma py_map_sweep {B} (p : string) (g : Py B) (P : list R) (w : World) :
  (∀ w0, (g w0).1 = w0) →
  ∀ w1, (∀ v, with_param p v w1 = with_param p v w) →
    (py_map (λ v, bind (setattr p v) (λ _, g)) P w1).2
      = collect ((λ v, (g (with_param p v w)).2) <$> P)
    ∧ ∀ v, with_param p v (py_map (λ v, bind (setattr p v) (λ _, g)) P w1).1
           = with_param p v w.
Proof.
  intros Hg. induction P as [|x P IH]; intros w1 Hw1.
  - split; [reflexivity|exact Hw1].
  - rewrite py_map_cons.
    change (bind (setattr p x) (λ _, g) w1) with (g (with_param p x w1)).
    rewrite Hw1. specialize (Hg (with_param p x w)).
    cbn [fmap list_fmap collect].
    destruct (g (with_param p x w)) as [w2 [y|e]]; simpl in Hg; subst w2.
    + specialize (IH (with_param p x w) (λ v, with_param_twice p x v w)).
      destruct IH as [IH1 IH2].
      destruct (py_map _ P (with_param p x w)) as [w3 [ys|e]];
        simpl in *; rewrite <- IH1; split; auto.
    + split; [reflexivity|]. intros v. apply with_param_twice.
Qed.

Lemma first_raise_arrived {A} (r : list A) (order : list nat) :
  first_raise (omap (λ i, (Return <$> r) !! i) order) = None.
Proof.
  induction order as [|i order IH]; [reflexivity|].
  simpl. rewrite list_lookup_fmap. destruct (r !! i); simpl; assumption.
Qed.

Lemma pool_map_world {A B} (f : A → Py B) (xs : list A) (w : World) :
  (pool_map completion_order f xs w).1 = w.
Proof. unfold pool_map. destruct (first_raise _); reflexivity. Qed.

Lemma pool_map_Return {A B} (f : A → Py B) (xs : list A) (w : World) (r : list B) :
  (pool_map completion_order f xs w).2 = Return r
  ↔ collect ((λ x, (f x w).2) <$> xs) = Return r.
Proof.
  unfold pool_map.
  destruct (first_raise _) as [e|] eqn:E; simpl; [|reflexivity].
  split; [discriminate|]. intros Hc. apply collect_Return in Hc.
  rewrite Hc, first_raise_arrived in E. discriminate.
Qed.

Lemma target_map_sweep {B} (num_cpus : nat) (p : string) (g : Py B)
    (P : list R) (w : World) :
  (∀ w0, (g w0).1 = w0) →
  (∀ T, (get_map_method completion_order num_cpus
           (λ v, bind (setattr p v) (λ _, g)) P w).2 = Return T
        ↔ collect ((λ v, (g (with_param p v w)).2) <$> P) = Return T)
  ∧ ∀ v, with_param p v
           (get_map_method completion_order num_cpus
              (λ v, bind (setattr p v) (λ _, g)) P w).1
         = with_param p v w.
Proof.
  intros Hg. unfold get_map_method. destruct (Nat.eqb num_cpus 1).
  - destruct (py_map_sweep p g P w Hg w (λ v, eq_refl)) as [E1 E2].
    split; [|exact E2]. intros T. rewrite E1. reflexivity.
  - split.
    + intros T. rewrite pool_map_Return. reflexivity.
    + intros v. rewrite pool_map_world. reflexivity.
Qed.

Lemma fmap_eq_Forall2 {A B C} (f : A → C) (g : B → C) (l : list A) (k : list B) :
  f <$> l = g <$> k → Forall2 (λ x y, f x = g y) l k.
Proof.
  revert k. induction l as [|x l IH]; intros [|y k] E; simplify_eq/=; constructor; auto.
Qed.

(** ** The sweep, taken apart *)

(** The map phase of the sweep against the independent point solves. *)
Lemma sweep_map_phase (p : string) (n : nat) (ge : bool) (num_cpus : nat)
    (P : list R) (w : World) :
  let phase :=
    (if negb ge then
       bind (get_map_method completion_order num_cpus
               (_evals_for_paramval lapack cls p n) P)
            (λ eigenvalue_table, ret (eigenvalue_table, None))
     else
       bind (get_map_method completion_order num_cpus
               (_esys_for_paramval lapack cls p n) P)
            (λ eigensystem_mapdata,
               ret ((recast_esys_mapdata eigensystem_mapdata).1,
                    Some (recast_esys_mapdata eigensystem_mapdata).2))) w in
  (∀ tables, phase.2 = Return tables ↔ point_solves lapack cls ge p n P w = Return tables)
  ∧ ∀ v, with_param p v phase.1 = with_param p v w.
Proof.
  unfold point_solves. destruct ge; simpl.
  - destruct (target_map_sweep num_cpus p (eigensys lapack cls n false) P w
                (eigensys_world n false)) as [Hiff Hw].
    unfold _esys_for_paramval, bind at 1 3.
    destruct (get_map_method _ _ _ P w) as [w1 [mapdata|e]]; simpl in *.
    + split; [|exact Hw]. intros tables.
      rewrite (proj1 (Hiff mapdata) eq_refl). reflexivity.
    + split; [|exact Hw]. intros tables. split; [discriminate|].
      destruct (collect _) as [mapdata|e'] eqn:Ec; simpl; [|discriminate].
      destruct (Hiff mapdata) as [_ Hback]. specialize (Hback eq_refl). discriminate.
  - destruct (target_map_sweep num_cpus p (eigenvals lapack cls n false) P w
                (eigenvals_world n false)) as [Hiff Hw].
    unfold _evals_for_paramval, bind at 1 3.
    destruct (get_map_method _ _ _ P w) as [w1 [table|e]]; simpl in *.
    + split; [|exact Hw]. intros tables.
      rewrite (proj1 (Hiff table) eq_refl). reflexivity.
    + split; [|exact Hw]. intros tables. split; [discriminate|].
      destruct (collect _) as [table|e'] eqn:Ec; simpl; [|discriminate].
      destruct (Hiff table) as [_ Hback]. specialize (Hback eq_refl). discriminate.
Qed.

(** A sweep returns exactly when the attribute exists, the independent point
    solves all return, the ground subtraction and [get_initdata] return; the
    world is then the initial one again and the container holds the (possibly
    shifted) table. The worker count does not appear on the right. *)
Lemma get_spectrum_Return (p : string) (l n : nat) (sg ge : bool) (c : option nat)
    (w w' : World) (sd : SpectrumData R) :
  get_spectrum_vs_paramvals lapack NUM_CPUS completion_order cls p l n sg ge c w
    = (w', Return sd)
  ↔ ∃ (prev : R) (tables : list (list R) * option (list (list (Vector R))))
      (T' : list (list R)) (params : gmap string R),
      self_dict w !! p = Some prev
      ∧ w' = w
      ∧ point_solves lapack cls ge p n (default [] (ndarrays w !! l)) w = Return tables
      ∧ (if sg then subtract_ground_loop
                      (seq 0 (length (default [] (ndarrays w !! l)))) tables.1
                    = Return T'
         else T' = tables.1)
      ∧ (get_initdata cls w).2 = Return params
      ∧ sd = mkSpectrumData (Energies2 T') params (Some p) (Some l)
               (StatesN <$> tables.2) None None None.
Proof.
  unfold get_spectrum_vs_paramvals.
  set (P := default [] (ndarrays w !! l)).
  pose proof (sweep_map_phase p n ge (num_cpus_or_default NUM_CPUS c) P w) as Hphase.
  cbv zeta in Hphase. destruct Hphase as [Hiff Hw].
  split.
  - intros Hrun.
    apply bind_inv_Return in Hrun as (wa & prev & E & Hrun).
    apply getattr_inv in E as [-> Hprev].
    apply bind_inv_Return in Hrun as (wb & vals & E & Hrun).
    unfold read_array in E. injection E as <- <-. fold P in Hrun.
    apply bind_inv_Return in Hrun as (w1 & tables & E & Hrun).
    rewrite E in Hiff, Hw. simpl in Hiff, Hw.
    apply bind_inv_Return in Hrun as (w2 & T' & E0 & Hrun).
    assert (w2 = w1 ∧ if sg then subtract_ground_loop (seq 0 (length P)) tables.1
                                 = Return T'
                      else T' = tables.1) as [-> Hsg].
    { destruct sg.
      - apply lift_inv_Return in E0 as [-> E0]. auto.
      - unfold ret in E0. injection E0 as <- <-. auto. }
    apply bind_inv_Return in Hrun as (w3 & [] & E1 & Hrun).
    unfold setattr in E1. injection E1 as <-.
    rewrite Hw, (with_param_id _ _ _ Hprev) in Hrun.
    apply bind_inv_Return in Hrun as (w4 & params0 & E1 & Hrun).
    pose proof (get_initdata_world w) as Hw2.
    rewrite E1 in Hw2. simpl in Hw2. subst w4.
    apply bind_inv_Return in Hrun as (w5 & params & E2 & Hrun).
    pose proof (get_initdata_world w) as Hw2.
    rewrite E2 in Hw2. simpl in Hw2. subst w5.
    unfold ret in Hrun. injection Hrun as <- <-.
    exists prev, tables, T', params. rewrite E2. simpl.
    split; [exact Hprev|]. split; [reflexivity|].
    split; [by apply Hiff|]. auto.
  - intros (prev & tables & T' & params & Hprev & -> & Hpts & Hsg & Hinit & ->).
    apply Hiff in Hpts.
    erewrite bind_Return; [|unfold getattr; rewrite Hprev; reflexivity].
    erewrite bind_Return; [|reflexivity]. fold P.
    match type of Hpts with (?ph).2 = _ => destruct ph as [w1 o] eqn:E end.
    simpl in Hpts, Hw. subst o.
    erewrite bind_Return; [|exact E].
    erewrite (bind_Return _ _ w1 w1 T').
    2:{ destruct sg; [unfold lift; rewrite Hsg|unfold ret; rewrite Hsg]; reflexivity. }
    erewrite bind_Return; [|reflexivity].
    rewrite Hw, (with_param_id _ _ _ Hprev).
    pose proof (get_initdata_world w) as Hw2.
    destruct (get_initdata cls w) as [w2 o] eqn:E2. simpl in Hinit, Hw2. subst w2 o.
    erewrite bind_Return; [|exact E2].
    erewrite bind_Return; [|exact E2].
    reflexivity.
Qed.

Lemma collect_Forall2 {A B} (f : A → Outcome B) (l : list A) (r : list B) :
  collect (f <$> l) = Return r → Forall2 (λ x y, f x = Return y) l r.
Proof. intros E. by apply collect_Return, fmap_eq_Forall2 in E. Qed.

(** A sweep that returns: the attribute existed, the map produced the
    independent point solves in input order, the world is the initial one
    again, and the container holds the (possibly shifted) table. *)
Lemma get_spectrum_inv (p : string) (l n : nat) (sg ge : bool) (c : option nat)
    (w w' : World) (sd : SpectrumData R) :
  get_spectrum_vs_paramvals lapack NUM_CPUS completion_order cls p l n sg ge c w
    = (w', Return sd) →
  ∃ (prev : R) (T T' : list (list R)) (St : option (list (list (Vector R))))
    (params : gmap string R),
    self_dict w !! p = Some prev
    ∧ w' = w
    ∧ Forall2 (λ v row, energies_at lapack cls ge p n v w = Return row)
        (default [] (ndarrays w !! l)) T
    ∧ match St with
      | None => ge = false
      | Some S' =>
          ge = true
          ∧ Forall2 (λ v evs, eigenvectors_at lapack cls p n v w = Return evs)
              (default [] (ndarrays w !! l)) S'
      end
    ∧ (if sg then subtract_ground_loop (seq 0 (length (default [] (ndarrays w !! l)))) T
                  = Return T'
       else T' = T)
    ∧ (get_initdata cls w).2 = Return params
    ∧ sd = mkSpectrumData (Energies2 T') params (Some p) (Some l) (StatesN <$> St)
             None None None.
Proof.
  intros Hrun. apply get_spectrum_Return in Hrun
    as (prev & tables & T' & params & Hprev & -> & Hpts & Hsg & Hinit & ->).
  exists prev, tables.1, T', tables.2, params.
  split; [exact Hprev|]. split; [reflexivity|].
  split; [|split]; [| |auto].
  - unfold point_solves in Hpts. destruct ge;
      apply out_bind_inv_Return in Hpts as (a & Hc & Ht);
      injection Ht as <-; apply collect_Forall2 in Hc; simpl.
    + apply Forall2_fmap_r. eapply Forall2_impl; [exact Hc|].
      intros v m Hm. unfold energies_at. simpl. rewrite Hm. reflexivity.
    + exact Hc.
  - unfold point_solves in Hpts. destruct ge;
      apply out_bind_inv_Return in Hpts as (a & Hc & Ht);
      injection Ht as <-; apply collect_Forall2 in Hc; simpl; [|reflexivity].
    split; [reflexivity|].
    apply Forall2_fmap_r. eapply Forall2_impl; [exact Hc|].
    intros v m Hm. unfold eigenvectors_at. rewrite Hm. reflexivity.
Qed.

(** ** Ascending rows *)

Lemma _evals_calc_ascending (n : nat) (w w' : World) (evals : list R) :
  _evals_calc lapack cls n w = (w', Return evals) → ascending evals.
Proof.
  unfold _evals_calc, bind, call_hamiltonian, lift.
  destruct (eigh _ _ _ _); intros E; [|discriminate].
  unfold ret in E. injection E as <- <-. apply np_sort_ascending.
Qed.

Lemma _esys_calc_ascending (n : nat) (w w' : World) (esys : list R * list (Vector R)) :
  _esys_calc lapack cls n w = (w', Return esys) → ascending esys.1.
Proof.
  unfold _esys_calc, bind, call_hamiltonian, lift.
  destruct (eigh _ _ _ _); intros E; [|discriminate].
  unfold ret in E. injection E as <- <-. apply order_eigensystem_ascending.
Qed.

Lemma energies_at_ascending (ge : bool) (p : string) (n : nat) (v : R) (w : World)
    (row : list R) :
  energies_at lapack cls ge p n v w = Return row → ascending row.
Proof.
  unfold energies_at. destruct ge.
  - rewrite eigensys_false.
    destruct (_esys_calc lapack cls n (with_param p v w)) as [w1 [esys|e]] eqn:E;
      simpl; intros E'; [|discriminate].
    injection E' as <-. eapply _esys_calc_ascending. exact E.
  - rewrite eigenvals_false.
    destruct (_evals_calc lapack cls n (with_param p v w)) as [w1 [evals|e]] eqn:E;
      simpl; intros E'; [|discriminate].
    injection E' as <-. eapply _evals_calc_ascending. exact E.
Qed.

Lemma subtract_ground_row_ascending (row row' : list R) :
  ascending row → subtract_ground_row row = Return row' → ascending row'.
Proof.
  destruct row as [|ground row]; simpl; intros Hrow E; [discriminate|].
  injection E as <-. apply (ascending_shift (ground :: row) ground Hrow).
Qed.

Lemma subtract_ground_loop_ascending (indices : list nat) (T T' : list (list R)) :
  Forall ascending T → subtract_ground_loop indices T = Return T' → Forall ascending T'.
Proof.
  revert T. induction indices as [|i indices IH]; intros T HT; simpl.
  - intros E. by injection E as <-.
  - destruct (T !! i) as [row|] eqn:Ei; [|discriminate].
    destruct (subtract_ground_row row) as [row'|e] eqn:Er; simpl; [|discriminate].
    apply IH. apply Forall_insert; [assumption|].
    eapply subtract_ground_row_ascending; [|exact Er].
    eapply Forall_lookup_1; eassumption.
Qed.

(** C4: every energy table of the single-point solves [eigenvals] and
    [eigensys] (as an array or inside a SpectrumData) and every row of the
    table of [get_spectrum_vs_paramvals] is non-decreasing by level index. *)
Theorem energy_tables_ascending :
  (∀ n w w' evals,
      eigenvals lapack cls n false w = (w', Return evals) → ascending evals)
  ∧ (∀ n w w' sd,
      eigenvals lapack cls n true w = (w', Return sd) →
      ∃ evals, energy_table sd = Energies1 evals ∧ ascending evals)
  ∧ (∀ n w w' esys,
      eigensys lapack cls n false w = (w', Return esys) → ascending esys.1)
  ∧ (∀ n w w' sd,
      eigensys lapack cls n true w = (w', Return sd) →
      ∃ evals, energy_table sd = Energies1 evals ∧ ascending evals)
  ∧ (∀ param_name param_vals n subtract_ground get_eigenstates num_cpus w w' sd,
      get_spectrum_vs_paramvals lapack NUM_CPUS completion_order cls param_name
        param_vals n subtract_ground get_eigenstates num_cpus w = (w', Return sd) →
      ∃ table, energy_table sd = Energies2 table ∧ Forall ascending table).
Proof.
  repeat split.
  - intros n w w' evals. rewrite eigenvals_false. apply _evals_calc_ascending.
  - intros n w w' sd Hrun. unfold eigenvals in Hrun.
    apply bind_inv_Return in Hrun as (w1 & evals & E & Hrun).
    apply bind_inv_Return in Hrun as (w2 & params & E' & Hrun).
    unfold ret in Hrun. injection Hrun as <- <-.
    exists evals. split; [reflexivity|]. eapply _evals_calc_ascending, E.
  - intros n w w' esys. rewrite eigensys_false. apply _esys_calc_ascending.
  - intros n w w' sd Hrun. unfold eigensys in Hrun.
    apply bind_inv_Return in Hrun as (w1 & esys & E & Hrun).
    apply bind_inv_Return in Hrun as (w2 & params & E' & Hrun).
    unfold ret in Hrun. injection Hrun as <- <-.
    exists esys.1. split; [reflexivity|]. eapply _esys_calc_ascending, E.
  - intros p l n sg ge c w w' sd Hrun.
    apply get_spectrum_inv in Hrun
      as (prev & T & T' & St & params & _ & _ & HT & _ & Hsg & _ & ->).
    exists T'. split; [reflexivity|].
    assert (Forall ascending T) as HTasc.
    { clear Hsg. induction HT; constructor; eauto using energies_at_ascending. }
    destruct sg; [|by subst].
    eapply subtract_ground_loop_ascending; eassumption.
Qed.

(** ** Invariants of the world along a computation *)

Lemma bind_frame {A B} (I : World → Prop) (m : Py A) (k : A → Py B) :
  (∀ w, I w → I (m w).1) → (∀ a w, I w → I (k a w).1) →
  ∀ w, I w → I (bind m k w).1.
Proof.
  intros Hm Hk w Hw. unfold bind. specialize (Hm w Hw).
  destruct (m w) as [w1 [a|e]]; simpl in *; auto.
Qed.

Lemma py_map_frame {A B} (I : World → Prop) (f : A → Py B) (xs : list A) :
  (∀ x w, I w → I (f x w).1) → ∀ w, I w → I (py_map f xs w).1.
Proof.
  intros Hf. induction xs as [|x xs IH]; intros w Hw; [exact Hw|].
  rewrite py_map_cons. specialize (Hf x w Hw).
  destruct (f x w) as [w1 [y|e]]; simpl in *; [|assumption].
  specialize (IH w1 Hf). destruct (py_map f xs w1) as [w2 [ys|e]]; assumption.
Qed.

Lemma get_map_method_frame {A B} (I : World → Prop) (num_cpus : nat)
    (f : A → Py B) (xs : list A) :
  (∀ x w, I w → I (f x w).1) →
  ∀ w, I w → I (get_map_method completion_order num_cpus f xs w).1.
Proof.
  intros Hf w Hw. unfold get_map_method. destruct (Nat.eqb num_cpus 1).
  - by apply py_map_frame.
  - by rewrite pool_map_world.
Qed.

(** Worlds that agree on the arrays and on every attribute but [dn] and [pn]. *)
Lemma agree_with_param (dn pn name : string) (v : R) (w w1 : World) :
  name = dn ∨ name = pn →
  (ndarrays w1 = ndarrays w
   ∧ ∀ k, k ≠ dn → k ≠ pn → self_dict w1 !! k = self_dict w !! k) →
  ndarrays (with_param name v w1) = ndarrays w
  ∧ ∀ k, k ≠ dn → k ≠ pn → self_dict (with_param name v w1) !! k = self_dict w !! k.
Proof.
  intros Hname [Ha Hd]. split; [exact Ha|].
  intros k Hk1 Hk2. simpl. rewrite lookup_insert_ne; [auto|].
  destruct Hname; congruence.
Qed.

Lemma agree_restore (dn pn : string) (pd pp : R) (w w1 : World) :
  self_dict w !! dn = Some pd → self_dict w !! pn = Some pp →
  (ndarrays w1 = ndarrays w
   ∧ ∀ k, k ≠ dn → k ≠ pn → self_dict w1 !! k = self_dict w !! k) →
  with_param dn pd (with_param pn pp w1) = w.
Proof.
  intros Hd Hp [Ha Hk]. destruct w as [d a], w1 as [d1 a1].
  unfold with_param. simpl in *. subst a1. f_equal.
  apply map_eq. intros k. rewrite !lookup_insert.
  repeat case_decide; subst; try congruence. apply Hk; congruence.
Qed.

Lemma ParameterSweep_frame (dn pn : string) (disp_vals sweep_vals : list R)
    (n : nat) (c : option nat) (w w1 : World) :
  (ndarrays w1 = ndarrays w
   ∧ ∀ k, k ≠ dn → k ≠ pn → self_dict w1 !! k = self_dict w !! k) →
  let w2 := (ParameterSweep_bare_evals lapack NUM_CPUS completion_order cls
               (λ disp_val sweep_val,
                  bind (setattr dn disp_val) (λ _, setattr pn sweep_val))
               disp_vals sweep_vals n c w1).1 in
  ndarrays w2 = ndarrays w
  ∧ ∀ k, k ≠ dn → k ≠ pn → self_dict w2 !! k = self_dict w !! k.
Proof.
  intros Hw1. unfold ParameterSweep_bare_evals.
  apply (get_map_method_frame
           (λ w0, ndarrays w0 = ndarrays w
                  ∧ ∀ k, k ≠ dn → k ≠ pn → self_dict w0 !! k = self_dict w !! k));
    [|exact Hw1].
  intros d w0 Hw0. apply py_map_frame; [|exact Hw0].
  clear w0 Hw0. intros sv w0 Hw0.
  change (bind (bind (setattr dn d) (λ _, setattr pn sv))
            (λ _, eigenvals lapack cls n false) w0)
    with (eigenvals lapack cls n false (with_param pn sv (with_param dn d w0))).
  cbv beta.
  match goal with
  | |- context [fst ?x] =>
      replace (fst x) with (with_param pn sv (with_param dn d w0))
        by (symmetry; apply (eigenvals_world n false))
  end.
  apply agree_with_param; [auto|]. apply agree_with_param; auto.
Qed.

Lemma py_map_length {A B} (f : A → Py B) (xs : list A) (w w' : World) (ys : list B) :
  py_map f xs w = (w', Return ys) → length ys = length xs.
Proof.
  revert w ys. induction xs as [|x xs IH]; intros w ys.
  - intros E. by injection E as <- <-.
  - rewrite py_map_cons. destruct (f x w) as [w1 [y|e]]; [|discriminate].
    destruct (py_map f xs w1) as [w2 [ys'|e]] eqn:E; [|discriminate].
    intros E'. injection E' as <- <-. simpl. f_equal. eapply IH, E.
Qed.

Lemma get_map_method_length {A B} (num_cpus : nat) (f : A → Py B) (xs : list A)
    (w w' : World) (ys : list B) :
  get_map_method completion_order num_cpus f xs w = (w', Return ys) →
  length ys = length xs.
Proof.
  unfold get_map_method. destruct (Nat.eqb num_cpus 1).
  - apply py_map_length.
  - intros E. assert ((pool_map completion_order f xs w).2 = Return ys) as E'
      by (rewrite E; reflexivity).
    apply pool_map_Return, collect_Forall2, Forall2_length in E'. by symmetry.
Qed.

Lemma linspace01_length (num : nat) : length (linspace01 (R:=R) num) = num.
Proof.
  destruct num as [|[|k]]; [reflexivity..|].
  unfold linspace01. rewrite length_fmap, length_seq. reflexivity.
Qed.

(** ** The dispersion computation, taken apart *)

(** A dispersion computation that returns: both attributes existed, the
    world is the initial one again, and the dispersions are the ones computed
    from the returned energy cube. *)
Lemma _compute_dispersion_inv (dn pn : string) (l : nat) (t : Transitions)
    (lv : option Levels) (pc : nat) (c : option nat) (w w' : World)
    (r : list (list (list R)) * list (list R)) :
  _compute_dispersion lapack NUM_CPUS completion_order cls dn pn l t lv pc c w
    = (w', Return r) →
  w' = w
  ∧ is_Some (self_dict w !! dn) ∧ is_Some (self_dict w !! pn)
  ∧ length r.1 = pc
  ∧ match lv with
    | None =>
        match t with
        | SingleTransition _ _ => False
        | TransitionSeq ts =>
            collect ((λ t, dispersion_row (transition_samples r.1 t.1 t.2)
                             (length (default [] (ndarrays w !! l)))) <$> ts)
            = Return r.2
        end
    | Some (SingleLevel _) => False
    | Some (LevelSeq ls) =>
        collect ((λ j, dispersion_row (level_samples r.1 j)
                         (length (default [] (ndarrays w !! l)))) <$> ls)
        = Return r.2
    end.
Proof.
  unfold _compute_dispersion. intros Hrun.
  apply bind_inv_Return in Hrun as (wa & vals & E & Hrun).
  unfold read_array in E. injection E as <- <-.
  set (P := default [] (ndarrays w !! l)) in *.
  apply bind_inv_Return in Hrun as (wb & pd & E & Hrun).
  apply getattr_inv in E as [-> Hpd].
  apply bind_inv_Return in Hrun as (wb & pp & E & Hrun).
  apply getattr_inv in E as [-> Hpp].
  apply bind_inv_Return in Hrun as (wb & max_level & E & Hrun).
  apply lift_inv_Return in E as [-> _].
  apply bind_inv_Return in Hrun as (w1 & cube & E & Hrun).
  pose proof (ParameterSweep_frame dn pn (linspace01 pc) P (max_level + 1) c w w
                (conj eq_refl (λ k _ _, eq_refl))) as Hframe.
  simpl in Hframe. rewrite E in Hframe. simpl in Hframe.
  apply bind_inv_Return in Hrun as (w2 & disp & E' & Hrun).
  apply lift_inv_Return in E' as [-> Hdisp].
  change ((with_param dn pd (with_param pn pp w1), Return (cube, disp)) = (w', Return r))
    in Hrun.
  injection Hrun as <- <-. simpl.
  split; [by apply agree_restore|]. split; [by eexists|]. split; [by eexists|].
  split.
  { unfold ParameterSweep_bare_evals in E.
    apply get_map_method_length in E. rewrite E. apply linspace01_length. }
  destruct lv as [[?|ls]|]; [discriminate|exact Hdisp|].
  destruct t; [discriminate|exact Hdisp].
Qed.

(** Worlds that agree with [w] on the arrays and on every attribute but
    [dn] and [pn] are the same world once both attributes are set. *)
Lemma agree_set_both (dn pn : string) (dv sv : R) (w w1 : World) :
  (ndarrays w1 = ndarrays w
   ∧ ∀ k, k ≠ dn → k ≠ pn → self_dict w1 !! k = self_dict w !! k) →
  with_param pn sv (with_param dn dv w1) = with_param pn sv (with_param dn dv w).
Proof.
  intros [Ha Hk]. destruct w as [d a], w1 as [d1 a1].
  unfold with_param. simpl in *. subst a1. f_equal.
  apply map_eq. intros k. rewrite !lookup_insert.
  repeat case_decide; subst; try congruence. apply Hk; congruence.
Qed.

(** A sequential map whose calls do not see the difference between the
    worlds it passes through yields the outcomes of the calls on [w]. *)
Lemma py_map_agree {A B} (I : World → Prop) (f : A → Py B) (w : World) (xs : list A) :
  (∀ x w1, I w1 → (f x w1).2 = (f x w).2 ∧ I (f x w1).1) →
  ∀ w1, I w1 →
    (py_map f xs w1).2 = collect ((λ x, (f x w).2) <$> xs) ∧ I (py_map f xs w1).1.
Proof.
  intros Hf. induction xs as [|x xs IH]; intros w1 Hw1.
  - split; [reflexivity|exact Hw1].
  - rewrite py_map_cons. destruct (Hf x w1 Hw1) as [E1 E2].
    cbn [fmap list_fmap collect]. rewrite <- E1.
    destruct (f x w1) as [w2 [y|e]]; simpl in *; [|split; auto].
    destruct (IH w2 E2) as [E3 E4]. rewrite <- E3.
    destruct (py_map f xs w2) as [w3 [ys|e]]; simpl in *; split; auto.
Qed.

(** The energy cube: the plane of induced sample [dv] holds, at the swept
    value [sv], the eigenvalues of the solve with both attributes set, under
    every worker count. *)
Lemma ParameterSweep_cells (dn pn : string) (disp_vals sweep_vals : list R)
    (n : nat) (c : option nat) (w w1 : World) (cube : list (list (list R))) :
  ParameterSweep_bare_evals lapack NUM_CPUS completion_order cls
    (λ disp_val sweep_val, bind (setattr dn disp_val) (λ _, setattr pn sweep_val))
    disp_vals sweep_vals n c w = (w1, Return cube) →
  Forall2 (λ dv plane,
             Forall2 (λ sv row,
                        (eigenvals lapack cls n false
                           (with_param pn sv (with_param dn dv w))).2 = Return row)
                     sweep_vals plane)
          disp_vals cube.
Proof.
  unfold ParameterSweep_bare_evals.
  set (I := λ w0 : World, ndarrays w0 = ndarrays w
                          ∧ ∀ k, k ≠ dn → k ≠ pn → self_dict w0 !! k = self_dict w !! k).
  set (cell := λ (dv sv : R) (w0 : World),
                 (eigenvals lapack cls n false
                    (with_param pn sv (with_param dn dv w0)))).
  set (f := λ dv : R,
              py_map (λ sv, bind (bind (setattr dn dv) (λ _, setattr pn sv))
                              (λ _, eigenvals lapack cls n false)) sweep_vals).
  assert (HI : I w) by (split; auto).
  assert (Hcell : ∀ dv sv w0, I w0 →
             (cell dv sv w0).2 = (cell dv sv w).2 ∧ I (cell dv sv w0).1).
  { intros dv sv w0 Hw0. unfold cell.
    rewrite (agree_set_both dn pn dv sv w w0 Hw0). split; [reflexivity|].
    rewrite (eigenvals_world n false).
    apply agree_with_param; [auto|]. apply agree_with_param; auto. }
  assert (Hinner : ∀ dv w0, I w0 →
             (f dv w0).2 = collect ((λ sv, (cell dv sv w).2) <$> sweep_vals)
             ∧ I (f dv w0).1).
  { intros dv w0 Hw0. exact (py_map_agree I (cell dv) w sweep_vals (Hcell dv) w0 Hw0). }
  assert (Houter : ∀ dv w0, I w0 → (f dv w0).2 = (f dv w).2 ∧ I (f dv w0).1).
  { intros dv w0 Hw0. destruct (Hinner dv w0 Hw0) as [E1 E2].
    destruct (Hinner dv w HI) as [E3 _]. rewrite E1, E3. auto. }
  intros Hrun.
  assert (collect ((λ dv, (f dv w).2) <$> disp_vals) = Return cube) as Hplanes.
  { unfold get_map_method in Hrun.
    destruct (Nat.eqb (num_cpus_or_default NUM_CPUS c) 1).
    - destruct (py_map_agree I f w disp_vals Houter w HI) as [E _].
      rewrite <- E. fold f in Hrun. rewrite Hrun. reflexivity.
    - apply pool_map_Return. fold f in Hrun. rewrite Hrun. reflexivity. }
  apply collect_Forall2 in Hplanes.
  eapply Forall2_impl; [exact Hplanes|].
  intros dv plane Hplane. cbv beta in Hplane.
  destruct (Hinner dv w HI) as [E _]. rewrite E in Hplane.
  apply collect_Forall2 in Hplane. exact Hplane.
Qed.

Lemma _compute_dispersion_cube (dn pn : string) (l : nat) (t : Transitions)
    (lv : option Levels) (pc : nat) (c : option nat) (w w' : World)
    (r : list (list (list R)) * list (list R)) :
  _compute_dispersion lapack NUM_CPUS completion_order cls dn pn l t lv pc c w
    = (w', Return r) →
  ∃ evals_count,
    Forall2 (λ dv plane,
               Forall2 (λ sv row,
                          (eigenvals lapack cls evals_count false
                             (with_param pn sv (with_param dn dv w))).2 = Return row)
                       (default [] (ndarrays w !! l)) plane)
            (linspace01 pc) r.1.
Proof.
  unfold _compute_dispersion. intros Hrun.
  apply bind_inv_Return in Hrun as (wa & vals & E & Hrun).
  unfold read_array in E. injection E as <- <-.
  apply bind_inv_Return in Hrun as (wb & pd & E & Hrun).
  apply getattr_inv in E as [-> Hpd].
  apply bind_inv_Return in Hrun as (wb & pp & E & Hrun).
  apply getattr_inv in E as [-> Hpp].
  apply bind_inv_Return in Hrun as (wb & max_level & E & Hrun).
  apply lift_inv_Return in E as [-> _].
  apply bind_inv_Return in Hrun as (w1 & cube & E & Hrun).
  apply ParameterSweep_cells in E.
  apply bind_inv_Return in Hrun as (w2 & disp & E' & Hrun).
  apply lift_inv_Return in E' as [-> Hdisp].
  change ((with_param dn pd (with_param pn pp w1), Return (cube, disp)) = (w', Return r))
    in Hrun.
  injection Hrun as <- <-. exists (max_level + 1). exact E.
Qed.

(** A dispersion call that returns: the labels were normalised, the
    computation returned on the initial world and left it as it was, and the
    only change to the world is the division of the caller's array when a
    reference parameter is given. *)
Lemma get_dispersion_inv (dn pn : string) (l : nat) (ref : option string)
    (t : Transitions) (lv : option Levels) (pc : nat) (c : option nat)
    (w w' : World) (sd : SpectrumData R) :
  get_dispersion_vs_paramvals lapack NUM_CPUS completion_order cls dn pn l ref t lv pc c w
    = (w', Return sd) →
  ∃ t' lv' r params,
    normalize_labels t lv = Return (t', lv')
    ∧ _compute_dispersion lapack NUM_CPUS completion_order cls dn pn l t' lv' pc c w
      = (w, Return r)
    ∧ (get_initdata cls w').2 = Return params
    ∧ match ref with
      | None =>
          w' = w
          ∧ sd = mkSpectrumData (Energies3 r.1) params (Some pn) (Some l) None None
                   (Some (labels_of t' lv'))
                   (Some (transpose2 (length r.2)
                            (length (default [] (ndarrays w !! l))) r.2))
      | Some rp =>
          ∃ rv, self_dict w !! rp = Some rv
            ∧ w' = mkWorld (self_dict w)
                     (<[l:=(λ v, rdiv v rv) <$> default [] (ndarrays w !! l)]>
                        (ndarrays w))
            ∧ sd = mkSpectrumData (Energies3 r.1) params (Some (pn +:+ "/" +:+ rp))
                     (Some l) None None (Some (labels_of t' lv'))
                     (Some (transpose2 (length r.2)
                              (length (default [] (ndarrays w !! l))) r.2))
      end.
Proof.
  unfold get_dispersion_vs_paramvals. intros Hrun.
  apply bind_inv_Return in Hrun as (wa & [t' lv'] & E & Hrun).
  apply lift_inv_Return in E as [-> Hnorm]. simpl in Hrun.
  apply bind_inv_Return in Hrun as (w1 & r & Hcomp & Hrun).
  pose proof (_compute_dispersion_inv _ _ _ _ _ _ _ _ _ _ Hcomp) as [-> _].
  apply bind_inv_Return in Hrun as (w2 & name & Hname & Hrun).
  apply bind_inv_Return in Hrun as (w3 & params & Hinit & Hrun).
  pose proof (get_initdata_world w2) as Hw3. rewrite Hinit in Hw3. simpl in Hw3. subst w3.
  apply bind_inv_Return in Hrun as (w4 & vals & E & Hrun).
  unfold read_array in E. injection E as <- <-.
  unfold ret in Hrun. injection Hrun as <- <-.
  exists t', lv', r, params. rewrite Hinit.
  split; [exact Hnorm|]. split; [exact Hcomp|]. split; [reflexivity|].
  destruct ref as [rp|].
  - apply bind_inv_Return in Hname as (wb & rv & E & Hname).
    apply getattr_inv in E as [-> Hrv].
    apply bind_inv_Return in Hname as (wb & vals & E & Hname).
    unfold read_array in E. injection E as <- <-.
    apply bind_inv_Return in Hname as (wb & [] & E & Hname).
    unfold write_array in E. injection E as <-.
    unfold ret in Hname. injection Hname as <- <-.
    exists rv. split; [exact Hrv|]. split; [reflexivity|].
    simpl. rewrite lookup_insert_eq. simpl. rewrite length_fmap. reflexivity.
  - unfold ret in Hname. injection Hname as <- <-. auto.
Qed.

(** C1: a sweep ([get_spectrum_vs_paramvals]) or a dispersion call
    ([_compute_dispersion], [get_dispersion_vs_paramvals]) that returns
    normally leaves every attribute of the system, the swept ones included,
    at its value from before the call. *)
Theorem restored_on_return :
  (∀ param_name param_vals n subtract_ground get_eigenstates num_cpus w w' sd,
      get_spectrum_vs_paramvals lapack NUM_CPUS completion_order cls param_name
        param_vals n subtract_ground get_eigenstates num_cpus w = (w', Return sd) →
      self_dict w' = self_dict w
      ∧ self_dict w' !! param_name = self_dict w !! param_name)
  ∧ (∀ dispersion_name param_name param_vals transitions levels point_count num_cpus
       w w' r,
      _compute_dispersion lapack NUM_CPUS completion_order cls dispersion_name
        param_name param_vals transitions levels point_count num_cpus w
        = (w', Return r) →
      self_dict w' = self_dict w
      ∧ self_dict w' !! param_name = self_dict w !! param_name
      ∧ self_dict w' !! dispersion_name = self_dict w !! dispersion_name)
  ∧ (∀ dispersion_name param_name param_vals ref_param transitions levels point_count
       num_cpus w w' sd,
      get_dispersion_vs_paramvals lapack NUM_CPUS completion_order cls dispersion_name
        param_name param_vals ref_param transitions levels point_count num_cpus w
        = (w', Return sd) →
      self_dict w' = self_dict w
      ∧ self_dict w' !! param_name = self_dict w !! param_name
      ∧ self_dict w' !! dispersion_name = self_dict w !! dispersion_name).
Proof.
  assert (Hall : ∀ (w w' : World) (a b : string),
             self_dict w' = self_dict w →
             self_dict w' = self_dict w
             ∧ self_dict w' !! a = self_dict w !! a
             ∧ self_dict w' !! b = self_dict w !! b).
  { intros w w' a b ->. auto. }
  split; [|split].
  - intros p l n sg ge c w w' sd Hrun.
    apply get_spectrum_inv in Hrun as (? & ? & ? & ? & ? & _ & -> & _). auto.
  - intros dn pn l t lv pc c w w' r Hrun.
    apply _compute_dispersion_inv in Hrun as [-> _]. auto.
  - intros dn pn l ref t lv pc c w w' sd Hrun. apply Hall.
    apply get_dispersion_inv in Hrun as (t' & lv' & r & params & _ & _ & _ & Href).
    destruct ref as [rp|].
    + destruct Href as (rv & _ & -> & _). reflexivity.
    + destruct Href as [-> _]. reflexivity.
Qed.

(** ** Ground subtraction *)

Lemma rsub_diag (x : R) : rsub x x = rzero.
Proof.
  rewrite (Rsub_def real_ring). apply (Ropp_def real_ring).
Qed.

(** The in-place loop over the indices of the table shifts every row by its
    own first entry. *)
Lemma subtract_ground_loop_seq (rest pre T' : list (list R)) :
  subtract_ground_loop (seq (length pre) (length rest)) (pre ++ rest) = Return T' →
  ∃ rest', T' = pre ++ rest'
    ∧ Forall2 (λ row row', subtract_ground_row row = Return row') rest rest'.
Proof.
  revert pre. induction rest as [|row rest IH]; intros pre; simpl.
  - intros E. injection E as <-. exists []. split; [reflexivity|constructor].
  - rewrite list_lookup_middle by reflexivity.
    destruct (subtract_ground_row row) as [row'|e] eqn:Er; simpl; [|discriminate].
    rewrite (insert_app_r_alt pre (row :: rest) (length pre)) by lia.
    rewrite Nat.sub_diag. cbn [insert list_insert].
    replace (pre ++ row' :: rest) with ((pre ++ [row']) ++ rest)
      by (rewrite <- app_assoc; reflexivity).
    replace (S (length pre)) with (length (pre ++ [row']))
      by (rewrite length_app; simpl; lia).
    intros E. apply IH in E as (rest' & -> & Hrest).
    exists (row' :: rest'). split.
    + rewrite <- app_assoc. reflexivity.
    + constructor; assumption.
Qed.

(** C5: after a sweep with [subtract_ground=True], every row of the table
    starts with exactly zero, and every entry is the entry of the solve at
    that parameter point minus the lowest energy of that solve. *)
Theorem ground_subtracted (param_name : string) (param_vals n : nat)
    (get_eigenstates : bool) (num_cpus : option nat)
    (w w' : World) (sd : SpectrumData R) (P : list R) :
  ndarrays w !! param_vals = Some P →
  get_spectrum_vs_paramvals lapack NUM_CPUS completion_order cls param_name
    param_vals n true get_eigenstates num_cpus w = (w', Return sd) →
  ∃ table, energy_table sd = Energies2 table
    ∧ length table = length P
    ∧ ∀ i v, P !! i = Some v →
        ∃ original ground row,
          energies_at lapack cls get_eigenstates param_name n v w = Return original
          ∧ original !! 0 = Some ground
          ∧ (∀ k e, original !! k = Some e → rle ground e)
          ∧ table !! i = Some row
          ∧ row !! 0 = Some rzero
          ∧ length row = length original
          ∧ ∀ k e, original !! k = Some e → row !! k = Some (rsub e ground).
Proof.
  intros HP Hrun.
  apply get_spectrum_inv in Hrun
    as (prev & T & T' & St & params & _ & _ & HT & _ & Hsg & _ & ->).
  rewrite HP in HT, Hsg. simpl in HT, Hsg.
  rewrite (Forall2_length _ _ _ HT) in Hsg.
  apply (subtract_ground_loop_seq T []) in Hsg as (T'' & -> & Hrows). simpl.
  exists T''. split; [reflexivity|]. split.
  - rewrite <- (Forall2_length _ _ _ Hrows). symmetry. eapply Forall2_length, HT.
  - intros i v Hv.
    destruct (Forall2_lookup_l _ _ _ _ _ HT Hv) as (original & Horig & Hsolve).
    destruct (Forall2_lookup_l _ _ _ _ _ Hrows Horig) as (row & Hrow & Hshift).
    destruct original as [|ground original]; [discriminate|].
    simpl in Hshift. injection Hshift as <-.
    exists (ground :: original), ground, ((λ e, rsub e ground) <$> (ground :: original)).
    split; [exact Hsolve|]. split; [reflexivity|]. split.
    { intros k e Hk. apply energies_at_ascending in Hsolve.
      apply (Hsolve 0 k ground e); [lia|reflexivity|exact Hk]. }
    split; [exact Hrow|]. split.
    { simpl. f_equal. apply rsub_diag. }
    split; [apply length_fmap|].
    intros k e Hk. rewrite list_lookup_fmap, Hk. reflexivity.
Qed.

(** ** Maximum, minimum and spread *)

Lemma rmax_cases (a y : R) : (rmax a y = a ∨ rmax a y = y) ∧ rle a (rmax a y) ∧ rle y (rmax a y).
Proof.
  unfold rmax, rle. destruct (rleb a y) eqn:E.
  - split; [auto|]. split; [exact E|apply rle_refl].
  - split; [auto|]. split; [apply rle_refl|].
    destruct (rleb_total a y) as [E'|E']; [congruence|exact E'].
Qed.

Lemma rmin_cases (a y : R) : (rmin a y = a ∨ rmin a y = y) ∧ rle (rmin a y) a ∧ rle (rmin a y) y.
Proof.
  unfold rmin, rle. destruct (rleb a y) eqn:E.
  - split; [auto|]. split; [apply rle_refl|exact E].
  - split; [auto|]. split; [|apply rle_refl].
    destruct (rleb_total a y) as [E'|E']; [congruence|exact E'].
Qed.

Lemma foldl_rmax_spec (l : list R) (a : R) :
  (foldl rmax a l = a ∨ foldl rmax a l ∈ l)
  ∧ rle a (foldl rmax a l)
  ∧ ∀ x, x ∈ l → rle x (foldl rmax a l).
Proof.
  revert a. induction l as [|y l IH]; intros a; simpl.
  - split; [auto|]. split; [apply rle_refl|]. intros x Hx. by apply elem_of_nil in Hx.
  - destruct (IH (rmax a y)) as (Hin & Hle & Hall).
    destruct (rmax_cases a y) as (Hc & Ha & Hy).
    split; [|split].
    + destruct Hin as [E|Hin]; [|right; by constructor].
      rewrite E. destruct Hc as [->| ->]; [auto|right; constructor].
    + eapply rle_trans; eassumption.
    + intros x Hx. apply elem_of_cons in Hx as [->|Hx]; [|auto].
      eapply rle_trans; eassumption.
Qed.

Lemma foldl_rmin_spec (l : list R) (a : R) :
  (foldl rmin a l = a ∨ foldl rmin a l ∈ l)
  ∧ rle (foldl rmin a l) a
  ∧ ∀ x, x ∈ l → rle (foldl rmin a l) x.
Proof.
  revert a. induction l as [|y l IH]; intros a; simpl.
  - split; [auto|]. split; [apply rle_refl|]. intros x Hx. by apply elem_of_nil in Hx.
  - destruct (IH (rmin a y)) as (Hin & Hle & Hall).
    destruct (rmin_cases a y) as (Hc & Ha & Hy).
    split; [|split].
    + destruct Hin as [E|Hin]; [|right; by constructor].
      rewrite E. destruct Hc as [->| ->]; [auto|right; constructor].
    + eapply rle_trans; eassumption.
    + intros x Hx. apply elem_of_cons in Hx as [->|Hx]; [|auto].
      eapply rle_trans; eassumption.
Qed.

Lemma np_max_spec (l : list R) (hi : R) :
  np_max l = Return hi → hi ∈ l ∧ ∀ x, x ∈ l → rle x hi.
Proof.
  destruct l as [|a l]; simpl; intros E; [discriminate|]. injection E as <-.
  destruct (foldl_rmax_spec l a) as (Hin & Hle & Hall). split.
  - destruct Hin as [->|Hin]; by constructor.
  - intros x Hx. apply elem_of_cons in Hx as [->|Hx]; auto.
Qed.

Lemma np_min_spec (l : list R) (lo : R) :
  np_min l = Return lo → lo ∈ l ∧ ∀ x, x ∈ l → rle lo x.
Proof.
  destruct l as [|a l]; simpl; intros E; [discriminate|]. injection E as <-.
  destruct (foldl_rmin_spec l a) as (Hin & Hle & Hall). split.
  - destruct Hin as [->|Hin]; by constructor.
  - intros x Hx. apply elem_of_cons in Hx as [->|Hx]; auto.
Qed.

Lemma samples_lookup (count : nat) (sample : nat → Outcome R) (samples : list R) :
  collect (sample <$> seq 0 count) = Return samples →
  length samples = count
  ∧ ∀ d x, samples !! d = Some x ↔ d < count ∧ sample d = Return x.
Proof.
  intros E. apply collect_Forall2 in E.
  pose proof (Forall2_length _ _ _ E) as Hlen. rewrite length_seq in Hlen.
  split; [by symmetry|]. intros d x. split.
  - intros Hx. destruct (Forall2_lookup_r _ _ _ _ _ E Hx) as (d' & Hd' & Hs).
    apply lookup_seq in Hd' as [-> Hd]. auto.
  - intros [Hd Hs].
    assert (seq 0 count !! d = Some d) as Hseq by by apply lookup_seq.
    destruct (Forall2_lookup_l _ _ _ _ _ E Hseq) as (x' & Hx' & Hs').
    rewrite Hs in Hs'. injection Hs' as <-. exact Hx'.
Qed.

Lemma spread_spec (count : nat) (sample : nat → Outcome R) (x : R) :
  out_bind (collect (sample <$> seq 0 count)) spread = Return x →
  ∃ hi lo, is_max_over count sample hi ∧ is_min_over count sample lo ∧ x = rsub hi lo.
Proof.
  intros E. apply out_bind_inv_Return in E as (samples & Hs & E).
  apply samples_lookup in Hs as [Hlen Hs].
  unfold spread in E.
  apply out_bind_inv_Return in E as (hi & Hhi & E).
  apply out_bind_inv_Return in E as (lo & Hlo & E). injection E as <-.
  apply np_max_spec in Hhi as [Hhi_in Hhi]. apply np_min_spec in Hlo as [Hlo_in Hlo].
  exists hi, lo. split; [|split; [|reflexivity]].
  - split.
    + apply list_elem_of_lookup in Hhi_in as [d Hd]. exists d. by apply Hs.
    + intros d Hd.
      destruct (samples !! d) as [y|] eqn:Ey.
      * exists y. split; [by apply Hs|]. apply Hhi. eapply list_elem_of_lookup_2, Ey.
      * apply lookup_ge_None in Ey. lia.
  - split.
    + apply list_elem_of_lookup in Hlo_in as [d Hd]. exists d. by apply Hs.
    + intros d Hd.
      destruct (samples !! d) as [y|] eqn:Ey.
      * exists y. split; [by apply Hs|]. apply Hlo. eapply list_elem_of_lookup_2, Ey.
      * apply lookup_ge_None in Ey. lia.
Qed.

Lemma dispersion_rows_spec {L} (labels : list L) (count point_count : nat)
    (sample : L → nat → nat → Outcome R) (dispersions : list (list R)) :
  collect ((λ label, dispersion_row
              (λ s, collect (sample label s <$> seq 0 point_count)) count)
             <$> labels) = Return dispersions →
  max_minus_min_rows labels count point_count sample dispersions.
Proof.
  intros E. apply collect_Forall2 in E. split.
  - symmetry. eapply Forall2_length, E.
  - intros index label Hlabel.
    destruct (Forall2_lookup_l _ _ _ _ _ E Hlabel) as (row & Hrow & Hdr).
    exists row. split; [exact Hrow|].
    unfold dispersion_row in Hdr. apply collect_Forall2 in Hdr.
    pose proof (Forall2_length _ _ _ Hdr) as Hlen. rewrite length_seq in Hlen.
    split; [by symmetry|]. intros s Hs.
    assert (seq 0 count !! s = Some s) as Hseq by by apply lookup_seq.
    destruct (Forall2_lookup_l _ _ _ _ _ Hdr Hseq) as (x & Hx & Hspread).
    apply spread_spec in Hspread as (hi & lo & Hhi & Hlo & ->).
    exists hi, lo. split; [exact Hhi|]. split; [exact Hlo|]. split; [exact Hx|].
    intros Hconst. rewrite Hx. f_equal.
    destruct Hhi as [(d & Hd & Ed) _], Hlo as [(d' & Hd' & Ed') _].
    rewrite (Hconst d d' Hd Hd') in Ed. rewrite Ed in Ed'. injection Ed' as ->.
    f_equal. apply rsub_diag.
Qed.

(** The lookup [eigenenergies[d, s, i]] of the code is the chain of list
    lookups: plane [d], then row [s], then entry [i]. *)
Lemma energy_at_lookup (eigenenergies : list (list (list R))) (d s i : nat) :
  energy_at eigenenergies d s i
  = from_option Return (Raise IndexError) ((eigenenergies !! d ≫= (.!! s)) ≫= (.!! i)).
Proof.
  unfold energy_at. destruct (eigenenergies !! d) as [plane|]; [|reflexivity]. simpl.
  destruct (plane !! s) as [row|]; [|reflexivity]. simpl.
  destruct (row !! i); reflexivity.
Qed.

Lemma max_minus_min_rows_ext {L} (labels : list L) (count point_count : nat)
    (sample sample' : L → nat → nat → Outcome R) (dispersions : list (list R)) :
  (∀ label s d, sample label s d = sample' label s d) →
  max_minus_min_rows labels count point_count sample dispersions →
  max_minus_min_rows labels count point_count sample' dispersions.
Proof.
  intros Hext [Hlen Hrows]. split; [exact Hlen|].
  intros index label Hlabel.
  destruct (Hrows index label Hlabel) as (row & Hrow & Hrowlen & Hcols).
  exists row. split; [exact Hrow|]. split; [exact Hrowlen|].
  intros s Hs. destruct (Hcols s Hs) as (hi & lo & Hhi & Hlo & Hentry & Hzero).
  exists hi, lo. split; [|split; [|split; [exact Hentry|]]].
  - destruct Hhi as [(d & Hd & Ed) Hall]. split.
    + exists d. split; [exact Hd|]. rewrite <- Hext. exact Ed.
    + intros d' Hd'. destruct (Hall d' Hd') as (x & Ex & Hx).
      exists x. split; [|exact Hx]. rewrite <- Hext. exact Ex.
  - destruct Hlo as [(d & Hd & Ed) Hall]. split.
    + exists d. split; [exact Hd|]. rewrite <- Hext. exact Ed.
    + intros d' Hd'. destruct (Hall d' Hd') as (x & Ex & Hx).
      exists x. split; [|exact Hx]. rewrite <- Hext. exact Ex.
  - intros Hconst. apply Hzero. intros d d' Hd Hd'. rewrite !Hext. by apply Hconst.
Qed.

(** C6: in the pair that [_compute_dispersion] returns, the cube has one
    plane per induced sample and one row per swept value: the row at induced
    sample [d] and swept index [s] holds the eigenvalues of the solve with
    [dispersion_name] at the sample [d] of [linspace(0, 1, point_count)] and
    [param_name] at [P[s]]. With [E_i] at [(d, s)] the entry
    [eigenenergies[d][s][i]], the dispersion of every requested transition
    (i, j) at every swept index [s] is the maximum minus the minimum, over the
    induced samples [d], of E_i - E_j. When [levels] is supplied the rows are
    those of the levels whatever [transitions] is: the maximum minus the
    minimum of E_j, hence zero where E_j does not vary with the induced
    parameter. *)
Theorem dispersion_max_minus_min (dispersion_name param_name : string) (param_vals : nat)
    (transitions : Transitions) (levels : option Levels) (point_count : nat)
    (num_cpus : option nat) (w w' : World)
    (eigenenergies : list (list (list R))) (dispersions : list (list R)) (P : list R) :
  ndarrays w !! param_vals = Some P →
  _compute_dispersion lapack NUM_CPUS completion_order cls dispersion_name param_name
    param_vals transitions levels point_count num_cpus w
    = (w', Return (eigenenergies, dispersions)) →
  length eigenenergies = point_count
  ∧ (∃ evals_count, ∀ d s disp_val sweep_val,
       linspace01 point_count !! d = Some disp_val → P !! s = Some sweep_val →
       ∃ row, eigenenergies !! d ≫= (.!! s) = Some row
         ∧ (eigenvals lapack cls evals_count false
              (with_param param_name sweep_val
                 (with_param dispersion_name disp_val w))).2 = Return row)
  ∧ match levels with
    | Some (LevelSeq ls) =>
        max_minus_min_rows ls (length P) point_count
          (λ j s d, from_option Return (Raise IndexError)
                      ((eigenenergies !! d ≫= (.!! s)) ≫= (.!! j)))
          dispersions
    | Some (SingleLevel _) => False
    | None =>
        ∃ ts, transitions = TransitionSeq ts
          ∧ max_minus_min_rows ts (length P) point_count
              (λ t s d,
                 match (eigenenergies !! d ≫= (.!! s)) ≫= (.!! t.1),
                       (eigenenergies !! d ≫= (.!! s)) ≫= (.!! t.2) with
                 | Some e_i, Some e_j => Return (rsub e_i e_j)
                 | _, _ => Raise IndexError
                 end)
              dispersions
    end.
Proof.
  intros HP Hrun.
  pose proof Hrun as Hcube. apply _compute_dispersion_cube in Hcube as [evals_count Hcube].
  apply _compute_dispersion_inv in Hrun as (_ & _ & _ & Hlen & Hdisp).
  cbn [fst snd] in Hlen, Hdisp, Hcube. rewrite HP in Hdisp, Hcube.
  cbn [default] in Hdisp, Hcube.
  split; [exact Hlen|]. split.
  { exists evals_count. intros d s dv sv Hd Hs.
    destruct (Forall2_lookup_l _ _ _ _ _ Hcube Hd) as (plane & Hplane & Hrows).
    destruct (Forall2_lookup_l _ _ _ _ _ Hrows Hs) as (row & Hrow & Hsolve).
    exists row. rewrite Hplane. split; [exact Hrow|exact Hsolve]. }
  subst point_count.
  destruct levels as [[?|ls]|]; [exact Hdisp| |].
  - eapply max_minus_min_rows_ext;
      [|apply (dispersion_rows_spec ls (length P) (length eigenenergies)
                 (λ j s d, energy_at eigenenergies d s j)); exact Hdisp].
    intros j s d. apply energy_at_lookup.
  - destruct transitions as [|ts]; [contradiction|].
    exists ts. split; [reflexivity|].
    eapply max_minus_min_rows_ext;
      [|apply (dispersion_rows_spec ts (length P) (length eigenenergies)
                 (λ t s d, transition_energy eigenenergies t.1 t.2 s d)); exact Hdisp].
    intros t s d. unfold transition_energy. rewrite !energy_at_lookup.
    destruct ((eigenenergies !! d ≫= (.!! s)) ≫= (.!! t.1)); [|reflexivity]. simpl.
    destruct ((eigenenergies !! d ≫= (.!! s)) ≫= (.!! t.2)); reflexivity.
Qed.

(** ** Normalisation of [levels] and [transitions] *)

(** Where the normalisation works: with a non-empty [transitions] argument,
    [levels] given as the bare integer [n] behaves as [levels=(n,)]; and
    [transitions] given as the single pair [(i, j)] behaves as
    [transitions=((i, j),)], whatever [levels] is. The two calls are the same
    computation: same world, same result or same exception. *)
Theorem bare_labels_as_singletons (dispersion_name param_name : string)
    (param_vals : nat) (ref_param : option string) (point_count : nat)
    (num_cpus : option nat) (w : World) :
  (∀ n transitions,
      transitions ≠ TransitionSeq [] →
      get_dispersion_vs_paramvals lapack NUM_CPUS completion_order cls dispersion_name
        param_name param_vals ref_param transitions (Some (SingleLevel n))
        point_count num_cpus w
      = get_dispersion_vs_paramvals lapack NUM_CPUS completion_order cls dispersion_name
          param_name param_vals ref_param transitions (Some (LevelSeq [n]))
          point_count num_cpus w)
  ∧ (∀ i j levels,
      get_dispersion_vs_paramvals lapack NUM_CPUS completion_order cls dispersion_name
        param_name param_vals ref_param (SingleTransition i j) levels
        point_count num_cpus w
      = get_dispersion_vs_paramvals lapack NUM_CPUS completion_order cls dispersion_name
          param_name param_vals ref_param (TransitionSeq [(i, j)]) levels
          point_count num_cpus w).
Proof.
  split.
  - intros n [i j|[|t ts]] Hne; [reflexivity|congruence|reflexivity].
  - intros i j [[n|ls]|]; reflexivity.
Qed.

(** ** Matrix elements at one point *)

Lemma call_operator_fails (operator : string) (w : World) :
  no_attribute cls operator w ∨ is_Some (self_dict w !! operator) →
  call_operator lapack cls operator w = (w, Raise (unknown_operator_error operator w)).
Proof.
  unfold call_operator, unknown_operator_error, class_attribute.
  intros [(Hdict & Hop & Hham & Hbase & Hother)|[v Hv]].
  - rewrite Hdict, Hop, Hother. rewrite decide_False by exact Hham.
    rewrite (not_elem_of_list_to_map_1 _ _ Hbase). reflexivity.
  - rewrite Hv. reflexivity.
Qed.

(** C9: for a name that is no attribute of the object at all, or is a float
    of the instance, [matrixelement_table] fails. With eigenvectors supplied,
    or computed by an eigensolve that returns, the failure is the lookup error
    of the name (the spec's UnknownOperatorError): AttributeError for a missing
    name, TypeError for a float. When the on-the-fly eigensolve raises, its
    exception propagates first. The world is unchanged. *)
Theorem unknown_operator_fails (operator : string) (evecs : option (list (Vector R)))
    (evals_count : nat) (return_datastore : bool) (w : World) :
  no_attribute cls operator w ∨ is_Some (self_dict w !! operator) →
  matrixelement_table lapack cls operator evecs evals_count return_datastore w
  = (w, Raise match evecs with
              | Some _ => unknown_operator_error operator w
              | None =>
                  match (eigensys lapack cls evals_count false w).2 with
                  | Return _ => unknown_operator_error operator w
                  | Raise e => e
                  end
              end).
Proof.
  intros Hname. pose proof (call_operator_fails operator w Hname) as Hcall.
  unfold matrixelement_table. destruct evecs as [evecs|].
  - erewrite bind_Return; [|reflexivity].
    erewrite bind_Raise; [reflexivity|exact Hcall].
  - pose proof (eigensys_world evals_count false w) as Hw.
    destruct (eigensys lapack cls evals_count false w) as [w1 [esys|e]] eqn:E;
      simpl in Hw; subst w1; simpl.
    + erewrite bind_Return; [|erewrite bind_Return; [|exact E]; reflexivity].
      erewrite bind_Raise; [reflexivity|exact Hcall].
    + erewrite bind_Raise; [reflexivity|].
      erewrite bind_Raise; [reflexivity|exact E].
Qed.

(** ** The reference parameter *)

(** C10: a dispersion call that returns with [ref_param] given has divided
    the caller's [param_vals] array in place, element by element, by the
    value of that attribute; the container refers to this same array and
    carries the combined name; no other array changed. With [ref_param=None]
    no array is modified. *)
Theorem ref_param_divides_in_place (dispersion_name swept_name : string)
    (vals_ref : nat) (ref_param : option string) (transitions : Transitions)
    (levels : option Levels) (point_count : nat) (num_cpus : option nat)
    (w w' : World) (sd : SpectrumData R) (P : list R) :
  ndarrays w !! vals_ref = Some P →
  get_dispersion_vs_paramvals lapack NUM_CPUS completion_order cls dispersion_name
    swept_name vals_ref ref_param transitions levels point_count num_cpus w
    = (w', Return sd) →
  param_vals sd = Some vals_ref
  ∧ match ref_param with
    | Some ref =>
        ∃ ref_val,
          self_dict w !! ref = Some ref_val
          ∧ self_dict w' !! ref = Some ref_val
          ∧ ndarrays w' !! vals_ref = Some ((λ v, rdiv v ref_val) <$> P)
          ∧ (∀ i v, P !! i = Some v →
               ndarrays w' !! vals_ref ≫= (.!! i) = Some (rdiv v ref_val))
          ∧ (∀ l, l ≠ vals_ref → ndarrays w' !! l = ndarrays w !! l)
          ∧ param_name sd = Some (swept_name +:+ "/" +:+ ref)
    | None =>
        ndarrays w' = ndarrays w
        ∧ param_name sd = Some swept_name
    end.
Proof.
  intros HP Hrun.
  apply get_dispersion_inv in Hrun as (t' & lv' & r & params & _ & _ & _ & Href).
  rewrite HP in Href. simpl in Href.
  destruct ref_param as [ref|].
  - destruct Href as (rv & Hrv & -> & ->). split; [reflexivity|].
    exists rv. simpl. rewrite lookup_insert_eq.
    split; [exact Hrv|]. split; [exact Hrv|]. split; [reflexivity|].
    split; [|split; [|reflexivity]].
    + intros i v Hv. simpl. rewrite list_lookup_fmap, Hv. reflexivity.
    + intros l Hl. by rewrite lookup_insert_ne.
  - destruct Href as [-> ->]. auto.
Qed.

(** ** Complex amplitudes *)

Add Ring RealNum_ring : (real_ring (R:=R)).

Lemma cplx_eq (x y : Cplx R) : re x = re y → im x = im y → x = y.
Proof. destruct x, y; simpl; congruence. Qed.

Lemma cadd_comm (x y : Cplx R) : cadd x y = cadd y x.
Proof. apply cplx_eq; simpl; ring. Qed.

Lemma cadd_assoc (x y z : Cplx R) : cadd x (cadd y z) = cadd (cadd x y) z.
Proof. apply cplx_eq; simpl; ring. Qed.


Lemma cmul_comm (x y : Cplx R) : cmul x y = cmul y x.
Proof. apply cplx_eq; simpl; ring. Qed.

Lemma cmul_assoc (x y z : Cplx R) : cmul x (cmul y z) = cmul (cmul x y) z.
Proof. apply cplx_eq; simpl; ring. Qed.











(** ** Matrix elements along a sweep *)



Lemma py_map_pure {A B} (f : A → Py B) (xs : list A) (w w' : World) (ys : list B) :
  (∀ x, (f x w).1 = w) →
  py_map f xs w = (w', Return ys) →
  w' = w ∧ Forall2 (λ x y, (f x w).2 = Return y) xs ys.
Proof.
  intros Hf. revert ys. induction xs as [|x xs IH]; intros ys.
  - intros E. injection E as <- <-. split; [reflexivity|constructor].
  - rewrite py_map_cons. specialize (Hf x) as Hx.
    destruct (f x w) as [w1 [y|e]] eqn:Ex; [|discriminate]. simpl in Hx. subst w1.
    destruct (py_map f xs w) as [w2 [ys'|e]] eqn:E; [|discriminate].
    intros E'. injection E' as <- <-.
    destruct (IH ys' eq_refl) as [-> Hall]. split; [reflexivity|].
    constructor; [|exact Hall]. rewrite Ex. reflexivity.
Qed.









End Properties.

(** * Worker counts *)

Section WorkerCount.
Context {R : Type} `{RealNum R}.
Variable lapack : Matrix R → option (list (R * Vector R)).
Variable cls : QubitClass R.

(** C2: in the table a sweep returns, row [i] belongs to the solve with the
    parameter set to [P[i]], in the order of the input array [P]: it holds the
    eigenvalues of that solve, and with [subtract_ground=True] these
    eigenvalues minus the lowest of them. A sweep that returns under one
    worker count returns the same container, and leaves the same world, under
    every other worker count, worker setting and completion order of the
    workers; and the sweep does return whenever the attribute exists and the
    point solves, the ground subtraction and [get_initdata] return. *)
Theorem sweep_rows_follow_input (NUM_CPUS : nat) (completion_order : nat → list nat)
    (param_name : string) (param_vals n : nat) (subtract_ground get_eigenstates : bool)
    (num_cpus : option nat) (w : World R) (P : list R) :
  ndarrays w !! param_vals = Some P →
  (∀ w' sd,
      get_spectrum_vs_paramvals lapack NUM_CPUS completion_order cls param_name
        param_vals n subtract_ground get_eigenstates num_cpus w = (w', Return sd) →
      (∃ table, energy_table sd = Energies2 table
         ∧ length table = length P
         ∧ ∀ i v, P !! i = Some v →
             ∃ solved row,
               energies_at lapack cls get_eigenstates param_name n v w = Return solved
               ∧ table !! i = Some row
               ∧ if subtract_ground
                 then ∃ ground, solved !! 0 = Some ground
                                ∧ row = (λ e, rsub e ground) <$> solved
                 else row = solved)
      ∧ ∀ NUM_CPUS' completion_order' num_cpus',
          get_spectrum_vs_paramvals lapack NUM_CPUS' completion_order' cls param_name
            param_vals n subtract_ground get_eigenstates num_cpus' w = (w', Return sd))
  ∧ (∀ prev tables table params,
      self_dict w !! param_name = Some prev →
      point_solves lapack cls get_eigenstates param_name n P w = Return tables →
      (if subtract_ground
       then subtract_ground_loop (seq 0 (length P)) tables.1 = Return table
       else table = tables.1) →
      (get_initdata cls w).2 = Return params →
      get_spectrum_vs_paramvals lapack NUM_CPUS completion_order cls param_name
        param_vals n subtract_ground get_eigenstates num_cpus w
      = (w, Return (mkSpectrumData (Energies2 table) params (Some param_name)
                      (Some param_vals) (StatesN <$> tables.2) None None None))).
Proof.
  intros HP. split.
  - intros w' sd Hrun. split.
    + apply get_spectrum_inv in Hrun
        as (prev & T & T' & St & params & _ & _ & HT & _ & Hsg & _ & ->).
      rewrite HP in HT, Hsg. cbn [default] in HT, Hsg.
      pose proof (Forall2_length _ _ _ HT) as HlenT.
      exists T'. split; [reflexivity|].
      destruct subtract_ground.
      * rewrite HlenT in Hsg.
        apply (subtract_ground_loop_seq T []) in Hsg as (T'' & -> & Hrows).
        cbn [app]. split.
        { rewrite <- (Forall2_length _ _ _ Hrows). by symmetry. }
        intros i v Hv.
        destruct (Forall2_lookup_l _ _ _ _ _ HT Hv) as (solved & Hsolved & Hsolve).
        destruct (Forall2_lookup_l _ _ _ _ _ Hrows Hsolved) as (row & Hrow & Hshift).
        exists solved, row. split; [exact Hsolve|]. split; [exact Hrow|].
        destruct solved as [|ground solved]; [discriminate|].
        injection Hshift as <-. exists ground. split; reflexivity.
      * subst T'. split; [by symmetry|].
        intros i v Hv.
        destruct (Forall2_lookup_l _ _ _ _ _ HT Hv) as (solved & Hsolved & Hsolve).
        exists solved, solved. auto.
    + intros NUM_CPUS' order' c'. apply get_spectrum_Return.
      by apply get_spectrum_Return in Hrun.
  - intros prev tables table params Hprev Hpts Hsg Hinit. apply get_spectrum_Return.
    exists prev, tables, table, params. rewrite HP. cbn [default]. auto 10.
Qed.

End WorkerCount.

(** * Concrete runs

    The theorems above at the two-level system and the truncated system over
    the integers, with the hypotheses discharged by evaluation, and the runs
    that separate the code from the claims it does not satisfy. *)

(** [np.linspace(0.0, 1.0, 5)] over the rationals. *)
Example linspace01_quarters :
  this <$> linspace01 (R:=Qc) 5 = [0%Q; (1 # 4)%Q; (1 # 2)%Q; (3 # 4)%Q; 1%Q].
Proof. vm_compute. reflexivity. Qed.

Lemma diag_lapack_complete (a : Matrix Z) (pairs : list (Z * Vector Z)) :
  diag_lapack a = Some pairs → length pairs = length a.
Proof.
  unfold diag_lapack. intros E. injection E as <-.
  rewrite (Permutation_length (merge_sort_Permutation eval_le _)).
  rewrite length_fmap, length_seq. reflexivity.
Qed.

(** C1 as stated fails. A sequential sweep of [EJ] over [10; 20; 30] on the
    two-level system asking for three eigenvalues raises at the first point
    and leaves [EJ] at 10 although it was 5 before the call; a sequential
    sweep of [ncut] over [3; 1; 2] asking for two eigenvalues raises at the
    second point, where the dimension is 1, and leaves [ncut] at 1 although
    it was 3. *)
Lemma failed_sweep_not_restored :
  let run := get_spectrum_vs_paramvals diag_lapack 1 in_order two_level
               "EJ" 0 3 false false None world0 in
  let run' := get_spectrum_vs_paramvals diag_lapack 1 in_order truncated
                "ncut" 1 2 false false None world0 in
  (run.2 = Raise ValueError_eigvals
   ∧ self_dict world0 !! "EJ" = Some 5%Z
   ∧ self_dict run.1 !! "EJ" = Some 10%Z)
  ∧ (run'.2 = Raise ValueError_eigvals
     ∧ self_dict world0 !! "ncut" = Some 3%Z
     ∧ self_dict run'.1 !! "ncut" = Some 1%Z).
Proof. vm_compute. auto 10. Qed.

Lemma restored_on_return_witness :
  (∃ w' sd,
      get_spectrum_vs_paramvals diag_lapack 1 in_order two_level
        "EJ" 0 2 false false None world0 = (w', Return sd)
      ∧ self_dict w' = self_dict world0
      ∧ self_dict w' !! "EJ" = self_dict world0 !! "EJ")
  ∧ (∃ w' sd,
      get_dispersion_vs_paramvals diag_lapack 1 in_order two_level
        "ng" "EJ" 0 (Some "EJ") (SingleTransition 0 1) None 3 None world0
      = (w', Return sd)
      ∧ self_dict w' = self_dict world0
      ∧ self_dict w' !! "EJ" = self_dict world0 !! "EJ"
      ∧ self_dict w' !! "ng" = self_dict world0 !! "ng").
Proof.
  split.
  - destruct (get_spectrum_vs_paramvals diag_lapack 1 in_order two_level
                "EJ" 0 2 false false None world0) as [w' [sd|e]] eqn:E.
    + exists w', sd. split; [reflexivity|].
      exact (proj1 (restored_on_return diag_lapack 1 in_order two_level)
               _ _ _ _ _ _ _ _ _ E).
    + vm_compute in E. discriminate.
  - destruct (get_dispersion_vs_paramvals diag_lapack 1 in_order two_level
                "ng" "EJ" 0 (Some "EJ") (SingleTransition 0 1) None 3 None world0)
      as [w' [sd|e]] eqn:E.
    + exists w', sd. split; [reflexivity|].
      exact (proj2 (proj2 (restored_on_return diag_lapack 1 in_order two_level))
               _ _ _ _ _ _ _ _ _ _ _ E).
    + vm_compute in E. discriminate.
Defined.

(** C2 as stated fails: with [subtract_ground=True] on a system whose lowest
    level is not zero, the rows of the table are not the eigenvalues of the
    solves at the parameter points. *)
Lemma ground_subtracted_rows_differ :
  (∃ sd,
      (get_spectrum_vs_paramvals diag_lapack 1 in_order offset_levels
         "EJ" 0 2 true false None world0).2 = Return sd
      ∧ energy_table sd = Energies2 [[0%Z; 1%Z]; [0%Z; 1%Z]; [0%Z; 1%Z]])
  ∧ (eigenvals diag_lapack offset_levels 2 false (with_param "EJ" 10%Z world0)).2
    = Return [10%Z; 11%Z]
  ∧ (eigenvals diag_lapack offset_levels 2 false (with_param "EJ" 20%Z world0)).2
    = Return [20%Z; 21%Z]
  ∧ (eigenvals diag_lapack offset_levels 2 false (with_param "EJ" 30%Z world0)).2
    = Return [30%Z; 31%Z].
Proof.
  split; [eexists; split; vm_compute; reflexivity|].
  repeat split; vm_compute; reflexivity.
Qed.

Lemma sweep_rows_follow_input_witness :
  ∃ w' sd,
    ndarrays world0 !! 0 = Some [10%Z; 20%Z; 30%Z]
    ∧ get_spectrum_vs_paramvals diag_lapack 1 in_order offset_levels
        "EJ" 0 2 true true None world0 = (w', Return sd)
    ∧ (∃ table, energy_table sd = Energies2 table
         ∧ length table = 3
         ∧ ∀ i v, [10%Z; 20%Z; 30%Z] !! i = Some v →
             ∃ solved row,
               energies_at diag_lapack offset_levels true "EJ" 2 v world0 = Return solved
               ∧ table !! i = Some row
               ∧ ∃ ground, solved !! 0 = Some ground
                           ∧ row = (λ e, (e - ground)%Z) <$> solved)
    ∧ get_spectrum_vs_paramvals diag_lapack 1 reversed offset_levels
        "EJ" 0 2 true true (Some 4) world0 = (w', Return sd).
Proof.
  destruct (get_spectrum_vs_paramvals diag_lapack 1 in_order offset_levels
              "EJ" 0 2 true true None world0) as [w' [sd|e]] eqn:E.
  - exists w', sd. split; [reflexivity|]. split; [reflexivity|].
    destruct (proj1 (sweep_rows_follow_input diag_lapack offset_levels 1 in_order
                       "EJ" 0 2 true true None world0 [10%Z; 20%Z; 30%Z] eq_refl) w' sd E)
      as [Hrows Hcount].
    split; [exact Hrows|]. exact (Hcount 1 reversed (Some 4)).
  - vm_compute in E. discriminate.
Defined.

Lemma eigen_count_exceeds_dimension_witness :
  length (hamiltonian two_level (self_dict world0)) = hilbertdim two_level (self_dict world0)
  ∧ hilbertdim two_level (self_dict world0) < 3
  ∧ eigenvals diag_lapack two_level 3 false world0 = (world0, Raise ValueError_eigvals)
  ∧ eigensys diag_lapack two_level 3 false world0 = (world0, Raise ValueError_eigvals).
Proof.
  assert (length (hamiltonian two_level (self_dict world0))
          = hilbertdim two_level (self_dict world0)) as Hdim by reflexivity.
  assert (hilbertdim two_level (self_dict world0) < 3) as Hlt by (simpl; lia).
  split; [exact Hdim|]. split; [exact Hlt|].
  exact (eigen_count_exceeds_dimension diag_lapack two_level 3 world0 Hdim Hlt false).
Defined.

Lemma energy_tables_ascending_witness :
  (∃ w' evals,
      eigenvals diag_lapack two_level 2 false world0 = (w', Return evals)
      ∧ ascending evals)
  ∧ (∃ w' sd,
      get_spectrum_vs_paramvals diag_lapack 1 in_order two_level
        "EJ" 1 2 true false None world0 = (w', Return sd)
      ∧ ∃ table, energy_table sd = Energies2 table ∧ Forall ascending table).
Proof.
  split.
  - destruct (eigenvals diag_lapack two_level 2 false world0) as [w' [evals|e]] eqn:E.
    + exists w', evals. split; [reflexivity|].
      exact (proj1 (energy_tables_ascending diag_lapack 1 in_order two_level) _ _ _ _ E).
    + vm_compute in E. discriminate.
  - destruct (get_spectrum_vs_paramvals diag_lapack 1 in_order two_level
                "EJ" 1 2 true false None world0) as [w' [sd|e]] eqn:E.
    + exists w', sd. split; [reflexivity|].
      exact (proj2 (proj2 (proj2 (proj2
               (energy_tables_ascending diag_lapack 1 in_order two_level))))
               _ _ _ _ _ _ _ _ _ E).
    + vm_compute in E. discriminate.
Defined.

Lemma ground_subtracted_witness :
  ∃ w' sd,
    ndarrays world0 !! 0 = Some [10%Z; 20%Z; 30%Z]
    ∧ get_spectrum_vs_paramvals diag_lapack 1 in_order two_level
        "ng" 0 2 true false None world0 = (w', Return sd)
    ∧ ∃ table, energy_table sd = Energies2 table
        ∧ length table = 3
        ∧ ∀ i v, [10%Z; 20%Z; 30%Z] !! i = Some v →
            ∃ original ground row,
              energies_at diag_lapack two_level false "ng" 2 v world0 = Return original
              ∧ original !! 0 = Some ground
              ∧ (∀ k e, original !! k = Some e → rle ground e)
              ∧ table !! i = Some row
              ∧ row !! 0 = Some 0%Z
              ∧ length row = length original
              ∧ ∀ k e, original !! k = Some e → row !! k = Some (e - ground)%Z.
Proof.
  destruct (get_spectrum_vs_paramvals diag_lapack 1 in_order two_level
              "ng" 0 2 true false None world0) as [w' [sd|e]] eqn:E.
  - exists w', sd. split; [reflexivity|]. split; [reflexivity|].
    exact (ground_subtracted diag_lapack 1 in_order two_level
             "ng" 0 2 false None world0 w' sd [10%Z; 20%Z; 30%Z] eq_refl E).
  - vm_compute in E. discriminate.
Defined.

Lemma dispersion_max_minus_min_witness :
  ∃ w' eigenenergies dispersions,
    ndarrays world0 !! 0 = Some [10%Z; 20%Z; 30%Z]
    ∧ _compute_dispersion diag_lapack 1 in_order two_level
        "ng" "EJ" 0 (TransitionSeq [(1, 0)]) None 3 None world0
      = (w', Return (eigenenergies, dispersions))
    ∧ eigenenergies = [ [[0; 10]; [0; 20]; [0; 30]];
                        [[0; 10]; [0; 20]; [0; 30]];
                        [[0; 11]; [0; 21]; [0; 31]] ]%Z
    ∧ dispersions = [[1; 1; 1]]%Z
    ∧ length eigenenergies = 3
    ∧ ∃ ts, TransitionSeq [(1, 0)] = TransitionSeq ts
        ∧ max_minus_min_rows ts 3 3
            (λ t s d,
               match (eigenenergies !! d ≫= (.!! s)) ≫= (.!! t.1),
                     (eigenenergies !! d ≫= (.!! s)) ≫= (.!! t.2) with
               | Some e_i, Some e_j => Return (e_i - e_j)%Z
               | _, _ => Raise IndexError
               end)
            dispersions.
Proof.
  destruct (_compute_dispersion diag_lapack 1 in_order two_level
              "ng" "EJ" 0 (TransitionSeq [(1, 0)]) None 3 None world0)
    as [w' [[eigenenergies dispersions]|e]] eqn:E.
  - exists w', eigenenergies, dispersions. split; [reflexivity|]. split; [reflexivity|].
    split; [vm_compute in E; by injection E as _ <- _|].
    split; [vm_compute in E; by injection E as _ _ <-|].
    destruct (dispersion_max_minus_min diag_lapack 1 in_order two_level
                "ng" "EJ" 0 (TransitionSeq [(1, 0)]) None 3 None world0 w'
                eigenenergies dispersions [10%Z; 20%Z; 30%Z] eq_refl E)
      as (Hlen & _ & Hrows).
    split; [exact Hlen|exact Hrows].
  - vm_compute in E. discriminate.
Defined.

(** C7: the code at the failing input. With an empty [transitions] tuple
    the bare level [0] is served, the argument [transitions] never being read,
    while the tuple [(0,)] for the same level raises IndexError on
    [transitions[0]] before anything is computed. *)
Lemma empty_transitions_separate_bare_level :
  (∃ sd, (get_dispersion_vs_paramvals diag_lapack 1 in_order two_level
            "ng" "EJ" 0 None (TransitionSeq []) (Some (SingleLevel 0)) 3 None world0).2
         = Return sd)
  ∧ (get_dispersion_vs_paramvals diag_lapack 1 in_order two_level
       "ng" "EJ" 0 None (TransitionSeq []) (Some (LevelSeq [0])) 3 None world0).2
    = Raise IndexError.
Proof. split; [eexists|]; vm_compute; reflexivity. Qed.

Lemma bare_labels_as_singletons_witness :
  SingleTransition 0 1 ≠ TransitionSeq []
  ∧ get_dispersion_vs_paramvals diag_lapack 1 in_order two_level
      "ng" "EJ" 0 None (SingleTransition 0 1) (Some (SingleLevel 1)) 3 None world0
    = get_dispersion_vs_paramvals diag_lapack 1 in_order two_level
        "ng" "EJ" 0 None (SingleTransition 0 1) (Some (LevelSeq [1])) 3 None world0.
Proof.
  assert (SingleTransition 0 1 ≠ TransitionSeq []) as Hne by discriminate.
  split; [exact Hne|].
  exact (proj1 (bare_labels_as_singletons diag_lapack 1 in_order two_level
                  "ng" "EJ" 0 None 3 None world0) 1 (SingleTransition 0 1) Hne).
Defined.



(** C9 as stated fails: on the two-level system the default request of six
    eigenvalues makes the on-the-fly eigensolve raise before the missing
    operator name is looked up; and for [hilbertdim], a method that needs no
    argument and yields no operator matrix, the lookup and the call of line
    303 raise nothing. *)
Lemma failed_solve_precedes_operator_lookup :
  operator_methods two_level !! "nope" = None
  ∧ self_dict world0 !! "nope" = None
  ∧ matrixelement_table diag_lapack two_level "nope" None 6 false world0
    = (world0, Raise ValueError_eigvals)
  ∧ call_operator diag_lapack two_level "hilbertdim" world0
    = (world0, Return (OtherObject "hilbertdim")).
Proof. repeat split; vm_compute; reflexivity. Qed.

Lemma unknown_operator_fails_witness :
  no_attribute two_level "nope" world0
  ∧ matrixelement_table diag_lapack two_level "nope" None 2 false world0
    = (world0, Raise (AttributeError "nope")).
Proof.
  assert (no_attribute two_level "nope" world0) as Hname.
  { repeat split; try reflexivity; try discriminate.
    apply (bool_decide_unpack _). vm_compute. exact I. }
  split; [exact Hname|].
  exact (unknown_operator_fails diag_lapack two_level "nope" None 2 false world0
           (or_introl Hname)).
Defined.

Lemma ref_param_divides_in_place_witness :
  ∃ w' sd,
    ndarrays world0 !! 0 = Some [10%Z; 20%Z; 30%Z]
    ∧ get_dispersion_vs_paramvals diag_lapack 1 in_order two_level
        "ng" "EJ" 0 (Some "EJ") (SingleTransition 0 1) None 3 None world0
      = (w', Return sd)
    ∧ param_vals sd = Some 0
    ∧ ∃ ref_val,
        self_dict world0 !! "EJ" = Some ref_val
        ∧ self_dict w' !! "EJ" = Some ref_val
        ∧ ndarrays w' !! 0 = Some ((λ v, rdiv v ref_val) <$> [10%Z; 20%Z; 30%Z])
        ∧ (∀ i v, [10%Z; 20%Z; 30%Z] !! i = Some v →
             ndarrays w' !! 0 ≫= (.!! i) = Some (rdiv v ref_val))
        ∧ (∀ l, l ≠ 0 → ndarrays w' !! l = ndarrays world0 !! l)
        ∧ param_name sd = Some ("EJ" +:+ "/" +:+ "EJ").
Proof.
  destruct (get_dispersion_vs_paramvals diag_lapack 1 in_order two_level
              "ng" "EJ" 0 (Some "EJ") (SingleTransition 0 1) None 3 None world0)
    as [w' [sd|e]] eqn:E.
  - exists w', sd. split; [reflexivity|]. split; [reflexivity|].
    exact (ref_param_divides_in_place diag_lapack 1 in_order two_level
             "ng" "EJ" 0 (Some "EJ") (SingleTransition 0 1) None 3 None world0 w' sd
             [10%Z; 20%Z; 30%Z] eq_refl E).
  - vm_compute in E. discriminate.
Defined.

(** * Further properties of the interface *)

Section InterfaceProperties.
Context {R : Type} `{RealNum R}.
Variable lapack : Matrix R → option (list (R * Vector R)).
Variable NUM_CPUS : nat.
Variable completion_order : nat → list nat.
Variable cls : QubitClass R.
Variable plot : Plotting R.
Variable get_units : string.

Local Abbreviation Py := (@Py R).
Local Abbreviation World := (World R).

(** ** Parameters: [set_params] and [get_initdata] *)

Lemma set_params_cons (k : string) (v : R) (kwargs : list (string * R)) (w : World) :
  set_params ((k, v) :: kwargs) w = set_params kwargs (with_param k v w).
Proof. reflexivity. Qed.

(** X1: [set_params] never raises and leaves the arrays alone; with distinct
    keyword names (as the keys of a dict are) every named attribute ends with
    the value given for it and every other attribute keeps its value. *)
Theorem set_params_sets_each (kwargs : list (string * R)) (w : World) :
  NoDup kwargs.*1 →
  (set_params kwargs w).2 = Return tt
  ∧ ndarrays (set_params kwargs w).1 = ndarrays w
  ∧ (∀ k v, (k, v) ∈ kwargs → self_dict (set_params kwargs w).1 !! k = Some v)
  ∧ (∀ k, k ∉ kwargs.*1 → self_dict (set_params kwargs w).1 !! k = self_dict w !! k).
Proof.
  revert w. induction kwargs as [|[k v] kwargs IH]; intros w Hnd.
  - repeat split; auto. intros k v Hin. by apply elem_of_nil in Hin.
  - rewrite set_params_cons. apply NoDup_cons in Hnd as [Hk Hnd].
    destruct (IH (with_param k v w) Hnd) as (Hret & Harr & Hset & Hother).
    split; [exact Hret|]. split; [exact Harr|]. split.
    + intros k' v' Hin. apply elem_of_cons in Hin as [E|Hin].
      * injection E as -> ->. rewrite (Hother k Hk). simpl. apply lookup_insert_eq.
      * by apply Hset.
    + intros k' Hk'. apply not_elem_of_cons in Hk' as [Hne Hk'].
      rewrite (Hother k' Hk'). simpl. by apply lookup_insert_ne.
Qed.

Lemma py_map_getattr_Return (names : list string) (w w' : World) (vals : list R) :
  py_map getattr names w = (w', Return vals) →
  w' = w ∧ Forall2 (λ n v, self_dict w !! n = Some v) names vals.
Proof.
  intros E. apply py_map_pure in E as [-> Hall].
  - split; [reflexivity|]. eapply Forall2_impl; [exact Hall|].
    intros n v. unfold getattr. destruct (self_dict w !! n); simpl; congruence.
  - intros n. unfold getattr. destruct (self_dict w !! n); reflexivity.
Qed.

Lemma get_initdata_Return (w w' : World) (d : gmap string R) :
  get_initdata cls w = (w', Return d) →
  w' = w
  ∧ (∀ n, n ∈ _init_params cls → is_Some (self_dict w !! n) ∧ d !! n = self_dict w !! n)
  ∧ (∀ n, n ∉ _init_params cls → d !! n = None)
  ∧ (∀ n v, d !! n = Some v → self_dict w !! n = Some v).
Proof.
  unfold get_initdata. intros E.
  apply bind_inv_Return in E as (w1 & vals & E & Hret).
  apply py_map_getattr_Return in E as [-> Hall].
  unfold ret in Hret. injection Hret as <- <-.
  pose proof (Forall2_length _ _ _ Hall) as Hlen.
  assert (Hsome : ∀ n v, list_to_map (M:=gmap string R) (zip (_init_params cls) vals) !! n
                         = Some v → self_dict w !! n = Some v).
  { intros n v Hn. apply elem_of_list_to_map_2 in Hn.
    apply list_elem_of_lookup in Hn as [i Hi].
    apply lookup_zip_with_Some in Hi as (n' & v' & E' & Hn' & Hv').
    injection E' as -> ->.
    destruct (Forall2_lookup_l _ _ _ _ _ Hall Hn') as (v'' & Hv'' & Hlook).
    congruence. }
  assert (Hnone : ∀ n, list_to_map (M:=gmap string R) (zip (_init_params cls) vals) !! n
                       = None ↔ n ∉ _init_params cls).
  { intros n. rewrite <- (fst_zip (_init_params cls) vals) at 2 by lia.
    symmetry. apply not_elem_of_list_to_map. }
  split; [reflexivity|]. split; [|split; [|exact Hsome]].
  - intros n Hn.
    destruct (list_to_map (zip (_init_params cls) vals) !! n) as [v|] eqn:E.
    + rewrite (Hsome n v E). split; [by eexists|reflexivity].
    + apply Hnone in E. contradiction.
  - intros n Hn. by apply Hnone.
Qed.

Lemma py_map_getattr_present (present : list string) (w : World) :
  (∀ n, n ∈ present → is_Some (self_dict w !! n)) →
  ∃ vals, py_map getattr present w = (w, Return vals).
Proof.
  induction present as [|n present IH]; intros Hall.
  - by exists [].
  - destruct (Hall n) as [v Hv]; [by constructor|].
    destruct IH as [vals Hvals]; [intros n' Hn'; apply Hall; by constructor|].
    exists (v :: vals). rewrite py_map_cons. unfold getattr at 1.
    rewrite Hv, Hvals. reflexivity.
Qed.

Lemma get_initdata_returns (w : World) :
  (∀ n, n ∈ _init_params cls → is_Some (self_dict w !! n)) →
  ∃ d, get_initdata cls w = (w, Return d).
Proof.
  intros Hall. destruct (py_map_getattr_present _ w Hall) as [vals Hvals].
  eexists. unfold get_initdata. erewrite bind_Return; [|exact Hvals]. reflexivity.
Qed.

Lemma py_map_getattr_eq (names : list string) (w : World) :
  py_map getattr names w
  = (w, collect ((λ n, match self_dict w !! n with
                       | Some v => Return v
                       | None => Raise (AttributeError n)
                       end) <$> names)).
Proof.
  induction names as [|n names IH]; [reflexivity|].
  rewrite py_map_cons. unfold getattr at 1. csimpl.
  destruct (self_dict w !! n) as [v|]; [|reflexivity].
  rewrite IH. destruct (collect _); reflexivity.
Qed.

Lemma get_initdata_agree (w1 w2 : World) :
  (∀ n, n ∈ _init_params cls → self_dict w1 !! n = self_dict w2 !! n) →
  (get_initdata cls w1).2 = (get_initdata cls w2).2.
Proof.
  intros Hagree. unfold get_initdata, bind. rewrite !py_map_getattr_eq.
  match goal with
  | |- context [collect (?f1 <$> ?l)] =>
      match goal with
      | |- context [collect (?f2 <$> l)] =>
          lazymatch f1 with
          | f2 => fail
          | _ => replace (f1 <$> l) with (f2 <$> l)
          end
      end
  end.
  - destruct (collect _); reflexivity.
  - apply Forall_fmap_ext_1, Forall_forall. intros n Hn. by rewrite Hagree.
Qed.

(** X2: [get_initdata] looks the names of [_init_params] up in order: when all
    are attributes it returns exactly these names with their current values;
    otherwise it raises AttributeError for the first missing one. Either way
    the world is unchanged. *)
Theorem get_initdata_exact (w : World) :
  ((∀ n, n ∈ _init_params cls → is_Some (self_dict w !! n)) →
   ∃ d, get_initdata cls w = (w, Return d)
     ∧ (∀ n, n ∈ _init_params cls → d !! n = self_dict w !! n)
     ∧ (∀ n, n ∉ _init_params cls → d !! n = None))
  ∧ (∀ present name rest,
       _init_params cls = present ++ name :: rest →
       (∀ n, n ∈ present → is_Some (self_dict w !! n)) →
       self_dict w !! name = None →
       get_initdata cls w = (w, Raise (AttributeError name))).
Proof.
  split.
  - intros Hall. destruct (py_map_getattr_present _ w Hall) as [vals Hvals].
    assert (get_initdata cls w
            = (w, Return (list_to_map (zip (_init_params cls) vals)))) as E.
    { unfold get_initdata. erewrite bind_Return; [|exact Hvals]. reflexivity. }
    eexists. split; [exact E|].
    destruct (get_initdata_Return _ _ _ E) as (_ & Hin & Hout & _).
    split; [intros n Hn; by apply Hin|exact Hout].
  - intros present name rest Hsplit Hall Hmiss.
    unfold get_initdata. rewrite Hsplit.
    erewrite bind_Raise; [reflexivity|].
    clear Hsplit. induction present as [|n present IH].
    + cbn [app]. rewrite py_map_cons. unfold getattr at 1. rewrite Hmiss. reflexivity.
    + destruct (Hall n) as [v Hv]; [by constructor|].
      cbn [app]. rewrite py_map_cons. unfold getattr at 1. rewrite Hv.
      rewrite IH; [reflexivity|]. intros n' Hn'. apply Hall. by constructor.
Qed.

(** X3: round trip: feeding the dict of [get_initdata] back to [set_params], in
    any order of its items, changes nothing. *)
Theorem set_params_of_initdata (w w' : World) (d : gmap string R)
    (kwargs : list (string * R)) :
  get_initdata cls w = (w', Return d) →
  kwargs ≡ₚ map_to_list d →
  set_params kwargs w = (w, Return tt).
Proof.
  intros Hinit Hperm.
  apply get_initdata_Return in Hinit as (_ & _ & _ & Hsome).
  assert (Hall : ∀ k v, (k, v) ∈ kwargs → self_dict w !! k = Some v).
  { intros k v Hin. rewrite Hperm in Hin. apply elem_of_map_to_list in Hin. by apply Hsome. }
  clear Hperm. induction kwargs as [|[k v] kwargs IH]; [reflexivity|].
  rewrite set_params_cons, with_param_id.
  - apply IH. intros k' v' Hin. apply Hall. by constructor.
  - apply Hall. by constructor.
Qed.

(** ** What a sweep can change *)



Lemma getattr_world (p : string) (w : World) : (getattr p w).1 = w.
Proof. unfold getattr. destruct (self_dict w !! p); reflexivity. Qed.






(** ** Where a sequential sweep stops *)

Lemma py_map_sweep_stops {B} (p : string) (g : Py B) (done : list R) (v : R)
    (rest : list R) (e : PyExn) (w : World) :
  (∀ w0, (g w0).1 = w0) →
  (∀ u, u ∈ done → ∃ y, (g (with_param p u w)).2 = Return y) →
  (g (with_param p v w)).2 = Raise e →
  ∀ w1, (∀ u, with_param p u w1 = with_param p u w) →
    py_map (λ x, bind (setattr p x) (λ _, g)) (done ++ v :: rest) w1
    = (with_param p v w, Raise e).
Proof.
  intros Hg. induction done as [|u done IH]; intros Hdone Hfail w1 Hw1.
  - cbn [app]. rewrite py_map_cons.
    change (bind (setattr p v) (λ _, g) w1) with (g (with_param p v w1)).
    rewrite Hw1. specialize (Hg (with_param p v w)).
    destruct (g (with_param p v w)) as [w2 [y|e']]; simpl in *; [discriminate|].
    congruence.
  - cbn [app]. rewrite py_map_cons.
    change (bind (setattr p u) (λ _, g) w1) with (g (with_param p u w1)).
    rewrite Hw1. destruct (Hdone u) as [y Hy]; [by constructor|].
    specialize (Hg (with_param p u w)) as Hgu.
    destruct (g (with_param p u w)) as [w2 [y'|e']]; simpl in *; [|discriminate].
    subst w2. rewrite IH; [reflexivity| |exact Hfail|].
    + intros u' Hu'. apply Hdone. by constructor.
    + intros u'. apply with_param_twice.
Qed.

(** X7: a sequential sweep (worker count 1) stops at the first parameter value
    whose solve raises: it raises that exception and leaves the swept
    attribute at that value, every earlier value having been solved. *)
Theorem sequential_sweep_stops_at_first_failure (p : string) (l n : nat)
    (sg ge : bool) (c : option nat) (w : World) (prev v : R)
    (done rest : list R) (e : PyExn) :
  num_cpus_or_default NUM_CPUS c = 1 →
  self_dict w !! p = Some prev →
  ndarrays w !! l = Some (done ++ v :: rest) →
  (∀ u, u ∈ done → ∃ row, energies_at lapack cls ge p n u w = Return row) →
  energies_at lapack cls ge p n v w = Raise e →
  get_spectrum_vs_paramvals lapack NUM_CPUS completion_order cls p l n sg ge c w
  = (with_param p v w, Raise e).
Proof.
  intros Hc Hprev HP Hdone Hfail. unfold get_spectrum_vs_paramvals.
  rewrite Hc. erewrite bind_Return; [|unfold getattr; rewrite Hprev; reflexivity].
  erewrite bind_Return; [|reflexivity]. rewrite HP. simpl default.
  apply bind_Raise. unfold get_map_method. simpl Nat.eqb. cbv iota.
  unfold energies_at in *. destruct ge; simpl negb; cbv iota; apply bind_Raise.
  - apply (py_map_sweep_stops p (eigensys lapack cls n false)).
    + intros w0. exact (eigensys_world lapack cls n false w0).
    + intros u Hu. destruct (Hdone u Hu) as [row Hrow].
      destruct ((eigensys lapack cls n false (with_param p u w)).2) as [esys|e'];
        [by eexists|discriminate].
    + destruct ((eigensys lapack cls n false (with_param p v w)).2) as [esys|e'];
        simpl in Hfail; congruence.
    + reflexivity.
  - apply (py_map_sweep_stops p (eigenvals lapack cls n false)).
    + intros w0. exact (eigenvals_world lapack cls n false w0).
    + exact Hdone.
    + exact Hfail.
    + reflexivity.
Qed.

(** ** How many eigenvalues come back *)

Lemma eigh_length (a : Matrix R) (n : nat) (pairs : list (R * Vector R)) :
  (∀ a pairs, lapack a = Some pairs → length pairs = length a) →
  eigh lapack a 0 (Z.of_nat n - 1) = Return pairs → length pairs = n.
Proof.
  intros Hlapack. unfold eigh.
  case_bool_decide as Hrange; [|discriminate].
  destruct (lapack a) as [all|] eqn:El; [|discriminate].
  intros E. injection E as <-.
  rewrite length_take, length_drop. apply Hlapack in El. lia.
Qed.

Lemma _evals_calc_length (n : nat) (w : World) (evals : list R) :
  (∀ a pairs, lapack a = Some pairs → length pairs = length a) →
  (_evals_calc lapack cls n w).2 = Return evals → length evals = n.
Proof.
  intros Hlapack. unfold _evals_calc, bind, call_hamiltonian, lift.
  destruct (eigh _ _ _ _) as [pairs|] eqn:E; [|discriminate]. simpl.
  intros E'. injection E' as <-. unfold np_sort.
  rewrite (Permutation_length (merge_sort_Permutation rle _)), length_fmap.
  eapply eigh_length; eassumption.
Qed.

Lemma _esys_calc_length (n : nat) (w : World) (esys : list R * list (Vector R)) :
  (∀ a pairs, lapack a = Some pairs → length pairs = length a) →
  (_esys_calc lapack cls n w).2 = Return esys →
  length esys.1 = n ∧ length esys.2 = n.
Proof.
  intros Hlapack. unfold _esys_calc, bind, call_hamiltonian, lift.
  destruct (eigh _ _ _ _) as [pairs|] eqn:E; [|discriminate]. simpl.
  intros E'. injection E' as <-. simpl. rewrite !length_fmap.
  rewrite (Permutation_length (merge_sort_Permutation eval_le _)).
  split; eapply eigh_length; eassumption.
Qed.

Lemma energies_at_length (ge : bool) (p : string) (n : nat) (v : R) (w : World)
    (row : list R) :
  (∀ a pairs, lapack a = Some pairs → length pairs = length a) →
  energies_at lapack cls ge p n v w = Return row → length row = n.
Proof.
  intros Hlapack. unfold energies_at. destruct ge.
  - rewrite eigensys_false. intros E.
    apply out_bind_inv_Return in E as (esys & E & Hrow). injection Hrow as <-.
    by apply _esys_calc_length in E as [E _].
  - rewrite eigenvals_false. by apply _evals_calc_length.
Qed.

(** X8: with a LAPACK driver that yields one eigenpair per dimension, a solve
    that returns yields exactly [evals_count] eigenvalues (and as many
    eigenvectors); in particular [evals_count = 0] never returns. *)
Theorem solve_yields_evals_count (n : nat) (w : World) :
  (∀ a pairs, lapack a = Some pairs → length pairs = length a) →
  (∀ evals, (eigenvals lapack cls n false w).2 = Return evals →
     length evals = n ∧ 0 < n)
  ∧ (∀ esys, (eigensys lapack cls n false w).2 = Return esys →
       length esys.1 = n ∧ length esys.2 = n ∧ 0 < n).
Proof.
  intros Hlapack.
  assert (Hpos : ∀ pairs, eigh lapack (hamiltonian cls (self_dict w)) 0 (Z.of_nat n - 1)
                          = Return pairs → 0 < n).
  { intros pairs. unfold eigh. case_bool_decide as Hrange; [|discriminate]. lia. }
  split.
  - intros evals E. rewrite eigenvals_false in E.
    split; [by apply (_evals_calc_length n w)|].
    unfold _evals_calc, bind, call_hamiltonian, lift in E.
    destruct (eigh _ _ _ _) as [pairs|] eqn:Ee; [|discriminate]. by eapply Hpos.
  - intros esys E. rewrite eigensys_false in E.
    destruct (_esys_calc_length n w esys Hlapack E) as [E1 E2].
    split; [exact E1|]. split; [exact E2|].
    unfold _esys_calc, bind, call_hamiltonian, lift in E.
    destruct (eigh _ _ _ _) as [pairs|] eqn:Ee; [|discriminate]. by eapply Hpos.
Qed.

Lemma subtract_ground_row_length (row row' : list R) :
  subtract_ground_row row = Return row' → length row' = length row.
Proof.
  destruct row as [|g row]; [discriminate|]. intros E. injection E as <-.
  simpl. f_equal. apply length_fmap.
Qed.

Lemma table_shape (ge sg : bool) (p : string) (n : nat) (w : World)
    (P : list R) (T T' : list (list R)) :
  (∀ a pairs, lapack a = Some pairs → length pairs = length a) →
  Forall2 (λ v row, energies_at lapack cls ge p n v w = Return row) P T →
  (if sg then subtract_ground_loop (seq 0 (length P)) T = Return T' else T' = T) →
  length T' = length P ∧ ∀ row, row ∈ T' → length row = n.
Proof.
  intros Hlapack Hrows Hsg.
  assert (HT : length T = length P ∧ ∀ row, row ∈ T → length row = n).
  { split; [symmetry; by eapply Forall2_length|].
    intros row Hrow. apply list_elem_of_lookup in Hrow as [i Hi].
    destruct (Forall2_lookup_r _ _ _ _ _ Hrows Hi) as (v & _ & Hv).
    by eapply energies_at_length. }
  destruct sg; [|by subst T'].
  destruct HT as [HlenT HrowT]. rewrite <- HlenT in Hsg.
  apply (subtract_ground_loop_seq T []) in Hsg as (rest' & -> & Hall).
  simpl. split; [rewrite <- HlenT; symmetry; by eapply Forall2_length|].
  intros row' Hrow'. apply list_elem_of_lookup in Hrow' as [i Hi].
  destruct (Forall2_lookup_r _ _ _ _ _ Hall Hi) as (row & Hrow & Hsub).
  rewrite (subtract_ground_row_length _ _ Hsub).
  apply HrowT. by eapply list_elem_of_lookup_2.
Qed.

(** X9: with a LAPACK driver that yields one eigenpair per dimension, the
    table of a sweep that returns is rectangular: one row per parameter value
    and [evals_count] entries per row, with or without ground subtraction and
    with or without eigenvectors. *)
Theorem sweep_table_is_rectangular (p : string) (l n : nat) (sg ge : bool)
    (c : option nat) (w w' : World) (sd : SpectrumData R) (P : list R) :
  (∀ a pairs, lapack a = Some pairs → length pairs = length a) →
  ndarrays w !! l = Some P →
  get_spectrum_vs_paramvals lapack NUM_CPUS completion_order cls p l n sg ge c w
    = (w', Return sd) →
  ∃ table, energy_table sd = Energies2 table
    ∧ length table = length P
    ∧ ∀ row, row ∈ table → length row = n.
Proof.
  intros Hlapack HP Hrun.
  apply get_spectrum_inv in Hrun
    as (prev & T & T' & St & params & _ & _ & Hrows & _ & Hsg & _ & ->).
  rewrite HP in Hrows, Hsg. simpl in Hrows, Hsg.
  exists T'. split; [reflexivity|]. by eapply table_shape.
Qed.

(** ** Empty input *)

(** X10: a sweep over an empty array runs no solve: whatever [evals_count] is, it
    returns a container with an empty table (and an empty list of eigenvector
    sets when those are asked for) and leaves the world as it was. The
    matrix-element sweep returns likewise with an empty table, even for a
    name that is no operator. *)
Theorem empty_sweep_solves_nothing (operator p : string) (l n : nat) (sg ge : bool)
    (c : option nat) (w : World) (prev : R) (params : gmap string R) :
  self_dict w !! p = Some prev →
  ndarrays w !! l = Some [] →
  get_initdata cls w = (w, Return params) →
  get_spectrum_vs_paramvals lapack NUM_CPUS completion_order cls p l n sg ge c w
    = (w, Return (mkSpectrumData (Energies2 []) params (Some p) (Some l)
                    (if ge then Some (StatesN []) else None) None None None))
  ∧ get_matelements_vs_paramvals lapack NUM_CPUS completion_order cls operator p l n c w
    = (w, Return (mkSpectrumData (Energies2 []) params (Some p) (Some l)
                    (Some (StatesN [])) (Some []) None None)).
Proof.
  intros Hprev HP Hinit.
  assert (Hsweep : ∀ sg' ge' c',
             get_spectrum_vs_paramvals lapack NUM_CPUS completion_order cls
               p l n sg' ge' c' w
             = (w, Return (mkSpectrumData (Energies2 []) params (Some p) (Some l)
                             (if ge' then Some (StatesN []) else None) None None None))).
  { intros sg' ge' c'. apply get_spectrum_Return.
    exists prev, ([], if ge' then Some [] else None), [], params.
    rewrite HP, Hinit. simpl.
    split; [exact Hprev|]. split; [reflexivity|].
    split; [destruct ge'; reflexivity|]. split; [destruct sg'; reflexivity|].
    split; [reflexivity|]. destruct ge'; reflexivity. }
  split; [apply Hsweep|].
  unfold get_matelements_vs_paramvals.
  erewrite bind_Return; [|apply Hsweep].
  unfold bind, read_array. rewrite HP. reflexivity.
Qed.

(** ** The operator of a matrix-element sweep *)

(** X11: the matrix-element sweep looks the operator up only after the whole
    eigenvector sweep. For a name that is no attribute of the object, or is a
    float of the instance, and a non-empty array: when the eigenvector sweep
    returns, the call raises the lookup error of the name (AttributeError,
    or TypeError for the float) with the world as it was before the call;
    when the sweep raises, the call raises that exception and ends in the
    world of the failed sweep. *)
Theorem matelements_operator_looked_up_last (operator p : string) (l n : nat)
    (c : option nat) (w : World) (v : R) (P : list R) :
  no_attribute cls operator w ∨ is_Some (self_dict w !! operator) →
  ndarrays w !! l = Some (v :: P) →
  (∀ w' sd,
     get_spectrum_vs_paramvals lapack NUM_CPUS completion_order cls p l n false true c w
       = (w', Return sd) →
     get_matelements_vs_paramvals lapack NUM_CPUS completion_order cls operator p l n c w
       = (w, Raise (unknown_operator_error operator w)))
  ∧ (∀ w' e,
       get_spectrum_vs_paramvals lapack NUM_CPUS completion_order cls p l n false true
         (Some (num_cpus_or_default NUM_CPUS c)) w = (w', Raise e) →
       get_matelements_vs_paramvals lapack NUM_CPUS completion_order cls operator p l n c w
         = (w', Raise e)).
Proof.
  intros Hname HP. split.
  - intros w' sd Hrun.
    apply get_spectrum_Return in Hrun.
    pose proof Hrun as Hrun'.
    apply (get_spectrum_Return lapack NUM_CPUS completion_order cls p l n false true
             (Some (num_cpus_or_default NUM_CPUS c))) in Hrun'.
    destruct Hrun as (prev & tables & T' & params & _ & -> & Hpts & _ & _ & ->).
    rewrite HP in Hpts. cbn [default] in Hpts. unfold point_solves in Hpts.
    apply out_bind_inv_Return in Hpts as (mapdata & Hc & Ht). injection Ht as <-.
    apply collect_Forall2 in Hc.
    destruct mapdata as [|m mapdata]; [inversion Hc|].
    unfold get_matelements_vs_paramvals.
    erewrite bind_Return; [|exact Hrun'].
    erewrite bind_Return; [|reflexivity]. rewrite HP. simpl default. simpl length.
    apply bind_Raise. cbn [seq]. rewrite py_map_cons.
    match goal with
    | |- context [bind (lift ?o) ?k w] =>
        assert (bind (lift o) k w = (w, Raise (unknown_operator_error operator w)))
          as ->; [|reflexivity]
    end.
    erewrite bind_Return; [|reflexivity].
    apply bind_Raise. unfold matrixelement_table.
    erewrite bind_Return; [|reflexivity].
    apply bind_Raise. by apply call_operator_fails.
  - intros w' e Hrun. unfold get_matelements_vs_paramvals. by apply bind_Raise.
Qed.

(** ** Ground subtraction *)

Lemma energies_at_pos (ge : bool) (p : string) (n : nat) (v : R) (w : World)
    (row : list R) :
  energies_at lapack cls ge p n v w = Return row → 0 < n.
Proof.
  assert (Hpos : ∀ a pairs, eigh lapack a 0 (Z.of_nat n - 1) = Return pairs → 0 < n).
  { intros a pairs. unfold eigh. case_bool_decide as Hrange; [|discriminate]. lia. }
  unfold energies_at. destruct ge.
  - rewrite eigensys_false. unfold _esys_calc, bind, call_hamiltonian, lift.
    destruct (eigh _ _ _ _) as [pairs|] eqn:E; [|discriminate]. intros _. by eapply Hpos.
  - rewrite eigenvals_false. unfold _evals_calc, bind, call_hamiltonian, lift.
    destruct (eigh _ _ _ _) as [pairs|] eqn:E; [|discriminate]. intros _. by eapply Hpos.
Qed.

Lemma subtract_ground_loop_returns (rest pre : list (list R)) :
  Forall (λ row, row ≠ []) rest →
  ∃ rest', subtract_ground_loop (seq (length pre) (length rest)) (pre ++ rest)
           = Return (pre ++ rest').
Proof.
  revert pre. induction rest as [|row rest IH]; intros pre Hall; simpl.
  - exists []. reflexivity.
  - apply Forall_cons in Hall as [Hrow Hall].
    rewrite list_lookup_middle by reflexivity.
    destruct row as [|ground row]; [congruence|]. simpl.
    rewrite (insert_app_r_alt pre ((ground :: row) :: rest) (length pre)) by lia.
    rewrite Nat.sub_diag. cbn [insert list_insert].
    match goal with |- context [pre ++ ?r :: rest] => set (row' := r) end.
    replace (pre ++ row' :: rest) with ((pre ++ [row']) ++ rest)
      by (rewrite <- app_assoc; reflexivity).
    replace (S (length pre)) with (length (pre ++ [row']))
      by (rewrite length_app; simpl; lia).
    destruct (IH (pre ++ [row']) Hall) as [rest' E]. rewrite E.
    exists (row' :: rest'). rewrite <- app_assoc. reflexivity.
Qed.

(** X12: ground subtraction never makes a sweep fail and touches nothing but the
    table: with a LAPACK driver that yields one eigenpair per dimension, the
    sweep with [subtract_ground=True] returns exactly when the sweep with
    [subtract_ground=False] does, in the same world, and the two containers
    agree on the system parameters, the parameter name, the parameter values
    and the eigenvectors. *)
Theorem ground_subtraction_only_shifts (p : string) (l n : nat) (ge : bool)
    (c : option nat) (w w' : World) :
  (∀ a pairs, lapack a = Some pairs → length pairs = length a) →
  (∀ sd,
     get_spectrum_vs_paramvals lapack NUM_CPUS completion_order cls p l n false ge c w
       = (w', Return sd) →
     ∃ sd',
       get_spectrum_vs_paramvals lapack NUM_CPUS completion_order cls p l n true ge c w
         = (w', Return sd')
       ∧ system_params sd' = system_params sd ∧ param_name sd' = param_name sd
       ∧ param_vals sd' = param_vals sd ∧ state_table sd' = state_table sd)
  ∧ (∀ sd',
       get_spectrum_vs_paramvals lapack NUM_CPUS completion_order cls p l n true ge c w
         = (w', Return sd') →
       ∃ sd,
         get_spectrum_vs_paramvals lapack NUM_CPUS completion_order cls p l n false ge c w
           = (w', Return sd)
         ∧ system_params sd' = system_params sd ∧ param_name sd' = param_name sd
         ∧ param_vals sd' = param_vals sd ∧ state_table sd' = state_table sd).
Proof.
  intros Hlapack. split.
  - intros sd Hrun.
    pose proof Hrun as Hinv. apply get_spectrum_inv in Hinv
      as (prev0 & T & T0 & St & params0 & _ & _ & Hrows & _ & HT0 & _ & Hsd).
    apply get_spectrum_Return in Hrun
      as (prev & tables & T' & params & Hprev & -> & Hpts & HT & Hinit & ->).
    simpl in HT0, HT. subst T0 T'. injection Hsd as HT _. 
    assert (Hne : Forall (λ row, row ≠ []) T).
    { apply Forall_forall. intros row Hrow.
      apply list_elem_of_lookup in Hrow as [i Hi].
      destruct (Forall2_lookup_r _ _ _ _ _ Hrows Hi) as (v & _ & Hv).
      pose proof (energies_at_pos _ _ _ _ _ _ Hv) as Hpos.
      apply energies_at_length in Hv; [|exact Hlapack].
      intros ->. simpl in Hv. lia. }
    destruct (subtract_ground_loop_returns T [] Hne) as [T'' Hloop].
    simpl in Hloop. rewrite <- (Forall2_length _ _ _ Hrows) in Hloop.
    eexists. split.
    { apply get_spectrum_Return.
      exists prev, tables, T'', params. rewrite HT. auto 10. }
    simpl. auto.
  - intros sd' Hrun.
    apply get_spectrum_Return in Hrun
      as (prev & tables & T' & params & Hprev & -> & Hpts & HT & Hinit & ->).
    eexists. split.
    { apply get_spectrum_Return.
      exists prev, tables, tables.1, params. auto 10. }
    simpl. auto.
Qed.

(** ** The dispersion container *)

Lemma transpose2_lookup (rows cols : nat) (a : list (list R)) (k s : nat) :
  k < rows → s < cols →
  transpose2 rows cols a !! s ≫= (.!! k) = Some (nth s (nth k a []) rzero).
Proof.
  intros Hk Hs. unfold transpose2.
  rewrite list_lookup_fmap, lookup_seq_lt by exact Hs. simpl.
  rewrite list_lookup_fmap, lookup_seq_lt by exact Hk. reflexivity.
Qed.

Lemma transpose2_shape (rows cols : nat) (a : list (list R)) :
  length (transpose2 rows cols a) = cols
  ∧ ∀ row, row ∈ transpose2 rows cols a → length row = rows.
Proof.
  unfold transpose2. split; [by rewrite length_fmap, length_seq|].
  intros row Hrow. apply list_elem_of_fmap in Hrow as (c' & -> & _).
  by rewrite length_fmap, length_seq.
Qed.

Lemma transpose2_no_rows (cols : nat) (a : list (list R)) :
  transpose2 0 cols a = replicate cols [].
Proof.
  unfold transpose2.
  assert (∀ start, (λ c, (λ r, nth c (nth r a []) rzero) <$> seq 0 0) <$> seq start cols
                   = replicate cols []) as Hall; [|apply Hall].
  induction cols as [|cols IH]; intros start; [reflexivity|].
  simpl. f_equal. apply IH.
Qed.

Lemma dispersion_rows_length {L} (g : L → Outcome (list R)) (count : nat)
    (labels : list L) (rows : list (list R)) :
  (∀ x row, g x = Return row → length row = count) →
  collect (g <$> labels) = Return rows →
  length rows = length labels ∧ ∀ row, row ∈ rows → length row = count.
Proof.
  intros Hg E. apply collect_Forall2 in E.
  split; [symmetry; eapply Forall2_length, E|].
  intros row Hrow. apply list_elem_of_lookup in Hrow as [i Hi].
  destruct (Forall2_lookup_r _ _ _ _ _ E Hi) as (x & _ & Hx). by eapply Hg.
Qed.

Lemma dispersion_row_length (samples_at : nat → Outcome (list R)) (count : nat)
    (row : list R) :
  dispersion_row samples_at count = Return row → length row = count.
Proof.
  unfold dispersion_row. intros E. apply collect_Forall2 in E.
  apply Forall2_length in E. rewrite length_seq in E. by symmetry.
Qed.

(** X13: the dispersion table of the container is the transpose of the table
    [_compute_dispersion] returns: one row per parameter value, one column per
    label, and the entry at row [s], column [k] is the dispersion of label [k]
    at swept index [s]. The energy cube is passed on unchanged. *)
Theorem dispersion_table_is_transposed (dn pn : string) (l : nat) (ref : option string)
    (t : Transitions) (lv : option Levels) (pc : nat) (c : option nat)
    (w w' : World) (sd : SpectrumData R) (P : list R) :
  ndarrays w !! l = Some P →
  get_dispersion_vs_paramvals lapack NUM_CPUS completion_order cls dn pn l ref t lv pc c w
    = (w', Return sd) →
  ∃ t' lv' cube rows table,
    normalize_labels t lv = Return (t', lv')
    ∧ _compute_dispersion lapack NUM_CPUS completion_order cls dn pn l t' lv' pc c w
      = (w, Return (cube, rows))
    ∧ energy_table sd = Energies3 cube
    ∧ dispersion sd = Some table
    ∧ length table = length P
    ∧ (∀ row, row ∈ table → length row = length rows)
    ∧ (∀ row, row ∈ rows → length row = length P)
    ∧ ∀ k s, k < length rows → s < length P →
        ∃ x, rows !! k ≫= (.!! s) = Some x ∧ table !! s ≫= (.!! k) = Some x.
Proof.
  intros HP Hrun.
  apply get_dispersion_inv in Hrun
    as (t' & lv' & [cube rows] & params & Hnorm & Hcomp & _ & Href).
  rewrite HP in Href. cbn [default fst snd] in Href.
  assert (Hsd : energy_table sd = Energies3 cube
                ∧ dispersion sd = Some (transpose2 (length rows) (length P) rows)).
  { destruct ref as [rp|]; [destruct Href as (rv & _ & _ & ->)|destruct Href as [_ ->]];
      split; reflexivity. }
  pose proof Hcomp as Hinv.
  apply _compute_dispersion_inv in Hinv as (_ & _ & _ & _ & Hdisp).
  rewrite HP in Hdisp. cbn [default fst snd] in Hdisp.
  assert (Hrows : ∀ row, row ∈ rows → length row = length P).
  { destruct lv' as [[?|ls]|]; [contradiction| |destruct t' as [|ts]; [contradiction|]].
    - eapply dispersion_rows_length; [|exact Hdisp].
      intros x row. apply dispersion_row_length.
    - eapply dispersion_rows_length; [|exact Hdisp].
      intros x row. apply dispersion_row_length. }
  destruct Hsd as [He Hd].
  destruct (transpose2_shape (length rows) (length P) rows) as [Hl1 Hl2].
  exists t', lv', cube, rows, (transpose2 (length rows) (length P) rows).
  split; [exact Hnorm|]. split; [exact Hcomp|]. split; [exact He|]. split; [exact Hd|].
  split; [exact Hl1|]. split; [exact Hl2|]. split; [exact Hrows|].
  intros k s Hk Hs.
  destruct (lookup_lt_is_Some_2 rows k Hk) as [rowk Hrowk].
  assert (length rowk = length P) as Hlen
    by (apply Hrows; eapply list_elem_of_lookup_2, Hrowk).
  destruct (lookup_lt_is_Some_2 rowk s) as [x Hx]; [lia|].
  exists x. split.
  - rewrite Hrowk. exact Hx.
  - rewrite transpose2_lookup by assumption. f_equal.
    rewrite (nth_lookup_Some _ _ _ _ Hrowk). by apply nth_lookup_Some.
Qed.


(** X15: [_compute_dispersion] needs its labels in sequence form: called with a
    bare pair of levels (the default of its [transitions] argument) and no
    [levels], or with a bare integer for [levels], it never returns. The
    normalisation of [get_dispersion_vs_paramvals] never hands it such a
    form: what it returns has [levels] as a tuple or [None], and in the
    latter case [transitions] as a non-empty tuple of pairs. *)
Theorem compute_dispersion_needs_sequences (dn pn : string) (l : nat)
    (t : Transitions) (lv : option Levels) (pc : nat) (c : option nat) (w : World) :
  (∀ i j, ∃ e, (_compute_dispersion lapack NUM_CPUS completion_order cls dn pn l
                  (SingleTransition i j) None pc c w).2 = Raise e)
  ∧ (∀ n, ∃ e, (_compute_dispersion lapack NUM_CPUS completion_order cls dn pn l
                  t (Some (SingleLevel n)) pc c w).2 = Raise e)
  ∧ (∀ t' lv', normalize_labels t lv = Return (t', lv') →
       match lv' with
       | Some (SingleLevel _) => False
       | Some (LevelSeq _) => True
       | None => ∃ pair rest, t' = TransitionSeq (pair :: rest)
       end).
Proof.
  split; [|split].
  - intros i j.
    destruct (_compute_dispersion lapack NUM_CPUS completion_order cls dn pn l
                (SingleTransition i j) None pc c w) as [w' [r|e]] eqn:E.
    + apply _compute_dispersion_inv in E as (_ & _ & _ & _ & []).
    + by exists e.
  - intros n.
    destruct (_compute_dispersion lapack NUM_CPUS completion_order cls dn pn l
                t (Some (SingleLevel n)) pc c w) as [w' [r|e]] eqn:E.
    + apply _compute_dispersion_inv in E as (_ & _ & _ & _ & []).
    + by exists e.
  - intros t' lv'. unfold normalize_labels.
    destruct lv as [[n|ls]|]; [intros E; by simplify_eq| |];
      (destruct t as [i j|[|pair rest]]; intros E; simplify_eq; eauto).
Qed.

(** X16: an empty tuple for [levels] is neither [None] nor true: the maximum level
    and the labels are taken from [transitions], but the rows are computed
    for the levels, of which there are none. A call that returns carries the
    transitions as labels and a dispersion table without columns, and the
    plotting caller hands on an empty list of curve labels. *)
Theorem empty_levels_tuple_gives_no_columns (dn pn : string) (l : nat)
    (ref : option string) (t : Transitions) (pc : nat) (c : option nat)
    (w w' : World) (sd : SpectrumData R) (P : list R) :
  ndarrays w !! l = Some P →
  get_dispersion_vs_paramvals lapack NUM_CPUS completion_order cls dn pn l ref t
    (Some (LevelSeq [])) pc c w = (w', Return sd) →
  (∃ pair rest, labels sd = Some (inr (TransitionSeq (pair :: rest))))
  ∧ dispersion sd = Some (replicate (length P) [])
  ∧ plot_dispersion_vs_paramvals lapack NUM_CPUS completion_order cls plot get_units
      dn pn l ref t (Some (LevelSeq [])) pc c w
    = (w', Return (data_vs_paramvals plot (dispersion_plot_data get_units sd []))).
Proof.
  intros HP Hrun. pose proof Hrun as Hinv.
  apply get_dispersion_inv in Hinv
    as (t' & lv' & [cube rows] & params & Hnorm & Hcomp & _ & Href).
  rewrite HP in Href. cbn [default fst snd] in Href.
  assert (lv' = Some (LevelSeq []) ∧ ∃ pair rest, t' = TransitionSeq (pair :: rest))
    as [-> (pair & rest & ->)].
  { unfold normalize_labels in Hnorm.
    destruct t as [i j|[|pair rest]]; simplify_eq; eauto. }
  apply _compute_dispersion_inv in Hcomp as (_ & _ & _ & _ & Hdisp).
  cbn in Hdisp. injection Hdisp as <-.
  split; [|split].
  - exists pair, rest.
    destruct ref as [rp|]; [destruct Href as (rv & _ & _ & ->)|destruct Href as [_ ->]];
      reflexivity.
  - rewrite <- (transpose2_no_rows (length P) []).
    destruct ref as [rp|]; [destruct Href as (rv & _ & _ & ->)|destruct Href as [_ ->]];
      reflexivity.
  - unfold plot_dispersion_vs_paramvals.
    erewrite bind_Return; [|exact Hrun]. reflexivity.
Qed.

(** ** The value the swept attribute had *)

(** X17: the tables of a sweep do not depend on the value the swept attribute had
    before the call: started from any other value, the sweep returns in that
    world, with the same energies and eigenvectors, and with the same
    container altogether when the attribute is no initialisation parameter. *)
Theorem sweep_ignores_initial_value (p : string) (l n : nat) (sg ge : bool)
    (c : option nat) (w w' : World) (sd : SpectrumData R) (x : R) :
  get_spectrum_vs_paramvals lapack NUM_CPUS completion_order cls p l n sg ge c w
    = (w', Return sd) →
  ∃ sd',
    get_spectrum_vs_paramvals lapack NUM_CPUS completion_order cls p l n sg ge c
      (with_param p x w) = (with_param p x w, Return sd')
    ∧ energy_table sd' = energy_table sd
    ∧ state_table sd' = state_table sd
    ∧ (p ∉ _init_params cls → sd' = sd).
Proof.
  intros Hrun. apply get_spectrum_Return in Hrun
    as (prev & tables & T' & params & Hprev & -> & Hpts & Hsg & Hinit & ->).
  assert (Hpts' : point_solves lapack cls ge p n
                    (default [] (ndarrays (with_param p x w) !! l)) (with_param p x w)
                  = Return tables).
  { rewrite <- Hpts. unfold point_solves. simpl ndarrays.
    destruct ge; do 2 f_equal; apply Forall_fmap_ext_1, Forall_forall;
      intros v _; by rewrite with_param_twice. }
  destruct (get_initdata cls w) as [w0 [d|e]] eqn:Einit; [|discriminate].
  simpl in Hinit. injection Hinit as ->. pose proof Einit as Einit2.
  apply get_initdata_Return in Einit as (-> & Hin & _ & _).
  destruct (get_initdata_returns (with_param p x w)) as [params' Hinit'].
  { intros k Hk. simpl. destruct (decide (k = p)) as [->|Hne].
    - rewrite lookup_insert_eq. by eexists.
    - rewrite lookup_insert_ne by congruence. by apply Hin. }
  exists (mkSpectrumData (Energies2 T') params' (Some p) (Some l)
            (StatesN <$> tables.2) None None None).
  split; [|split; [reflexivity|split; [reflexivity|]]].
  - apply get_spectrum_Return. exists x, tables, T', params'.
    rewrite Hinit'. simpl self_dict. simpl ndarrays. rewrite lookup_insert_eq.
    split; [reflexivity|]. split; [reflexivity|]. split; [exact Hpts'|]. auto.
  - intros Hp. f_equal.
    assert ((get_initdata cls (with_param p x w)).2 = (get_initdata cls w).2) as E.
    { apply get_initdata_agree. intros k Hk. simpl.
      apply lookup_insert_ne. intros ->. contradiction. }
    rewrite Hinit', Einit2 in E. simpl in E. by injection E.
Qed.

(** ** The plotting callers *)

Lemma num_cpus_or_default_idem (c : option nat) :
  num_cpus_or_default NUM_CPUS (Some (num_cpus_or_default NUM_CPUS c))
  = num_cpus_or_default NUM_CPUS c.
Proof. destruct c as [[|k]|]; simpl; destruct NUM_CPUS; reflexivity. Qed.

Lemma foldl_max_spec (l : list nat) (a : nat) :
  (foldl Nat.max a l = a ∨ foldl Nat.max a l ∈ l)
  ∧ a ≤ foldl Nat.max a l
  ∧ ∀ x, x ∈ l → x ≤ foldl Nat.max a l.
Proof.
  revert a. induction l as [|y l IH]; intros a; simpl.
  - split; [by left|]. split; [lia|]. intros x Hx. by apply elem_of_nil in Hx.
  - destruct (IH (Nat.max a y)) as (Hin & Hle & Hall). split; [|split].
    + destruct Hin as [E|Hin]; [|right; by constructor]. rewrite E.
      destruct (Nat.max_spec a y) as [[_ ->]|[_ ->]]; [right; constructor|by left].
    + lia.
    + intros x Hx. apply elem_of_cons in Hx as [->|Hx]; [lia|by apply Hall].
Qed.

Lemma np_max_nat_spec (l : list nat) (m : nat) :
  np_max_nat l = Return m → m ∈ l ∧ ∀ x, x ∈ l → x ≤ m.
Proof.
  destruct l as [|a l]; [discriminate|]. intros E. injection E as <-.
  destruct (foldl_max_spec l a) as (Hin & Hle & Hall). split.
  - destruct Hin as [->|Hin]; [constructor|by constructor].
  - intros x Hx. apply elem_of_cons in Hx as [->|Hx]; [exact Hle|by apply Hall].
Qed.

Lemma select_evals_count_spec (elems : list (nat * nat)) (n : nat) :
  select_evals_count (ElemList elems) = Return n →
  (∀ i j, (i, j) ∈ elems → i < n ∧ j < n)
  ∧ ∃ i j, (i, j) ∈ elems ∧ (n = S i ∨ n = S j).
Proof.
  unfold select_evals_count. intros E.
  apply out_bind_inv_Return in E as (m & Hm & E). injection E as <-.
  apply np_max_nat_spec in Hm as [Hin Hall]. split.
  - intros i j Hij.
    assert (i ∈ flat_map (λ tupl : nat * nat, [tupl.1; tupl.2]) elems
            ∧ j ∈ flat_map (λ tupl : nat * nat, [tupl.1; tupl.2]) elems) as [Hi Hj].
    { split; apply list_elem_of_In, in_flat_map; exists (i, j);
        (split; [by apply list_elem_of_In|simpl; auto]). }
    apply Hall in Hi, Hj. lia.
  - apply list_elem_of_In, in_flat_map in Hin as ([i j] & Hin & Hm).
    exists i, j. split; [by apply list_elem_of_In|].
    simpl in Hm. destruct Hm as [<-|[<-|[]]]; lia.
Qed.

Lemma matelements_resolved_count (operator p : string) (l n : nat) (c : option nat) :
  get_matelements_vs_paramvals lapack NUM_CPUS completion_order cls operator p l n
    (Some (num_cpus_or_default NUM_CPUS c))
  = get_matelements_vs_paramvals lapack NUM_CPUS completion_order cls operator p l n c.
Proof.
  unfold get_matelements_vs_paramvals. rewrite num_cpus_or_default_idem. reflexivity.
Qed.

(** X18: [plot_matelem_vs_paramvals] derives [evals_count] from the selection. An
    empty list of index pairs raises ValueError before anything is computed.
    For a non-empty list the count is one more than the largest index that
    occurs, so every selected element lies inside the tables, and the caller
    computes exactly what [get_matelements_vs_paramvals] computes for that
    count and the same worker count. *)
Theorem selection_fixes_evals_count (operator p : string) (l : nat) (mode : string)
    (c : option nat) (w : World) :
  plot_matelem_vs_paramvals lapack NUM_CPUS completion_order cls plot operator p l
    (ElemList []) mode c w
  = (w, Raise ValueError_empty_reduction)
  ∧ ∀ pair rest, ∃ n,
      (∀ i j, (i, j) ∈ pair :: rest → i < n ∧ j < n)
      ∧ (∃ i j, (i, j) ∈ pair :: rest ∧ (n = S i ∨ n = S j))
      ∧ plot_matelem_vs_paramvals lapack NUM_CPUS completion_order cls plot operator p l
          (ElemList (pair :: rest)) mode c w
        = bind (get_matelements_vs_paramvals lapack NUM_CPUS completion_order cls
                  operator p l n c)
               (λ sd, ret (matelem_vs_paramvals plot sd (ElemList (pair :: rest)) mode)) w.
Proof.
  split; [reflexivity|]. intros pair rest.
  destruct (select_evals_count (ElemList (pair :: rest))) as [n|e] eqn:E;
    [|destruct pair; discriminate].
  exists n. destruct (select_evals_count_spec _ _ E) as [Hall Hin].
  split; [exact Hall|]. split; [exact Hin|].
  unfold plot_matelem_vs_paramvals.
  erewrite bind_Return; [|unfold lift; rewrite E; reflexivity].
  rewrite matelements_resolved_count. reflexivity.
Qed.

(** X19: [plot_evals_vs_paramvals] plots [range(evals_count)] of the table of the
    values-only sweep: a call that returns has restored the world, the figure
    is the one of that sweep's container, and with a LAPACK driver that
    yields one eigenpair per dimension every plotted index is a column of
    every row of the table. *)
Theorem plotted_levels_are_columns (p : string) (l n : nat) (sg : bool)
    (c : option nat) (w w' : World) (fig : Figure plot) (P : list R) :
  (∀ a pairs, lapack a = Some pairs → length pairs = length a) →
  ndarrays w !! l = Some P →
  plot_evals_vs_paramvals lapack NUM_CPUS completion_order cls plot p l n sg c w
    = (w', Return fig) →
  w' = w
  ∧ ∃ sd table,
      get_spectrum_vs_paramvals lapack NUM_CPUS completion_order cls p l n sg false c w
        = (w, Return sd)
      ∧ fig = evals_vs_paramvals plot sd (seq 0 n)
      ∧ energy_table sd = Energies2 table
      ∧ length table = length P
      ∧ ∀ k row, k ∈ seq 0 n → row ∈ table → is_Some (row !! k).
Proof.
  intros Hlapack HP Hrun. unfold plot_evals_vs_paramvals in Hrun.
  apply bind_inv_Return in Hrun as (w1 & sd & Hsweep & Hfig).
  unfold ret in Hfig. injection Hfig as <- <-.
  apply get_spectrum_Return in Hsweep. pose proof Hsweep as Hsweep'.
  apply (get_spectrum_Return lapack NUM_CPUS completion_order cls p l n sg false c)
    in Hsweep'.
  pose proof Hsweep' as Hinv. apply get_spectrum_inv in Hinv
    as (prev & T & T' & St & params & _ & -> & Hrows & _ & Hsg & _ & ->).
  rewrite HP in Hrows, Hsg. cbn [default] in Hrows, Hsg.
  destruct (table_shape _ _ _ _ _ _ _ _ Hlapack Hrows Hsg) as [Hlen Hrow].
  split; [reflexivity|]. eexists _, T'.
  split; [exact Hsweep'|]. split; [reflexivity|]. split; [reflexivity|].
  split; [exact Hlen|].
  intros k row Hk Hin. apply lookup_lt_is_Some. rewrite (Hrow row Hin).
  apply elem_of_seq in Hk. lia.
Qed.

(** ** Results wrapped in a container *)

(** X20: asking [eigenvals] or [eigensys] for a SpectrumData container does not
    change the numbers: the call returns exactly when the plain call and
    [get_initdata] both return, and the container then holds the plain result
    as its energy table (and state table) and the initialisation data as its
    system parameters, with no parameter name or values attached. *)
Theorem spectrumdata_wraps_the_solve (n : nat) (w w' : World) (sd : SpectrumData R) :
  (eigenvals lapack cls n true w = (w', Return sd)
   ↔ w' = w
     ∧ ∃ evals params,
         eigenvals lapack cls n false w = (w, Return evals)
         ∧ get_initdata cls w = (w, Return params)
         ∧ sd = mkSpectrumData (Energies1 evals) params None None None None None None)
  ∧ (eigensys lapack cls n true w = (w', Return sd)
     ↔ w' = w
       ∧ ∃ esys params,
           eigensys lapack cls n false w = (w, Return esys)
           ∧ get_initdata cls w = (w, Return params)
           ∧ sd = mkSpectrumData (Energies1 esys.1) params None None
                    (Some (States1 esys.2)) None None None).
Proof.
  split.
  - rewrite eigenvals_false. unfold eigenvals, bind.
    pose proof (_evals_calc_world lapack cls n w) as Hw.
    pose proof (get_initdata_world cls w) as Hi.
    destruct (_evals_calc lapack cls n w) as [w1 [evals|e]]; simpl in Hw; subst w1.
    + destruct (get_initdata cls w) as [w1 [params|e]]; simpl in Hi; subst w1.
      * split.
        -- intros E. injection E as <- <-. split; [reflexivity|]. by exists evals, params.
        -- intros (-> & evals' & params' & E1 & E2 & ->). by simplify_eq.
      * split; [discriminate|]. intros (_ & evals' & params' & _ & E2 & _). discriminate.
    + split; [discriminate|]. intros (_ & evals' & params' & E1 & _). discriminate.
  - rewrite eigensys_false. unfold eigensys, bind.
    pose proof (_esys_calc_world lapack cls n w) as Hw.
    pose proof (get_initdata_world cls w) as Hi.
    destruct (_esys_calc lapack cls n w) as [w1 [esys|e]]; simpl in Hw; subst w1.
    + destruct (get_initdata cls w) as [w1 [params|e]]; simpl in Hi; subst w1.
      * split.
        -- intros E. injection E as <- <-. split; [reflexivity|]. by exists esys, params.
        -- intros (-> & esys' & params' & E1 & E2 & ->). by simplify_eq.
      * split; [discriminate|]. intros (_ & esys' & params' & _ & E2 & _). discriminate.
    + split; [discriminate|]. intros (_ & esys' & params' & E1 & _). discriminate.
Qed.

(** ** What a dispersion call can change *)

Lemma ParameterSweep_frame_gen (I : World → Prop) (dn pn : string)
    (disp_vals sweep_vals : list R) (n : nat) (c : option nat) :
  (∀ name v w0, name = dn ∨ name = pn → I w0 → I (with_param name v w0)) →
  ∀ w1, I w1 →
    I (ParameterSweep_bare_evals lapack NUM_CPUS completion_order cls
         (λ disp_val sweep_val, bind (setattr dn disp_val) (λ _, setattr pn sweep_val))
         disp_vals sweep_vals n c w1).1.
Proof.
  intros Hset w1 Hw1. unfold ParameterSweep_bare_evals.
  apply get_map_method_frame; [|exact Hw1].
  intros d w0 Hw0. apply py_map_frame; [|exact Hw0].
  clear w0 Hw0. intros sv w0 Hw0.
  change (bind (bind (setattr dn d) (λ _, setattr pn sv))
            (λ _, eigenvals lapack cls n false) w0)
    with (eigenvals lapack cls n false (with_param pn sv (with_param dn d w0))).
  cbv beta.
  match goal with
  | |- context [fst ?x] =>
      replace (fst x) with (with_param pn sv (with_param dn d w0))
        by (symmetry; apply (eigenvals_world lapack cls n false))
  end.
  apply Hset; [auto|]. apply Hset; auto.
Qed.

Lemma _compute_dispersion_frame (I : World → Prop) (dn pn : string) (l : nat)
    (t : Transitions) (lv : option Levels) (pc : nat) (c : option nat) :
  (∀ name v w0, name = dn ∨ name = pn → I w0 → I (with_param name v w0)) →
  ∀ w, I w →
    I (_compute_dispersion lapack NUM_CPUS completion_order cls dn pn l t lv pc c w).1.
Proof.
  intros Hset w Hw. unfold _compute_dispersion. cbv zeta.
  apply (bind_frame I); [intros w0 Hw0; exact Hw0| |exact Hw].
  clear w Hw. intros vals w Hw.
  apply (bind_frame I); [intros w0 Hw0; by rewrite getattr_world| |exact Hw].
  clear w Hw. intros pd w Hw.
  apply (bind_frame I); [intros w0 Hw0; by rewrite getattr_world| |exact Hw].
  clear w Hw. intros pp w Hw.
  apply (bind_frame I); [intros w0 Hw0; exact Hw0| |exact Hw].
  clear w Hw. intros max_level w Hw.
  apply (bind_frame I); [intros w0 Hw0; by apply ParameterSweep_frame_gen| |exact Hw].
  clear w Hw. intros cube w Hw.
  apply (bind_frame I); [intros w0 Hw0; exact Hw0| |exact Hw].
  clear w Hw. intros rows w Hw.
  apply (bind_frame I); [intros w0 Hw0; apply Hset; auto| |exact Hw].
  clear w Hw. intros _ w Hw.
  apply (bind_frame I); [intros w0 Hw0; apply Hset; auto| |exact Hw].
  intros _ w0 Hw0. exact Hw0.
Qed.

Lemma get_dispersion_frame (I : World → Prop) (dn pn : string) (l : nat)
    (ref : option string) (t : Transitions) (lv : option Levels) (pc : nat)
    (c : option nat) :
  (∀ name v w0, name = dn ∨ name = pn → I w0 → I (with_param name v w0)) →
  (∀ vs w0, is_Some ref → I w0 → I (mkWorld (self_dict w0) (<[l:=vs]> (ndarrays w0)))) →
  ∀ w, I w →
    I (get_dispersion_vs_paramvals lapack NUM_CPUS completion_order cls dn pn l ref
         t lv pc c w).1.
Proof.
  intros Hset Hwrite w Hw. unfold get_dispersion_vs_paramvals. cbv zeta.
  apply (bind_frame I); [intros w0 Hw0; exact Hw0| |exact Hw].
  clear w Hw. intros normalized w Hw.
  apply (bind_frame I); [intros w0 Hw0; by apply _compute_dispersion_frame| |exact Hw].
  clear w Hw. intros result w Hw.
  apply (bind_frame I); [| |exact Hw].
  - clear w Hw. intros w Hw. destruct ref as [rp|]; [|exact Hw].
    apply (bind_frame I); [intros w0 Hw0; by rewrite getattr_world| |exact Hw].
    clear w Hw. intros ref_val w Hw.
    apply (bind_frame I); [intros w0 Hw0; exact Hw0| |exact Hw].
    clear w Hw. intros vals w Hw.
    apply (bind_frame I); [intros w0 Hw0; apply Hwrite; [by eexists|exact Hw0]| |exact Hw].
    intros _ w0 Hw0. exact Hw0.
  - clear w Hw. intros name w Hw.
    apply (bind_frame I); [intros w0 Hw0; by rewrite get_initdata_world| |exact Hw].
    clear w Hw. intros params w Hw.
    apply (bind_frame I); [intros w0 Hw0; exact Hw0| |exact Hw].
    intros vals w0 Hw0. exact Hw0.
Qed.

(** X21: whatever a dispersion call returns or raises, under every worker count,
    it leaves every attribute other than the two swept ones as it was, and
    every array other than the caller's [param_vals]; without [ref_param] it
    leaves all arrays alone, as [_compute_dispersion] always does. *)
Theorem dispersion_touches_only_its_parameters (dn pn : string) (l : nat)
    (ref : option string) (t : Transitions) (lv : option Levels) (pc : nat)
    (c : option nat) (w : World) :
  (∀ k, k ≠ dn → k ≠ pn →
     self_dict (get_dispersion_vs_paramvals lapack NUM_CPUS completion_order cls
                  dn pn l ref t lv pc c w).1 !! k = self_dict w !! k)
  ∧ (∀ l', l' ≠ l →
       ndarrays (get_dispersion_vs_paramvals lapack NUM_CPUS completion_order cls
                   dn pn l ref t lv pc c w).1 !! l' = ndarrays w !! l')
  ∧ ndarrays (get_dispersion_vs_paramvals lapack NUM_CPUS completion_order cls
                dn pn l None t lv pc c w).1 = ndarrays w
  ∧ ndarrays (_compute_dispersion lapack NUM_CPUS completion_order cls
                dn pn l t lv pc c w).1 = ndarrays w.
Proof.
  split; [|split; [|split]].
  - apply (get_dispersion_frame
             (λ w0, ∀ k, k ≠ dn → k ≠ pn → self_dict w0 !! k = self_dict w !! k));
      [| |auto].
    + intros name v w0 Hname Hw0 k Hk1 Hk2. simpl.
      rewrite lookup_insert_ne; [auto|]. destruct Hname; congruence.
    + intros vs w0 _ Hw0. exact Hw0.
  - apply (get_dispersion_frame
             (λ w0, ∀ l', l' ≠ l → ndarrays w0 !! l' = ndarrays w !! l'));
      [| |auto].
    + intros name v w0 _ Hw0. exact Hw0.
    + intros vs w0 _ Hw0 l' Hl'. simpl. rewrite lookup_insert_ne; auto.
  - apply (get_dispersion_frame (λ w0, ndarrays w0 = ndarrays w)); [| |auto].
    + intros name v w0 _ Hw0. exact Hw0.
    + intros vs w0 [rp Hrp]. discriminate.
  - apply (_compute_dispersion_frame (λ w0, ndarrays w0 = ndarrays w)); [|auto].
    intros name v w0 _ Hw0. exact Hw0.
Qed.

(** ** The labels of a dispersion plot *)

(** X22: [plot_dispersion_vs_paramvals] returns exactly when the dispersion call
    does: the labels it builds afterwards cannot fail, and there is one label
    for every column of the dispersion table it plots. *)
Theorem dispersion_plot_labels_match_columns (dn pn : string) (l : nat)
    (ref : option string) (t : Transitions) (lv : option Levels) (pc : nat)
    (c : option nat) (w w' : World) (sd : SpectrumData R) (P : list R) :
  ndarrays w !! l = Some P →
  get_dispersion_vs_paramvals lapack NUM_CPUS completion_order cls dn pn l ref t lv pc c w
    = (w', Return sd) →
  ∃ label_list table,
    plot_dispersion_vs_paramvals lapack NUM_CPUS completion_order cls plot get_units
      dn pn l ref t lv pc c w
    = (w', Return (data_vs_paramvals plot (dispersion_plot_data get_units sd label_list)))
    ∧ dispersion sd = Some table
    ∧ length table = length P
    ∧ ∀ row, row ∈ table → length row = length label_list.
Proof.
  intros HP Hrun. pose proof Hrun as Hinv.
  apply get_dispersion_inv in Hinv
    as (t' & lv' & [cube rows] & params & Hnorm & Hcomp & _ & Href).
  rewrite HP in Href. cbn [default fst snd] in Href.
  assert (Hsd : dispersion sd = Some (transpose2 (length rows) (length P) rows)).
  { destruct ref as [rp|]; [destruct Href as (rv & _ & _ & ->)|destruct Href as [_ ->]];
      reflexivity. }
  apply _compute_dispersion_inv in Hcomp as (_ & _ & _ & _ & Hdisp).
  cbn [fst snd] in Hdisp.
  assert (∃ label_list, dispersion_label_list t lv = Return label_list
                        ∧ length label_list = length rows) as (label_list & Hlab & Hlen).
  { unfold normalize_labels in Hnorm.
    destruct lv as [[n|ls]|].
    - simplify_eq. apply collect_Forall2, Forall2_length in Hdisp.
      eexists. split; [reflexivity|]. rewrite <- Hdisp. reflexivity.
    - assert (lv' = Some (LevelSeq ls)) as ->
        by (destruct t as [i j|[|pair rest]]; by simplify_eq).
      apply collect_Forall2, Forall2_length in Hdisp.
      eexists. split; [reflexivity|]. rewrite <- Hdisp. apply length_fmap.
    - destruct t as [i j|[|pair rest]]; simplify_eq;
        apply collect_Forall2, Forall2_length in Hdisp;
        (eexists; split; [reflexivity|]); rewrite <- Hdisp;
        [reflexivity|apply length_fmap]. }
  destruct (transpose2_shape (length rows) (length P) rows) as [Hl1 Hl2].
  exists label_list, (transpose2 (length rows) (length P) rows).
  split; [|split; [exact Hsd|split; [exact Hl1|]]].
  - unfold plot_dispersion_vs_paramvals.
    erewrite bind_Return; [|exact Hrun].
    erewrite bind_Return; [|unfold lift; rewrite Hlab; reflexivity]. reflexivity.
  - intros row Hrow. rewrite Hlen. by apply Hl2.
Qed.

End InterfaceProperties.

(** ** Concrete runs of the further properties *)

Lemma set_params_sets_each_witness :
  NoDup [("EJ", 7%Z); ("ncut", 4%Z)].*1
  ∧ (set_params [("EJ", 7%Z); ("ncut", 4%Z)] world0).2 = Return tt
  ∧ self_dict (set_params [("EJ", 7%Z); ("ncut", 4%Z)] world0).1 !! "ncut" = Some 4%Z
  ∧ self_dict (set_params [("EJ", 7%Z); ("ncut", 4%Z)] world0).1 !! "ng"
    = self_dict world0 !! "ng".
Proof.
  assert (NoDup [("EJ", 7%Z); ("ncut", 4%Z)].*1) as Hnd
    by (apply (bool_decide_unpack _); vm_compute; exact I).
  destruct (set_params_sets_each [("EJ", 7%Z); ("ncut", 4%Z)] world0 Hnd)
    as (Hret & _ & Hset & Hother).
  split; [exact Hnd|]. split; [exact Hret|]. split.
  - apply Hset. apply list_elem_of_further, list_elem_of_here.
  - apply Hother. apply (bool_decide_unpack _). vm_compute. exact I.
Defined.

Lemma set_params_of_initdata_witness :
  ∃ d, get_initdata two_level world0 = (world0, Return d)
    ∧ map_to_list d ≡ₚ map_to_list d
    ∧ set_params (map_to_list d) world0 = (world0, Return tt).
Proof.
  destruct (get_initdata two_level world0) as [w' [d|e]] eqn:E.
  - pose proof (get_initdata_world two_level world0) as Hw.
    rewrite E in Hw. simpl in Hw. subst w'.
    exists d. split; [reflexivity|]. split; [reflexivity|].
    exact (set_params_of_initdata two_level world0 world0 d (map_to_list d) E
             (reflexivity _)).
  - vm_compute in E. discriminate.
Defined.


Lemma sequential_sweep_stops_at_first_failure_witness :
  ndarrays world0 !! 1 = Some ([3%Z] ++ 1%Z :: [2%Z])
  ∧ (∃ row, energies_at diag_lapack truncated false "ncut" 2 3%Z world0 = Return row)
  ∧ energies_at diag_lapack truncated false "ncut" 2 1%Z world0 = Raise ValueError_eigvals
  ∧ get_spectrum_vs_paramvals diag_lapack 1 in_order truncated
      "ncut" 1 2 false false None world0
    = (with_param "ncut" 1%Z world0, Raise ValueError_eigvals).
Proof.
  assert (∃ row, energies_at diag_lapack truncated false "ncut" 2 3%Z world0 = Return row)
    as Hdone by (eexists; vm_compute; reflexivity).
  assert (energies_at diag_lapack truncated false "ncut" 2 1%Z world0
          = Raise ValueError_eigvals) as Hfail by (vm_compute; reflexivity).
  split; [reflexivity|]. split; [exact Hdone|]. split; [exact Hfail|].
  apply (sequential_sweep_stops_at_first_failure diag_lapack 1 in_order truncated
           "ncut" 1 2 false false None world0 3%Z 1%Z [3%Z] [2%Z] ValueError_eigvals).
  - reflexivity.
  - reflexivity.
  - reflexivity.
  - intros u Hu. apply list_elem_of_singleton in Hu as ->. exact Hdone.
  - exact Hfail.
Defined.

Lemma solve_yields_evals_count_witness :
  (∀ a pairs, diag_lapack a = Some pairs → length pairs = length a)
  ∧ ∃ esys, (eigensys diag_lapack two_level 2 false world0).2 = Return esys
      ∧ length esys.1 = 2 ∧ length esys.2 = 2.
Proof.
  split; [exact diag_lapack_complete|].
  destruct ((eigensys diag_lapack two_level 2 false world0).2) as [esys|e] eqn:E.
  - exists esys. split; [reflexivity|].
    destruct (proj2 (solve_yields_evals_count diag_lapack two_level 2 world0
                       diag_lapack_complete) esys E) as (H1 & H2 & _).
    split; assumption.
  - vm_compute in E. discriminate.
Defined.

Lemma sweep_table_is_rectangular_witness :
  ∃ w' sd,
    (∀ a pairs, diag_lapack a = Some pairs → length pairs = length a)
    ∧ ndarrays world0 !! 0 = Some [10%Z; 20%Z; 30%Z]
    ∧ get_spectrum_vs_paramvals diag_lapack 1 in_order two_level
        "EJ" 0 2 true true None world0 = (w', Return sd)
    ∧ ∃ table, energy_table sd = Energies2 table
        ∧ length table = 3
        ∧ ∀ row, row ∈ table → length row = 2.
Proof.
  destruct (get_spectrum_vs_paramvals diag_lapack 1 in_order two_level
              "EJ" 0 2 true true None world0) as [w' [sd|e]] eqn:E.
  - exists w', sd. split; [exact diag_lapack_complete|].
    split; [reflexivity|]. split; [reflexivity|].
    exact (sweep_table_is_rectangular diag_lapack 1 in_order two_level
             "EJ" 0 2 true true None world0 w' sd [10%Z; 20%Z; 30%Z]
             diag_lapack_complete eq_refl E).
  - vm_compute in E. discriminate.
Defined.

Lemma empty_sweep_solves_nothing_witness :
  ∃ params,
    self_dict world_no_points !! "EJ" = Some 5%Z
    ∧ ndarrays world_no_points !! 0 = Some []
    ∧ get_initdata two_level world_no_points = (world_no_points, Return params)
    ∧ get_spectrum_vs_paramvals diag_lapack 1 in_order two_level
        "EJ" 0 6 true false None world_no_points
      = (world_no_points,
         Return (mkSpectrumData (Energies2 []) params (Some "EJ") (Some 0)
                   None None None None))
    ∧ get_matelements_vs_paramvals diag_lapack 1 in_order two_level
        "nope" "EJ" 0 6 None world_no_points
      = (world_no_points,
         Return (mkSpectrumData (Energies2 []) params (Some "EJ") (Some 0)
                   (Some (StatesN [])) (Some []) None None)).
Proof.
  destruct (get_initdata two_level world_no_points) as [w' [params|e]] eqn:E.
  - pose proof (get_initdata_world two_level world_no_points) as Hw.
    rewrite E in Hw. simpl in Hw. subst w'.
    exists params. split; [reflexivity|]. split; [reflexivity|]. split; [reflexivity|].
    exact (empty_sweep_solves_nothing diag_lapack 1 in_order two_level
             "nope" "EJ" 0 6 true false None world_no_points 5%Z params
             eq_refl eq_refl E).
  - vm_compute in E. discriminate.
Defined.

Lemma matelements_operator_looked_up_last_witness :
  no_attribute two_level "nope" world0
  ∧ ndarrays world0 !! 0 = Some (10%Z :: [20%Z; 30%Z])
  ∧ get_matelements_vs_paramvals diag_lapack 1 in_order two_level
      "nope" "EJ" 0 2 None world0
    = (world0, Raise (AttributeError "nope")).
Proof.
  assert (no_attribute two_level "nope" world0) as Hname.
  { repeat split; try reflexivity; try discriminate.
    apply (bool_decide_unpack _). vm_compute. exact I. }
  split; [exact Hname|]. split; [reflexivity|].
  destruct (get_spectrum_vs_paramvals diag_lapack 1 in_order two_level
              "EJ" 0 2 false true None world0) as [w' [sd|e]] eqn:E.
  - exact (proj1 (matelements_operator_looked_up_last diag_lapack 1 in_order two_level
                    "nope" "EJ" 0 2 None world0 10%Z [20%Z; 30%Z] (or_introl Hname)
                    eq_refl)
             w' sd E).
  - vm_compute in E. discriminate.
Defined.

Lemma ground_subtraction_only_shifts_witness :
  (∀ a pairs, diag_lapack a = Some pairs → length pairs = length a)
  ∧ ∃ w' sd sd',
      get_spectrum_vs_paramvals diag_lapack 1 in_order two_level
        "EJ" 0 2 false true None world0 = (w', Return sd)
      ∧ get_spectrum_vs_paramvals diag_lapack 1 in_order two_level
          "EJ" 0 2 true true None world0 = (w', Return sd')
      ∧ system_params sd' = system_params sd
      ∧ state_table sd' = state_table sd.
Proof.
  split; [exact diag_lapack_complete|].
  destruct (get_spectrum_vs_paramvals diag_lapack 1 in_order two_level
              "EJ" 0 2 false true None world0) as [w' [sd|e]] eqn:E.
  - destruct (proj1 (ground_subtraction_only_shifts diag_lapack 1 in_order two_level
                       "EJ" 0 2 true None world0 w' diag_lapack_complete) sd E)
      as (sd' & Hrun & Hparams & _ & _ & Hstates).
    exists w', sd, sd'. auto.
  - vm_compute in E. discriminate.
Defined.

Lemma dispersion_table_is_transposed_witness :
  ∃ w' sd table,
    ndarrays world0 !! 0 = Some [10%Z; 20%Z; 30%Z]
    ∧ get_dispersion_vs_paramvals diag_lapack 1 in_order two_level
        "ng" "EJ" 0 None (TransitionSeq [(1, 0); (0, 0)]) None 3 None world0
      = (w', Return sd)
    ∧ dispersion sd = Some table
    ∧ length table = 3.
Proof.
  destruct (get_dispersion_vs_paramvals diag_lapack 1 in_order two_level
              "ng" "EJ" 0 None (TransitionSeq [(1, 0); (0, 0)]) None 3 None world0)
    as [w' [sd|e]] eqn:E.
  - destruct (dispersion_table_is_transposed diag_lapack 1 in_order two_level
                "ng" "EJ" 0 None (TransitionSeq [(1, 0); (0, 0)]) None 3 None
                world0 w' sd [10%Z; 20%Z; 30%Z] eq_refl E)
      as (t' & lv' & cube & rows & table & _ & _ & _ & Htable & Hlen & _).
    exists w', sd, table. split; [reflexivity|]. split; [reflexivity|]. auto.
  - vm_compute in E. discriminate.
Defined.


Lemma empty_levels_tuple_gives_no_columns_witness :
  ∃ w' sd,
    ndarrays world0 !! 0 = Some [10%Z; 20%Z; 30%Z]
    ∧ get_dispersion_vs_paramvals diag_lapack 1 in_order two_level
        "ng" "EJ" 0 None (SingleTransition 0 1) (Some (LevelSeq [])) 3 None world0
      = (w', Return sd)
    ∧ (∃ pair rest, labels sd = Some (inr (TransitionSeq (pair :: rest))))
    ∧ dispersion sd = Some (replicate 3 []).
Proof.
  destruct (get_dispersion_vs_paramvals diag_lapack 1 in_order two_level
              "ng" "EJ" 0 None (SingleTransition 0 1) (Some (LevelSeq [])) 3 None world0)
    as [w' [sd|e]] eqn:E.
  - destruct (empty_levels_tuple_gives_no_columns diag_lapack 1 in_order two_level
                recording_plot "GHz" "ng" "EJ" 0 None (SingleTransition 0 1) 3 None
                world0 w' sd [10%Z; 20%Z; 30%Z] eq_refl E) as (Hlabels & Hdisp & _).
    exists w', sd. split; [reflexivity|]. split; [reflexivity|]. auto.
  - vm_compute in E. discriminate.
Defined.

Lemma sweep_ignores_initial_value_witness :
  ∃ w' sd sd',
    get_spectrum_vs_paramvals diag_lapack 1 in_order two_level
      "ng" 0 2 true true None world0 = (w', Return sd)
    ∧ get_spectrum_vs_paramvals diag_lapack 1 in_order two_level
        "ng" 0 2 true true None (with_param "ng" 9%Z world0)
      = (with_param "ng" 9%Z world0, Return sd')
    ∧ energy_table sd' = energy_table sd
    ∧ state_table sd' = state_table sd.
Proof.
  destruct (get_spectrum_vs_paramvals diag_lapack 1 in_order two_level
              "ng" 0 2 true true None world0) as [w' [sd|e]] eqn:E.
  - destruct (sweep_ignores_initial_value diag_lapack 1 in_order two_level
                "ng" 0 2 true true None world0 w' sd 9%Z E)
      as (sd' & Hrun & Henergy & Hstates & _).
    exists w', sd, sd'. auto.
  - vm_compute in E. discriminate.
Defined.

Lemma plotted_levels_are_columns_witness :
  ∃ w' fig,
    (∀ a pairs, diag_lapack a = Some pairs → length pairs = length a)
    ∧ ndarrays world0 !! 0 = Some [10%Z; 20%Z; 30%Z]
    ∧ plot_evals_vs_paramvals diag_lapack 1 in_order two_level recording_plot
        "EJ" 0 2 true None world0 = (w', Return fig)
    ∧ w' = world0
    ∧ ∃ sd table,
        fig = evals_vs_paramvals recording_plot sd (seq 0 2)
        ∧ energy_table sd = Energies2 table
        ∧ ∀ k row, k ∈ seq 0 2 → row ∈ table → is_Some (row !! k).
Proof.
  destruct (plot_evals_vs_paramvals diag_lapack 1 in_order two_level recording_plot
              "EJ" 0 2 true None world0) as [w' [fig|e]] eqn:E.
  - destruct (plotted_levels_are_columns diag_lapack 1 in_order two_level recording_plot
                "EJ" 0 2 true None world0 w' fig [10%Z; 20%Z; 30%Z]
                diag_lapack_complete eq_refl E)
      as (Hw & sd & table & _ & Hfig & Htable & _ & Hcols).
    exists w', fig. split; [exact diag_lapack_complete|].
    split; [reflexivity|]. split; [reflexivity|]. split; [exact Hw|].
    exists sd, table. auto.
  - vm_compute in E. discriminate.
Defined.

Lemma dispersion_plot_labels_match_columns_witness :
  ∃ w' sd label_list table,
    ndarrays world0 !! 0 = Some [10%Z; 20%Z; 30%Z]
    ∧ get_dispersion_vs_paramvals diag_lapack 1 in_order two_level
        "ng" "EJ" 0 None (TransitionSeq [(1, 0); (0, 0)]) None 3 None world0
      = (w', Return sd)
    ∧ plot_dispersion_vs_paramvals diag_lapack 1 in_order two_level recording_plot "GHz"
        "ng" "EJ" 0 None (TransitionSeq [(1, 0); (0, 0)]) None 3 None world0
      = (w', Return (data_vs_paramvals recording_plot
                       (dispersion_plot_data "GHz" sd label_list)))
    ∧ dispersion sd = Some table
    ∧ ∀ row, row ∈ table → length row = length label_list.
Proof.
  destruct (get_dispersion_vs_paramvals diag_lapack 1 in_order two_level
              "ng" "EJ" 0 None (TransitionSeq [(1, 0); (0, 0)]) None 3 None world0)
    as [w' [sd|e]] eqn:E.
  - destruct (dispersion_plot_labels_match_columns diag_lapack 1 in_order two_level
                recording_plot "GHz" "ng" "EJ" 0 None (TransitionSeq [(1, 0); (0, 0)])
                None 3 None world0 w' sd [10%Z; 20%Z; 30%Z] eq_refl E)
      as (label_list & table & Hplot & Htable & _ & Hcols).
    exists w', sd, label_list, table. split; [reflexivity|]. split; [reflexivity|]. auto.
  - vm_compute in E. discriminate.
Defined.
